(** * dslDictionaryImporter: the entity stores, the tag extractors and the
      parse loop of [main.go], embedded and checked against the specification.

    Go strings are byte sequences; they are modelled as [string].  The
    regular expressions of the program only use ASCII literals and ASCII
    classes, so matching byte by byte gives the same matches and the same
    captures as Go's rune by rune matching.  [int64] values are integers of
    [Z] wrapped to 64 bits. *)

From Stdlib Require Import ZArith Ascii String.
From stdpp Require Import gmap strings list pretty.

(** ** Outcomes: a call returns normally or panics with a message *)

Inductive outcome (A : Type) : Type :=
| Done (a : A)
| Panicked (msg : string).
Arguments Done {A} a.
Arguments Panicked {A} msg.

Definition is_done {A} (o : outcome A) : bool :=
  match o with Done _ => true | Panicked _ => false end.

(** A computation over a mutable state [S]: it leaves a state behind also
    when it panics (the state reached at the panic). *)
Definition M (S A : Type) : Type := S -> S * outcome A.

Definition ret {S A} (a : A) : M S A := fun s => (s, Done a).

Definition bind {S A B} (m : M S A) (f : A -> M S B) : M S B :=
  fun s => match m s with
           | (s', Done a) => f a s'
           | (s', Panicked msg) => (s', Panicked msg)
           end.

Definition panic {S A} (msg : string) : M S A := fun s => (s, Panicked msg).
Definition get {S} : M S S := fun s => (s, Done s).
Definition modify {S} (f : S -> S) : M S unit := fun s => (f s, Done tt).

Declare Scope go_scope.
Delimit Scope go_scope with go.
Notation "'let!' x ':=' m 'in' k" := (bind m (fun x => k))
  (at level 10, x name, m at level 100, k at level 200, only parsing) : go_scope.
Notation "'do!' m 'in' k" := (bind m (fun _ => k))
  (at level 10, m at level 100, k at level 200, only parsing) : go_scope.

(** ** Machine integers and printed values *)

Definition wrap64 (z : Z) : Z := ((z + 2 ^ 63) `mod` 2 ^ 64 - 2 ^ 63)%Z.
Definition int64_add (a b : Z) : Z := wrap64 (a + b).

(** The arguments of [AddRow] are [interface{}] values; the program passes
    strings and [int64]s. *)
Inductive value : Type :=
| VString (s : string)
| VInt64 (n : Z).

(** [fmt.Sprint] of one operand: a string as it is, an integer in decimal. *)
Definition Sprint (v : value) : string :=
  match v with
  | VString s => s
  | VInt64 n => pretty n
  end.

(** ** The entity store: [Table] *)

Definition Row : Type := list string.

Record Table : Type := mkTable {
  name : string;
  counter : Z;
  rows : list Row;
  columns : list string;
  uniqueColIndices : list nat;
  uniqueValues : gmap string Z
}.

Definition NewTable (name : string) (columns : list string) : Table :=
  {| name := name;
     counter := 0;
     columns := columns;
     rows := [];
     uniqueColIndices := [];
     uniqueValues := ∅ |}.

(** The inner loop of [SetUniqueCols]: the index of the first column equal
    to [uniqueCol], counted from [kCol]. *)
Fixpoint findCol (uniqueCol : string) (kCol : nat) (cols : list string) : option nat :=
  match cols with
  | [] => None
  | col :: cols' =>
      if String.eqb col uniqueCol then Some kCol
      else findCol uniqueCol (S kCol) cols'
  end.

Definition appendUniqueIndex (kCol : nat) (t : Table) : Table :=
  {| name := name t; counter := counter t; rows := rows t; columns := columns t;
     uniqueColIndices := uniqueColIndices t ++ [kCol];
     uniqueValues := uniqueValues t |}.

Fixpoint SetUniqueCols (uniqueCols : list string) : M Table unit :=
  match uniqueCols with
  | [] => ret tt
  | uniqueCol :: rest =>
      (let! t := get in
       match findCol uniqueCol 0 (columns t) with
       | Some kCol => do! modify (appendUniqueIndex kCol) in SetUniqueCols rest
       | None => panic ("Unknown unique column " +:+ uniqueCol)
       end)%go
  end.

(** The loop building [concatUniqueValue]; [row[uniqueColIndex]] panics when
    the index is out of range. *)
Fixpoint concatUnique (row : list value) (indices : list nat) (acc : string)
  : outcome string :=
  match indices with
  | [] => Done acc
  | uniqueColIndex :: rest =>
      match row !! uniqueColIndex with
      | Some v => concatUnique row rest (acc +:+ Sprint v)
      | None => Panicked "runtime error: index out of range"
      end
  end.

Definition recordUnique (key : string) (id : Z) (t : Table) : Table :=
  {| name := name t; counter := counter t; rows := rows t; columns := columns t;
     uniqueColIndices := uniqueColIndices t;
     uniqueValues := <[key := id]> (uniqueValues t) |}.

Definition appendRow (rowStrs : Row) (id : Z) (t : Table) : Table :=
  {| name := name t; counter := id; rows := rows t ++ [rowStrs];
     columns := columns t;
     uniqueColIndices := uniqueColIndices t;
     uniqueValues := uniqueValues t |}.

Definition columnsMismatch (rowColsCount tableRowsCount : nat) : string :=
  "Columns count " +:+ pretty rowColsCount +:+
  " in a row does not correspond to the table columns count " +:+
  pretty tableRowsCount.

Definition AddRow (row : list value) : M Table Z :=
  fun t =>
    let counter' := int64_add (counter t) 1 in
    let rowColsCount := length row in
    let tableRowsCount := length (columns t) in
    if negb (rowColsCount =? tableRowsCount)%nat
    then (t, Panicked (columnsMismatch rowColsCount tableRowsCount))
    else
      let store := fun t' => (appendRow (Sprint <$> row) counter' t', Done counter') in
      if (0 <? length (uniqueColIndices t))%nat then
        match concatUnique row (uniqueColIndices t) "" with
        | Panicked msg => (t, Panicked msg)
        | Done concatUniqueValue =>
            match uniqueValues t !! concatUniqueValue with
            | Some rowId => (t, Done rowId)
            | None => store (recordUnique concatUniqueValue counter' t)
            end
        end
      else store t.

(** ** Regular expressions

    The part of Go's [regexp] syntax the program uses.  Go matches
    leftmost-first: among the matches that start at the leftmost possible
    position it returns the one a backtracking search finds first, greedy
    operators trying the longest repetition first and lazy ones the shortest.
    The program repeats single-character classes only. *)

Definition text : Type := list ascii.

Inductive regex : Type :=
| Empty
| Class (p : ascii -> bool)
| Cat (r1 r2 : regex)
| Star (greedy : bool) (p : ascii -> bool)
| Opt (r : regex)
| Group (i : nat) (r : regex)
| BeginText.

(** The state of a match attempt: the offset reached, the text still to
    read and the groups captured so far (the latest binding first). *)
Record cursor : Type := mkCursor {
  pos : nat;
  rest : text;
  caps : list (nat * text)
}.

Definition cont : Type := cursor -> option cursor.

Definition orElse {A} (o1 o2 : option A) : option A :=
  match o1 with Some a => Some a | None => o2 end.

Fixpoint star_greedy (p : ascii -> bool) (k : cont)
    (n : nat) (cs : list (nat * text)) (s : text) : option cursor :=
  match s with
  | a :: s' =>
      if p a then orElse (star_greedy p k (S n) cs s') (k (mkCursor n s cs))
      else k (mkCursor n s cs)
  | [] => k (mkCursor n s cs)
  end.

Fixpoint star_lazy (p : ascii -> bool) (k : cont)
    (n : nat) (cs : list (nat * text)) (s : text) : option cursor :=
  match k (mkCursor n s cs) with
  | Some c => Some c
  | None =>
      match s with
      | a :: s' => if p a then star_lazy p k (S n) cs s' else None
      | [] => None
      end
  end.

Fixpoint rmatch (r : regex) (k : cont) (c : cursor) : option cursor :=
  match r with
  | Empty => k c
  | Class p =>
      match rest c with
      | a :: s' => if p a then k (mkCursor (S (pos c)) s' (caps c)) else None
      | [] => None
      end
  | Cat r1 r2 => rmatch r1 (rmatch r2 k) c
  | Star true p => star_greedy p k (pos c) (caps c) (rest c)
  | Star false p => star_lazy p k (pos c) (caps c) (rest c)
  | Opt r1 => orElse (rmatch r1 k c) (k c)
  | Group i r1 =>
      rmatch r1
        (fun c' => k (mkCursor (pos c') (rest c')
                        ((i, take (pos c' - pos c) (rest c)) :: caps c')))
        c
  | BeginText => if (pos c =? 0)%nat then k c else None
  end.

(** A successful search: the text skipped before the match, the matched
    text and the cursor at the end of the match. *)
Record found : Type := mkFound {
  skipped : text;
  matched : text;
  stop : cursor
}.

(** Try every start offset from left to right. *)
Fixpoint search (r : regex) (n : nat) (s : text) : option found :=
  match rmatch r Some (mkCursor n s []) with
  | Some c => Some (mkFound [] (take (pos c - n) s) c)
  | None =>
      match s with
      | [] => None
      | a :: s' =>
          match search r (S n) s' with
          | Some f => Some (mkFound (a :: skipped f) (matched f) (stop f))
          | None => None
          end
      end
  end.

Fixpoint ngroups (r : regex) : nat :=
  match r with
  | Cat r1 r2 => ngroups r1 `max` ngroups r2
  | Opt r1 => ngroups r1
  | Group i r1 => i `max` ngroups r1
  | _ => 0
  end.

(** The text of group [i], empty when the group took no part in the match. *)
Fixpoint capture (i : nat) (cs : list (nat * text)) : text :=
  match cs with
  | [] => []
  | (j, t) :: cs' => if (i =? j)%nat then t else capture i cs'
  end.

Definition ofText (t : text) : string := string_of_list_ascii t.
Definition toText (s : string) : text := list_ascii_of_string s.

Definition FindStringSubmatch (re : regex) (s : string) : option (list string) :=
  match search re 0 (toText s) with
  | Some f =>
      Some (ofText (matched f)
            :: ((fun i => ofText (capture i (caps (stop f)))) <$> seq 1 (ngroups re)))
  | None => None
  end.

Definition FindString (re : regex) (s : string) : string :=
  match search re 0 (toText s) with
  | Some f => ofText (matched f)
  | None => ""
  end.

Definition MatchString (re : regex) (s : string) : bool :=
  match search re 0 (toText s) with
  | Some _ => true
  | None => false
  end.

(** [ReplaceAllString] with a replacement free of [$]: every match, found
    from left to right without overlap, is replaced.  The two patterns the
    program replaces with start with a mandatory character, so a match is
    never empty; on an empty match the model stops replacing. *)
Fixpoint replaceAll (fuel : nat) (re : regex) (repl : text) (n : nat) (s : text) : text :=
  match fuel with
  | O => s
  | S fuel' =>
      match search re n s with
      | None => s
      | Some f =>
          match matched f with
          | [] => s
          | _ :: _ =>
              skipped f ++ repl ++
              replaceAll fuel' re repl (pos (stop f)) (rest (stop f))
          end
      end
  end.

Definition ReplaceAllString (re : regex) (src repl : string) : string :=
  ofText (replaceAll (String.length src) re (toText repl) 0 (toText src)).

(** A pattern written as a sequence, and a literal word. *)
Definition cat (rs : list regex) : regex := foldr Cat Empty rs.
Definition chr (a : ascii) : regex := Class (Ascii.eqb a).
Definition lit (w : string) : regex := cat (chr <$> toText w).

(** [.] is every character but the newline; [\s] is [[\t\n\f\r ]]. *)
Definition dot (a : ascii) : bool := negb (Ascii.eqb a "010").
Definition space (a : ascii) : bool :=
  Ascii.eqb a "009" || Ascii.eqb a "010" || Ascii.eqb a "012" ||
  Ascii.eqb a "013" || Ascii.eqb a " ".

(** ** Library functions of package [strings] *)

Fixpoint startsWith (w s : text) : bool :=
  match w, s with
  | [], _ => true
  | a :: w', b :: s' => Ascii.eqb a b && startsWith w' s'
  | _ :: _, [] => false
  end.

Fixpoint containsText (w s : text) : bool :=
  startsWith w s ||
  match s with
  | [] => false
  | _ :: s' => containsText w s'
  end.

Definition Contains (s substr : string) : bool :=
  containsText (toText substr) (toText s).

Fixpoint Join (elems : list string) (sep : string) : string :=
  match elems with
  | [] => ""
  | [e] => e
  | e :: elems' => e +:+ sep +:+ Join elems' sep
  end.

(** [unicode.IsSpace] on the UTF-8 encoding: the ASCII white space, U+0085
    and U+00A0 (two bytes), and U+1680, U+2000 to U+200A, U+2028, U+2029,
    U+202F, U+205F and U+3000 (three bytes). *)
Definition space1 (a : ascii) : bool :=
  let n := nat_of_ascii a in
  ((9 <=? n) && (n <=? 13) || (n =? 32))%nat.

Definition space2 (a b : ascii) : bool :=
  let n := nat_of_ascii a in
  let m := nat_of_ascii b in
  ((n =? 194) && ((m =? 133) || (m =? 160)))%nat.

Definition space3 (a b c : ascii) : bool :=
  let n := nat_of_ascii a in
  let m := nat_of_ascii b in
  let l := nat_of_ascii c in
  ((n =? 225) && (m =? 154) && (l =? 128)
   || (n =? 226) && (m =? 128) &&
      ((128 <=? l) && (l <=? 138) || (l =? 168) || (l =? 169) || (l =? 175))
   || (n =? 226) && (m =? 129) && (l =? 159)
   || (n =? 227) && (m =? 128) && (l =? 128))%nat.

(** Drop white space from the front of [s].  With [backwards] the text is
    read from its end, so the bytes of an encoded rune arrive last first. *)
Fixpoint trimFront (backwards : bool) (s : text) : text :=
  match s with
  | [] => []
  | a :: s1 =>
      if space1 a then trimFront backwards s1
      else
        match s1 with
        | [] => s
        | b :: s2 =>
            if (if backwards then space2 b a else space2 a b)
            then trimFront backwards s2
            else
              match s2 with
              | [] => s
              | c :: s3 =>
                  if (if backwards then space3 c b a else space3 a b c)
                  then trimFront backwards s3
                  else s
              end
        end
  end.

Definition TrimSpace (s : string) : string :=
  ofText (rev (trimFront true (rev (trimFront false (toText s))))).

(** ** The tag extractors *)

Definition validateBodyLine (inputLine : string) : option string :=
  let pattern := cat [BeginText; Class space; Star true space] in
  if negb (MatchString pattern inputLine)
  then Some "Line is not beginning with spaces"
  else
    let expectedTags := ["[p]"; "[trn]"; "[*]"] in
    if existsb (Contains inputLine) expectedTags then None
    else Some ("Line '" +:+ inputLine +:+
               "' is not containing one of expected tags: " +:+
               Join expectedTags ",").

Definition cleanupLine (inputLine : string) : string :=
  let pattern := cat [chr "["; Star false dot; chr "]"] in
  let result := ReplaceAllString pattern inputLine "" in
  let pattern := cat [Class space; Class space; Star true space] in
  let result := ReplaceAllString pattern result " " in
  TrimSpace result.

Definition extractTranslation (inputLine : string) : string :=
  let pattern := cat [lit "[trn]"; Group 1 (Star true dot); lit "[/trn]"] in
  match FindStringSubmatch pattern inputLine with
  | Some res => cleanupLine (res !!! 1%nat)
  | None => ""
  end.

Definition extractNote (inputLine : string) : string * string :=
  let pattern :=
    cat [lit "[p"; Star false dot; chr "]";
         Opt (Group 1 (cat [lit "[c"; Star true space;
                            Group 2 (Star false dot); chr "]"]));
         Group 3 (Star false dot);
         lit "[/"] in
  match FindStringSubmatch pattern inputLine with
  | Some res => (res !!! 2%nat, cleanupLine (res !!! 3%nat))
  | None => ("", "")
  end.

Definition scanWordArticleTitle (inputLine : string) : string :=
  let pattern :=
    cat [BeginText; Class (fun a => negb (space a || Ascii.eqb a "["));
         Star true dot] in
  FindString pattern inputLine.

(** [scanTitle] returns the text it stores in [*dest], or [None] when the
    line does not match (the call returns false and leaves [*dest]).  The
    three prefixes the program passes are free of regexp operators, so the
    prefix is a literal. *)
Definition scanTitle (prefix inputLine : string) : option string :=
  let pattern :=
    cat [lit prefix; Star true space; chr "034";
         Group 1 (Star true dot); chr "034"] in
  match FindStringSubmatch pattern inputLine with
  | Some res => Some (res !!! 1%nat)
  | None => None
  end.

(** ** The parse loop of [main] *)

(** The local variables of [main]: the eight tables, the identities and the
    header names. *)
Inductive TableVar : Type :=
| wordsTable | dictionariesTable | translationsTable | gramTypeTable
| gramTypeTranslationTable | translationAttributesTable
| translationAttributesToTranslationsTable | languagesTable.

Inductive IdVar : Type :=
| dicId | langFromId | langToId | wordFromId
| gramTypeId | attributeId | translationId | wordToId.

Inductive NameVar : Type :=
| dicName | langFromName | langToName.

Global Instance TableVar_eq_dec : EqDecision TableVar.
Proof. solve_decision. Defined.
Global Instance IdVar_eq_dec : EqDecision IdVar.
Proof. solve_decision. Defined.
Global Instance NameVar_eq_dec : EqDecision NameVar.
Proof. solve_decision. Defined.

Record Env : Type := mkEnv {
  tables : TableVar -> Table;
  ids : IdVar -> Z;
  names : NameVar -> string
}.

Definition assign {K V} `{EqDecision K} (x : K) (v : V) (f : K -> V) : K -> V :=
  fun y => if decide (x = y) then v else f y.

Definition setTable (x : TableVar) (t : Table) (e : Env) : Env :=
  mkEnv (assign x t (tables e)) (ids e) (names e).
Definition setId (x : IdVar) (z : Z) (e : Env) : Env :=
  mkEnv (tables e) (assign x z (ids e)) (names e).
Definition setName (x : NameVar) (s : string) (e : Env) : Env :=
  mkEnv (tables e) (ids e) (assign x s (names e)).

(** Run a method of the table held in [x]. *)
Definition onTable {A} (x : TableVar) (m : M Table A) : M Env A :=
  fun e => let (t', o) := m (tables e x) in (setTable x t' e, o).

Definition addRow (x : TableVar) (row : list value) : M Env Z :=
  onTable x (AddRow row).

Definition readId (x : IdVar) : M Env Z := fun e => (e, Done (ids e x)).
Definition readName (x : NameVar) : M Env string := fun e => (e, Done (names e x)).

(** [name == "" && scanTitle(prefix, line, &name)] *)
Definition unsetAndScanTitle (x : NameVar) (prefix line : string) : M Env bool :=
  fun e =>
    if String.eqb (names e x) "" then
      match scanTitle prefix line with
      | Some title => (setName x title e, Done true)
      | None => (e, Done false)
      end
    else (e, Done false).

(** [errs.FailOnError]: panic on an error, return otherwise. *)
Definition FailOnError {S} (err : option string) : M S unit :=
  match err with
  | Some msg => panic msg
  | None => ret tt
  end.

(** The translation branch of the loop body: the target word, the
    translation, the attribute link and the grammar-type link. *)
Definition storeTranslation (note translation : string) : M Env unit :=
  (let! dic := readId dicId in
   let! langTo := readId langToId in
   let! wordTo := addRow wordsTable [VString translation; VInt64 dic; VInt64 langTo] in
   do! modify (setId wordToId wordTo) in
   let! wordFrom := readId wordFromId in
   let! trId := addRow translationsTable [VInt64 wordFrom; VInt64 wordTo] in
   do! modify (setId translationId trId) in
   do! (if negb (String.eqb note "") then
          let! attr := addRow translationAttributesTable [VString note] in
          do! modify (setId attributeId attr) in
          let! _ := addRow translationAttributesToTranslationsTable
                      [VInt64 attr; VInt64 trId] in
          modify (setId attributeId 0%Z)
        else ret tt) in
   let! gramType := readId gramTypeId in
   if (0 <? gramType)%Z then
     let! _ := addRow gramTypeTranslationTable [VInt64 gramType; VInt64 trId] in
     ret tt
   else ret tt)%go.

(** The loop body from [validateBodyLine] on: the line is neither blank,
    nor a header that is still wanted, nor a headword. *)
Definition processBody (line : string) : M Env unit :=
  (do! FailOnError (validateBodyLine line) in
   let note := snd (extractNote line) in
   let translation := extractTranslation line in
   if negb (String.eqb note "") && String.eqb translation "" then
     let! id := addRow gramTypeTable [VString note] in
     modify (setId gramTypeId id)
   else
   if negb (String.eqb translation "") then storeTranslation note translation
   else ret tt)%go.

(** The headword branch of the loop body. *)
Definition storeHeadword (wordArticleTitle : string) : M Env unit :=
  (let! dic := readId dicId in
   let! langFrom := readId langFromId in
   let! id := addRow wordsTable
                [VString wordArticleTitle; VInt64 dic; VInt64 langFrom] in
   do! modify (setId wordFromId id) in
   do! modify (setId gramTypeId 0%Z) in
   modify (setId attributeId 0%Z))%go.

(** A header branch: the row for the name just scanned. *)
Definition storeHeader (x : NameVar) (tbl : TableVar) (idVar : IdVar) : M Env unit :=
  (let! nm := readName x in
   let! id := addRow tbl [VString nm] in
   modify (setId idVar id))%go.

(** One iteration of the scanner loop, on the line [line]. *)
Definition processLine (line : string) : M Env unit :=
  (if String.eqb (TrimSpace line) "" then ret tt else
   let! isName := unsetAndScanTitle dicName "#NAME" line in
   if isName then storeHeader dicName dictionariesTable dicId else
   let! isFrom := unsetAndScanTitle langFromName "#INDEX_LANGUAGE" line in
   if isFrom then storeHeader langFromName languagesTable langFromId else
   let! isTo := unsetAndScanTitle langToName "#CONTENTS_LANGUAGE" line in
   if isTo then storeHeader langToName languagesTable langToId else
   let wordArticleTitle := scanWordArticleTitle line in
   if negb (String.eqb wordArticleTitle "") then storeHeadword wordArticleTitle
   else processBody line)%go.

Fixpoint scanLoop (lines : list string) : M Env unit :=
  match lines with
  | [] => ret tt
  | line :: lines' => (do! processLine line in scanLoop lines')%go
  end.

(** [NewTable] followed by [SetUniqueCols] (not called when [unique] is
    empty, which [SetUniqueCols []] models: it changes nothing). *)
Definition declare (x : TableVar) (name : string) (columns unique : list string)
  : M Env unit :=
  (do! modify (setTable x (NewTable name columns)) in
   onTable x (SetUniqueCols unique))%go.

Definition declareTables : M Env unit :=
  (do! declare wordsTable "words" ["word"; "dic_id"; "lang_id"] [] in
   do! declare dictionariesTable "dictionaries" ["name"] [] in
   do! declare translationsTable "translations" ["word_from_id"; "word_to_id"]
         ["word_from_id"; "word_to_id"] in
   do! declare gramTypeTable "gramTypes" ["value"] ["value"] in
   do! declare gramTypeTranslationTable "gramTypesToTranslations"
         ["gram_type_id"; "translation_id"] ["gram_type_id"; "translation_id"] in
   do! declare translationAttributesTable "translationAttributes" ["value"] ["value"] in
   do! declare translationAttributesToTranslationsTable
         "translationAttributesTranslations"
         ["attribute_id"; "translation_id"] ["attribute_id"; "translation_id"] in
   declare languagesTable "languages" ["name"] ["name"])%go.

(** The tables [main] prints, in order; the table of attribute links is not
    among them. *)
Definition printed : list TableVar :=
  [wordsTable; dictionariesTable; languagesTable; translationsTable;
   gramTypeTable; gramTypeTranslationTable; translationAttributesTable].

(** [main] on the decoded lines of the input file: the tables handed to the
    printer, or the panic that ended the run before anything was printed. *)
Definition main (lines : list string) : M Env (list Table) :=
  (do! declareTables in
   do! scanLoop lines in
   let! e := get in
   ret (tables e <$> printed))%go.

(** Before [main] assigns them the variables hold their zero values. *)
Definition zeroEnv : Env :=
  mkEnv (fun _ => NewTable "" []) (fun _ => 0%Z) (fun _ => "").

Definition run (lines : list string) : Env * outcome (list Table) :=
  main lines zeroEnv.

(** The state in which the scanner loop starts. *)
Definition startEnv : Env := fst (declareTables zeroEnv).

(** ** Vocabulary of the properties *)

(** The composite key of a row: the concatenation [AddRow] computes. *)
Definition uniqueKey (t : Table) (row : list value) : outcome string :=
  concatUnique row (uniqueColIndices t) "".

Definition uniqueKeyed (t : Table) : Prop := uniqueColIndices t ≠ [].

(** The indices [SetUniqueCols] records lie within the columns. *)
Definition indicesInRange (t : Table) : Prop :=
  Forall (fun i => i < length (columns t)) (uniqueColIndices t).

(** The schemas [main] declares for the Word and the Translation store;
    [AddRow] keeps them (lemma [AddRow_schema]). *)
Definition wordsSchema (t : Table) : Prop :=
  columns t = ["word"; "dic_id"; "lang_id"] ∧ uniqueColIndices t = [].

Definition translationsSchema (t : Table) : Prop :=
  columns t = ["word_from_id"; "word_to_id"] ∧ uniqueColIndices t = [0; 1].

(** A run of inserts into one store, and the cells [AddRow] stores for a
    row. *)
Fixpoint AddRows (rws : list (list value)) (t : Table) : Table :=
  match rws with
  | [] => t
  | row :: rws' => AddRows rws' (fst (AddRow row t))
  end.

Definition printRow (row : list value) : Row := Sprint <$> row.

(** Whether the store already holds the key. *)
Definition holdsKey (t : Table) (key : string) : bool :=
  bool_decide (is_Some (uniqueValues t !! key)).

(** The Language store after [English] was inserted once. *)
Definition languagesWithEnglish : Table :=
  fst (AddRow [VString "English"] (tables startEnv languagesTable)).

(** The rows as [Table.String] hands them to the table writer: the 1-based
    position in front of the stored cells. *)
Definition idRows (t : Table) : list Row :=
  imap (fun k row => pretty (k + 1) :: row) (rows t).

(** Every table still has the columns and the unique columns [main]
    declared for it. *)
Definition declared (e : Env) : Prop :=
  ∀ x, columns (tables e x) = columns (tables startEnv x) ∧
       uniqueColIndices (tables e x) = uniqueColIndices (tables startEnv x).

(** What holds of a result: [Q] of the value and the state when the
    computation returned, [E] of the message when it panicked. *)
Definition post {A} (Q : A → Env → Prop) (E : string → Prop)
    (r : Env * outcome A) : Prop :=
  match r with
  | (e', Done a) => Q a e'
  | (_, Panicked msg) => E msg
  end.

(** How the loop classifies a line in the state [e]. *)
Definition headerSkipped (x : NameVar) (prefix line : string) (e : Env) : Prop :=
  names e x ≠ "" ∨ scanTitle prefix line = None.

Definition reachesTitleTest (line : string) (e : Env) : Prop :=
  TrimSpace line ≠ "" ∧
  headerSkipped dicName "#NAME" line e ∧
  headerSkipped langFromName "#INDEX_LANGUAGE" line e ∧
  headerSkipped langToName "#CONTENTS_LANGUAGE" line e.

Definition isHeadwordLine (line : string) (e : Env) : Prop :=
  reachesTitleTest line e ∧ scanWordArticleTitle line ≠ "".

Definition isBodyLine (line : string) (e : Env) : Prop :=
  reachesTitleTest line e ∧ scanWordArticleTitle line = "".

(** What [main] returns once the loop has ended. *)
Definition finish (r : Env * outcome unit) : Env * outcome (list Table) :=
  match r with
  | (e, Done _) => (e, Done (tables e <$> printed))
  | (e, Panicked msg) => (e, Panicked msg)
  end.

(** ** Inputs of the examples *)

Definition dquote : string := String "034" "".
Definition quoted (s : string) : string := dquote +:+ s +:+ dquote.

Definition endToEndInput : list string :=
  ["#NAME " +:+ quoted "TestDict";
   "#INDEX_LANGUAGE " +:+ quoted "English";
   "#CONTENTS_LANGUAGE " +:+ quoted "French";
   "cat";
   " [p]n[/p][trn]chat[/trn]"].

Definition nameA : string := "#NAME " +:+ quoted "A".
Definition nameB : string := "#NAME " +:+ quoted "B".

Definition notIndented : string := "notindented[trn]x[/trn]".
Definition bracketLed : string := "[trn]x[/trn]".

(** The end-to-end result as the specification gives it. *)
Definition endToEndAsSpecified (r : Env * outcome (list Table)) : Prop :=
  let e := fst r in
  is_done (snd r) = true ∧
  idRows (tables e dictionariesTable) = [["1"; "TestDict"]] ∧
  idRows (tables e languagesTable) = [["1"; "English"]; ["2"; "French"]] ∧
  idRows (tables e wordsTable) = [["1"; "cat"; "1"; "1"]; ["2"; "chat"; "1"; "2"]] ∧
  idRows (tables e gramTypeTable) = [["1"; "n"]] ∧
  idRows (tables e translationsTable) = [["1"; "1"; "2"]] ∧
  idRows (tables e gramTypeTranslationTable) = [["1"; "1"; "1"]].

(** A headword followed by a grammar note and two translations: the note
    on the line of the first translation, or on a line of its own. *)
Definition grammarOnTranslationLine (headword ws1 ws2 : string) : list string :=
  [headword; ws1 +:+ "[p]noun[/p][trn]foo[/trn]"; ws2 +:+ "[trn]bar[/trn]"].

Definition grammarOnOwnLine (headword ws1 ws2 ws3 : string) : list string :=
  [headword; ws1 +:+ "[p]noun[/p]"; ws2 +:+ "[trn]foo[/trn]";
   ws3 +:+ "[trn]bar[/trn]"].

(** Every Translation row is linked in GrammarTypeTranslation to one and
    the same GrammarType row, whose value is [value]. *)
Definition allLinkedToGrammarType (e : Env) (value : string) : Prop :=
  ∃ g, [g; value] ∈ idRows (tables e gramTypeTable) ∧
       ∀ tr cells, tr :: cells ∈ idRows (tables e translationsTable) →
                   ∃ link, [link; g; tr] ∈ idRows (tables e gramTypeTranslationTable).

(** The dedup key of the pair [(a, b)] in a store keyed on its two
    columns: the two numbers printed one after the other, with nothing in
    between. *)
Definition pairKey (a b : Z) : string := Sprint (VInt64 a) +:+ Sprint (VInt64 b).

(** [AddRow(row...)] took the unique-keyed store [t] to [t'] and returned
    [id], the composite key of the row being [key]: under a key the index
    does not hold yet the printed row is appended and the key recorded with
    the new identity; under a key the index holds the store stays as it is
    and the identity on record is returned, whichever row the key was
    recorded for. *)
Definition insertedUnder (key : string) (row : list value) (t t' : Table) (id : Z)
  : Prop :=
  AddRow row t = (t', Done id) ∧
  match uniqueValues t !! key with
  | None =>
      rows t' = rows t ++ [Sprint <$> row] ∧
      uniqueValues t' = <[key := id]> (uniqueValues t) ∧
      id = int64_add (counter t) 1
  | Some known => t' = t ∧ id = known
  end.

(** What the translation branch does with the note text [note] for the
    translation [trId], from the state [e] to the state [e']: nothing when
    the text is empty; else the text is inserted into the
    TranslationAttribute store under the text itself as key, the pair of the
    attribute and the translation is inserted into the AttributeTranslation
    store under [pairKey], and [attributeId] is back at 0. *)
Definition attributeStored (note : string) (trId : Z) (e e' : Env) : Prop :=
  if decide (note = "") then
    tables e' translationAttributesTable = tables e translationAttributesTable ∧
    tables e' translationAttributesToTranslationsTable
      = tables e translationAttributesToTranslationsTable ∧
    ids e' attributeId = ids e attributeId
  else
    ∃ attr link,
      insertedUnder note [VString note]
        (tables e translationAttributesTable)
        (tables e' translationAttributesTable) attr ∧
      insertedUnder (pairKey attr trId) [VInt64 attr; VInt64 trId]
        (tables e translationAttributesToTranslationsTable)
        (tables e' translationAttributesToTranslationsTable) link ∧
      ids e' attributeId = 0%Z.

(** The pair of the current grammar type and the translation, inserted
    into the GrammarTypeTranslation store when a grammar type is set. *)
Definition grammarTypeLinked (trId : Z) (e e' : Env) : Prop :=
  if (0 <? ids e gramTypeId)%Z then
    ∃ link,
      insertedUnder (pairKey (ids e gramTypeId) trId)
        [VInt64 (ids e gramTypeId); VInt64 trId]
        (tables e gramTypeTranslationTable)
        (tables e' gramTypeTranslationTable) link
  else
    tables e' gramTypeTranslationTable = tables e gramTypeTranslationTable.

(** A headword, eleven translations with the qualifier [red] and the
    notes [a] to [k], which get the attributes 1 to 11, and ninety-nine
    translations without a note: 110 translations in all.  The line
    [notedLine "a"] after them is translation 111 with attribute 1. *)
Definition notedLine (note : string) : string :=
  " [p][c red]" +:+ note +:+ "[/c][/p][trn]w[/trn]".

Definition elevenAttributes : list string :=
  "cat" :: (notedLine <$> ["a"; "b"; "c"; "d"; "e"; "f"; "g"; "h"; "i"; "j"; "k"])
        ++ replicate 99 " [trn]w[/trn]".

(** A body line with a colour qualifier, a note text and a translation. *)
Definition qualifiedLine : string := " [p][c red]adj[/c][/p][trn]x[/trn]".

(** ** Two readings of [extractTranslation] *)



(** [s] cut at the last occurrence of [w]. *)
Fixpoint splitLast (w s : text) : option (text * text) :=
  let later :=
    match s with
    | [] => None
    | a :: s' =>
        match splitLast w s' with
        | Some (b, r) => Some (a :: b, r)
        | None => None
        end
    end in
  match later with
  | Some cut => Some cut
  | None => if startsWith w s then Some ([], drop (length w) s) else None
  end.



(** A line as the scanner delivers it holds no newline. *)
Definition noNewline (line : string) : Prop :=
  Forall (fun a => dot a = true) (toText line).


(** ** Vocabulary for the matcher *)

(** The pattern holds no [^]. *)
Fixpoint noBegin (r : regex) : bool :=
  match r with
  | BeginText => false
  | Cat r1 r2 => noBegin r1 && noBegin r2
  | Opt r1 => noBegin r1
  | Group _ r1 => noBegin r1
  | _ => true
  end.

(** The class of the character every match of the pattern starts with,
    when the pattern starts with a mandatory character. *)
Fixpoint leadClass (r : regex) : option (ascii -> bool) :=
  match r with
  | Class p => Some p
  | Cat r1 _ => leadClass r1
  | Group _ r1 => leadClass r1
  | _ => None
  end.

(** The cursor [c] seen from [d] characters further left. *)
Definition shift (d : nat) (c : cursor) : cursor :=
  mkCursor (pos c + d) (rest c) (caps c).

(** An indentation: one or more characters of the class [\s]. *)
Definition indentation (ws : string) : Prop :=
  ws ≠ "" ∧ Forall (fun a => space a = true) (toText ws).

(** ** The rest of [Table]: [Change] and [String] *)

(** The message of the run-time panic for the index [i] into a slice of
    [len] elements: the length is reported unless the index is negative. *)
Definition indexOutOfRange (i : Z) (len : nat) : string :=
  if (i <? 0)%Z
  then "runtime error: index out of range [" +:+ pretty i +:+ "]"
  else "runtime error: index out of range [" +:+ pretty i +:+ "] with length "
       +:+ pretty len.

Definition withRows (rws : list Row) (t : Table) : Table :=
  {| name := name t; counter := counter t; rows := rws; columns := columns t;
     uniqueColIndices := uniqueColIndices t;
     uniqueValues := uniqueValues t |}.

(** [Change]: the two checks compare [int(row)] and [int(col)] with the last
    index ([int] has 64 bits); a negative index passes them and panics at
    [t.rows[row][col]].  Only the cell is written: [uniqueValues] stays. *)
Definition Change (val : string) (col row : Z) : M Table unit :=
  fun t =>
    if (Z.of_nat (length (rows t)) - 1 <? row)%Z
    then (t, Panicked ("Row " +:+ pretty row +:+ " is out of range"))
    else if (Z.of_nat (length (columns t)) - 1 <? col)%Z
    then (t, Panicked ("Column " +:+ pretty col +:+ " is out of range"))
    else if (row <? 0)%Z
    then (t, Panicked (indexOutOfRange row (length (rows t))))
    else
      match rows t !! Z.to_nat row with
      | None => (t, Panicked (indexOutOfRange row (length (rows t))))
      | Some cells =>
          if (col <? 0)%Z || (Z.of_nat (length cells) <=? col)%Z
          then (t, Panicked (indexOutOfRange col (length cells)))
          else (withRows (<[Z.to_nat row := <[Z.to_nat col := val]> cells]> (rows t)) t,
                Done tt)
      end.

(** What [String] hands to the table writer: the caption, the header and
    the rows, each with its 1-based position in front. *)
Record tableWriterInput : Type := mkTableWriterInput {
  caption : string;
  header : list string;
  body : list Row
}.

Definition String_input (t : Table) : tableWriterInput :=
  {| caption := name t;
     header := "Id" :: columns t;
     body := idRows t |}.

(** ** The extractors [main] does not call *)

Definition digit (a : ascii) : bool :=
  (48 <=? nat_of_ascii a)%nat && (nat_of_ascii a <=? 57)%nat.

(** [strconv.ParseInt(s, 10, 64)]: an optional sign and one or more decimal
    digits; an error ([None]) for any other text and for a value outside
    the 64-bit range. *)
Fixpoint parseDigits (acc : Z) (s : text) : option Z :=
  match s with
  | [] => Some acc
  | a :: s' =>
      if digit a
      then parseDigits (10 * acc + Z.of_nat (nat_of_ascii a - 48))%Z s'
      else None
  end.

Definition inInt64 (z : Z) : bool :=
  ((- 2 ^ 63 <=? z) && (z <? 2 ^ 63))%Z.

Definition ParseInt10 (s : string) : option Z :=
  let unsigned (digits : text) : option Z :=
    match digits with
    | [] => None
    | _ :: _ => parseDigits 0 digits
    end in
  let signed :=
    match toText s with
    | a :: digits =>
        if Ascii.eqb a "-" then Z.opp <$> unsigned digits
        else if Ascii.eqb a "+" then unsigned digits
        else unsigned (a :: digits)
    | [] => None
    end in
  match signed with
  | Some z => if inInt64 z then Some z else None
  | None => None
  end.

Definition extractIndex (inputLine : string) : Z :=
  let pattern :=
    cat [BeginText; Star true space; chr "["; Star false dot; chr "]";
         Group 1 (Star true digit);
         Class (fun a => Ascii.eqb a ")" || Ascii.eqb a "|" || Ascii.eqb a ".")] in
  match FindStringSubmatch pattern inputLine with
  | Some res =>
      match ParseInt10 (res !!! 1%nat) with
      | Some inputLineInt => inputLineInt
      | None => 0%Z
      end
  | None => 0%Z
  end.

Definition extractTranslationAttributes (inputLine : string) : string * bool :=
  let pattern :=
    cat [Star true dot; lit "[/"; Star false dot; chr "]";
         Group 1 (Star true dot); lit "[trn]"] in
  match FindStringSubmatch pattern inputLine with
  | None => ("", false)
  | Some res =>
      let isItalic := Contains (res !!! 1%nat) "[i]" in
      let pattern := cat [lit "[c "; Group 1 (Star false dot); chr "]"] in
      match FindStringSubmatch pattern (res !!! 1%nat) with
      | Some res' => (res' !!! 1%nat, isItalic)
      | None => ("", isItalic)
      end
  end.

Definition extractRelation (inputLine : string) : string * string :=
  let pattern := cat [lit "[*]"; Opt (Group 1 (Star true dot)); lit "[/*]"] in
  match FindStringSubmatch pattern inputLine with
  | None => ("", "")
  | Some res =>
      if Contains (res !!! 1%nat) "[ref]"
      then ("", cleanupLine (res !!! 1%nat))
      else (cleanupLine (res !!! 1%nat), "")
  end.

(** ** Vocabulary of the further properties *)

(** The least number of characters a match of the pattern takes. *)
Fixpoint minLen (r : regex) : nat :=
  match r with
  | Class _ => 1
  | Cat r1 r2 => minLen r1 + minLen r2
  | Group _ r1 => minLen r1
  | _ => 0
  end.

(** [t] with further unique-column indices recorded. *)
Definition addIndices (idx : list nat) (t : Table) : Table :=
  {| name := name t; counter := counter t; rows := rows t; columns := columns t;
     uniqueColIndices := uniqueColIndices t ++ idx;
     uniqueValues := uniqueValues t |}.

(** [i] is the position of the first column called [u]. *)
Definition firstColumn (cols : list string) (u : string) (i : nat) : Prop :=
  cols !! i = Some u ∧ ∀ j, j < i → cols !! j ≠ Some u.

(** The cell in row [r] (counted from 0) and column [c]. *)
Definition cell (t : Table) (r c : nat) : option string :=
  rows t !! r ≫= fun cells => cells !! c.

(** The indices [Change] accepts. *)
Definition inRange (t : Table) (col row : Z) : Prop :=
  (0 <= row < Z.of_nat (length (rows t)))%Z ∧
  (0 <= col < Z.of_nat (length (columns t)))%Z.

(** The tables the program can build: [NewTable], then [SetUniqueCols]
    (which may have panicked part of the way), then any calls of [AddRow],
    returning or not. *)
Inductive built : Table → Prop :=
| built_new name columns unique :
    built (fst (SetUniqueCols unique (NewTable name columns)))
| built_add t row :
    built t → built (fst (AddRow row t)).

(** The composite key of a stored row, from its cells. *)
Definition storedKey (t : Table) (cells : Row) : outcome string :=
  uniqueKey t (VString <$> cells).

(** The dedup index lists the keys of the stored rows, each with the
    1-based position of its row. *)
Definition indexed (t : Table) : Prop :=
  ∀ key id,
    uniqueValues t !! key = Some id ↔
    ∃ k cells, id = Z.of_nat (k + 1) ∧ rows t !! k = Some cells ∧
               storedKey t cells = Done key.

(** No 64-bit identity has wrapped around yet. *)
Definition withinInt64 (t : Table) : Prop :=
  (Z.of_nat (length (rows t)) < 2 ^ 63)%Z.

(** The line starts with a character of the class [\s]. *)
Definition startsWithSpace (line : string) : bool :=
  match toText line with
  | a :: _ => space a
  | [] => false
  end.

(** The prefixes [main] passes to [scanTitle]; none holds a regexp
    operator. *)
Definition titlePrefixes : list string :=
  ["#NAME"; "#INDEX_LANGUAGE"; "#CONTENTS_LANGUAGE"].

(** The variables a step of the loop leaves alone. *)
Definition keepsTables (xs : list TableVar) (e e' : Env) : Prop :=
  ∀ x, x ∉ xs → tables e' x = tables e x.

Definition keepsIds (vs : list IdVar) (e e' : Env) : Prop :=
  ∀ v, v ∉ vs → ids e' v = ids e v.

(** Sample lines of a dictionary body. *)
Definition grammarLine : string := "  [p]n[/p]".
Definition translationLine : string := "  [trn]chat[/trn]".
Definition relationLine : string := "  [*]see also[/*]".

(** The tables of [e'] extend those of [e]: each still holds the rows it
    held, at the same positions, and the entries of its dedup index. *)
Definition extends (e e' : Env) : Prop :=
  ∀ x, rows (tables e x) `prefix_of` rows (tables e' x) ∧
       uniqueValues (tables e x) ⊆ uniqueValues (tables e' x).

(** Two characters of the class [\s] stand side by side in [s]. *)
Fixpoint spaceRun (s : text) : bool :=
  match s with
  | a :: s' =>
      match s' with
      | b :: _ => space a && space b || spaceRun s'
      | [] => false
      end
  | [] => false
  end.

(** The state after a headword and a grammar note: [gramTypeId] is 1. *)
Definition afterGrammarNote : Env := fst (scanLoop ["cat"; grammarLine] startEnv).

(** A headword, eleven grammar notes [a] to [k], which make [gramTypeId]
    11, the translation 1, the grammar note [a] again, which makes
    [gramTypeId] 1, and the translations 2 to 10.  The line
    [translationLine] after them is translation 11 under grammar type 1. *)
Definition elevenGrammarTypes : list string :=
  "cat" :: ((fun note => " [p]" +:+ note +:+ "[/p]")
              <$> ["a"; "b"; "c"; "d"; "e"; "f"; "g"; "h"; "i"; "j"; "k"])
        ++ [translationLine; " [p]a[/p]"] ++ replicate 9 translationLine.

(** The pattern of [extractIndex], and the number a text of decimal digits
    stands for. *)
Definition indexPattern : regex :=
  cat [BeginText; Star true space; chr "["; Star false dot; chr "]";
       Group 1 (Star true digit);
       Class (fun a => Ascii.eqb a ")" || Ascii.eqb a "|" || Ascii.eqb a ".")].

Definition decimal (digits : text) : Z :=
  foldl (fun acc a => (10 * acc + Z.of_nat (nat_of_ascii a - 48))%Z) 0%Z digits.

(** * Properties of the entity store *)

Section TableProperties.

Implicit Types (t : Table) (row : list value).

Lemma wrap64_range z : (- 2 ^ 63 <= wrap64 z < 2 ^ 63)%Z.
Proof. unfold wrap64. pose proof (Z.mod_pos_bound (z + 2 ^ 63) (2 ^ 64)). lia. Qed.

Lemma wrap64_succ_ne z : (- 2 ^ 63 <= z < 2 ^ 63)%Z → int64_add z 1 ≠ z.
Proof.
  intros Hz. unfold int64_add, wrap64.
  destruct (decide (z + 1 < 2 ^ 63)%Z).
  - rewrite Z.mod_small by lia. lia.
  - replace (z + 1 + 2 ^ 63)%Z with (0 + 1 * 2 ^ 64)%Z by lia.
    rewrite Z.mod_add by lia. rewrite Z.mod_0_l by lia. lia.
Qed.

Lemma concatUnique_in_range row indices acc :
  Forall (fun i => i < length row) indices →
  ∃ key, concatUnique row indices acc = Done key.
Proof.
  intros H. revert acc. induction H as [|i indices Hi _ IH]; intros acc; simpl.
  - eauto.
  - destruct (lookup_lt_is_Some_2 row i Hi) as [v ->]. apply IH.
Qed.

Lemma uniqueKey_defined t row :
  indicesInRange t → length row = length (columns t) →
  ∃ key, uniqueKey t row = Done key.
Proof.
  intros Hin Hlen. apply concatUnique_in_range.
  unfold indicesInRange in Hin. by rewrite Hlen.
Qed.

Lemma AddRow_mismatch t row :
  length row ≠ length (columns t) →
  AddRow row t =
    (t, Panicked (columnsMismatch (length row) (length (columns t)))).
Proof.
  intros H. unfold AddRow.
  destruct (Nat.eqb_spec (length row) (length (columns t))); [done|]. done.
Qed.

Lemma AddRow_plain t row :
  length row = length (columns t) → uniqueColIndices t = [] →
  AddRow row t =
    (appendRow (Sprint <$> row) (int64_add (counter t) 1) t,
     Done (int64_add (counter t) 1)).
Proof.
  intros Hlen Hu. unfold AddRow. rewrite Hlen, Nat.eqb_refl, Hu. done.
Qed.

Lemma uniqueKeyed_length t : uniqueKeyed t → (0 <? length (uniqueColIndices t)) = true.
Proof.
  unfold uniqueKeyed. destruct (uniqueColIndices t); [done|]. done.
Qed.

Lemma AddRow_known t row key id :
  length row = length (columns t) → uniqueKeyed t →
  uniqueKey t row = Done key → uniqueValues t !! key = Some id →
  AddRow row t = (t, Done id).
Proof.
  intros Hlen Hu Hk Hid. unfold AddRow.
  rewrite Hlen, Nat.eqb_refl, (uniqueKeyed_length _ Hu). simpl.
  unfold uniqueKey in Hk. rewrite Hk, Hid. done.
Qed.

Lemma AddRow_fresh t row key :
  length row = length (columns t) → uniqueKeyed t →
  uniqueKey t row = Done key → uniqueValues t !! key = None →
  AddRow row t =
    (appendRow (Sprint <$> row) (int64_add (counter t) 1)
       (recordUnique key (int64_add (counter t) 1) t),
     Done (int64_add (counter t) 1)).
Proof.
  intros Hlen Hu Hk Hid. unfold AddRow.
  rewrite Hlen, Nat.eqb_refl, (uniqueKeyed_length _ Hu). simpl.
  unfold uniqueKey in Hk. rewrite Hk, Hid. done.
Qed.

(** [AddRow] never touches the schema. *)
Lemma AddRow_schema t row t' o :
  AddRow row t = (t', o) →
  columns t' = columns t ∧ uniqueColIndices t' = uniqueColIndices t.
Proof.
  unfold AddRow. intros H.
  destruct (negb _); [by inversion H|].
  destruct (_ <? _).
  - destruct (concatUnique _ _ _); [|by inversion H].
    destruct (_ !! _); by inversion H.
  - by inversion H.
Qed.

(** With the right number of values and the key indices in range,
    [AddRow] returns. *)
Lemma AddRow_returns t row :
  indicesInRange t → length row = length (columns t) →
  ∃ t' id, AddRow row t = (t', Done id).
Proof.
  intros Hin Hlen.
  destruct (decide (uniqueColIndices t = [])) as [Hu|Hu].
  - rewrite AddRow_plain by done. eauto.
  - destruct (uniqueKey_defined t row Hin Hlen) as [key Hk].
    destruct (uniqueValues t !! key) as [id|] eqn:Hid.
    + erewrite AddRow_known by done. eauto.
    + erewrite AddRow_fresh by done. eauto.
Qed.

(** The two ways a unique-keyed [AddRow] returns. *)
Lemma AddRow_insertedUnder t row key t' id :
  length row = length (columns t) → uniqueKeyed t →
  uniqueKey t row = Done key →
  AddRow row t = (t', Done id) → insertedUnder key row t t' id.
Proof.
  intros Hlen Hu Hk Hadd. split; [done|].
  destruct (uniqueValues t !! key) as [known|] eqn:Hid.
  - rewrite (AddRow_known t row key known) in Hadd by done.
    by injection Hadd as <- <-.
  - rewrite (AddRow_fresh t row key) in Hadd by done.
    by injection Hadd as <- <-.
Qed.

End TableProperties.

Section Dedup.

Implicit Types (t : Table) (row : list value).

(** After a row was inserted, a row with the same composite key gets the
    identity of the first and the store stays as it is. *)
Lemma AddRow_same_key_again t row row' key :
  uniqueKeyed t →
  length row = length (columns t) → length row' = length (columns t) →
  uniqueKey t row = Done key → uniqueKey t row' = Done key →
  ∃ id t1,
    AddRow row t = (t1, Done id) ∧
    AddRow row' t1 = (t1, Done id) ∧
    length (rows t1) = length (rows t) + (if holdsKey t key then 0 else 1).
Proof.
  intros Hu Hlen Hlen' Hk Hk'. unfold holdsKey.
  destruct (uniqueValues t !! key) as [id|] eqn:Hid.
  - exists id, t. rewrite (AddRow_known t row key id) by done.
    rewrite (AddRow_known t row' key id) by done.
    rewrite bool_decide_eq_true_2 by eauto. split_and!; [done|done|lia].
  - eexists _, _. rewrite (AddRow_fresh t row key) by done.
    split; [reflexivity|]. split.
    + apply (AddRow_known _ row' key); try done.
      simpl. apply lookup_insert_eq.
    + rewrite bool_decide_eq_false_2 by (intros [? ?]; congruence).
      simpl. rewrite length_app. simpl. lia.
Qed.

End Dedup.

(** C6 (as amended).  In a unique-keyed store, for value tuples of the
    declared column count, inserting the same composite key twice returns
    the same identity both times and leaves the store unchanged the second
    time; across the two inserts the row count grows by exactly one when the
    store did not hold the key before, and not at all when it did. *)
Theorem AddRow_idempotent_dedup (t : Table) (row row' : list value) (key : string) :
  uniqueKeyed t →
  length row = length (columns t) → length row' = length (columns t) →
  uniqueKey t row = Done key → uniqueKey t row' = Done key →
  ∃ id t1 t2,
    AddRow row t = (t1, Done id) ∧
    AddRow row' t1 = (t2, Done id) ∧
    t2 = t1 ∧
    length (rows t2) = length (rows t) + (if holdsKey t key then 0 else 1).
Proof.
  intros Hu Hlen Hlen' Hk Hk'.
  destruct (AddRow_same_key_again t row row' key) as (id & t1 & H1 & H2 & H3);
    try done.
  exists id, t1, t1. done.
Qed.

Lemma AddRow_idempotent_dedup_witness :
  ∃ id t1 t2,
    AddRow [VString "English"] (tables startEnv languagesTable) = (t1, Done id) ∧
    AddRow [VString "English"] t1 = (t2, Done id) ∧
    t2 = t1 ∧
    length (rows t2) = length (rows (tables startEnv languagesTable)) + 1.
Proof.
  apply (AddRow_idempotent_dedup (tables startEnv languagesTable)
           [VString "English"] [VString "English"] "English").
  - unfold uniqueKeyed. vm_compute. discriminate.
  - reflexivity.
  - reflexivity.
  - reflexivity.
  - reflexivity.
Defined.

(** C6 as it is written fails on a store that already holds the key: two
    more inserts of [English] return the same identity and add no row. *)
Lemma AddRow_dedup_known_key_adds_no_row :
  uniqueKeyed languagesWithEnglish ∧
  ∃ t1 t2,
    AddRow [VString "English"] languagesWithEnglish = (t1, Done 1%Z) ∧
    AddRow [VString "English"] t1 = (t2, Done 1%Z) ∧
    length (rows t2) = length (rows languagesWithEnglish) ∧
    length (rows t2) ≠ length (rows languagesWithEnglish) + 1.
Proof.
  split.
  - unfold uniqueKeyed. vm_compute. discriminate.
  - exists languagesWithEnglish, languagesWithEnglish.
    split_and!; [reflexivity | reflexivity | reflexivity | vm_compute; lia].
Qed.

Section WordStore.

Implicit Types (t : Table) (row : list value).

Lemma wrap64_add_l a b : wrap64 (wrap64 a + b) = wrap64 (a + b).
Proof.
  unfold wrap64. f_equal.
  replace ((a + 2 ^ 63) `mod` 2 ^ 64 - 2 ^ 63 + b + 2 ^ 63)%Z
    with ((a + 2 ^ 63) `mod` 2 ^ 64 + b)%Z by lia.
  rewrite Zplus_mod_idemp_l. f_equal. lia.
Qed.

Lemma wrap64_eq_inv a d :
  (0 < d < 2 ^ 64)%Z → wrap64 (a + d) ≠ wrap64 a.
Proof.
  intros Hd Heq. unfold wrap64 in Heq.
  assert (H : ((a + d + 2 ^ 63) `mod` 2 ^ 64 = (a + 2 ^ 63) `mod` 2 ^ 64)%Z) by lia.
  clear Heq.
  replace (a + d + 2 ^ 63)%Z with ((a + 2 ^ 63) + d)%Z in H by lia.
  pose proof (Z.div_mod (a + 2 ^ 63 + d) (2 ^ 64) ltac:(lia)) as H1.
  pose proof (Z.div_mod (a + 2 ^ 63) (2 ^ 64) ltac:(lia)) as H2.
  rewrite H in H1.
  assert (d = 2 ^ 64 * ((a + 2 ^ 63 + d) `div` 2 ^ 64 - (a + 2 ^ 63) `div` 2 ^ 64))%Z by lia.
  nia.
Qed.

Lemma AddRow_words t row :
  wordsSchema t → length row = 3 →
  AddRow row t =
    (appendRow (Sprint <$> row) (int64_add (counter t) 1) t,
     Done (int64_add (counter t) 1)).
Proof. intros [Hc Hu] Hlen. apply AddRow_plain; [by rewrite Hc | done]. Qed.

Lemma AddRows_counter t rws :
  wordsSchema t → Forall (fun row => length row = 3) rws →
  wordsSchema (AddRows rws t) ∧
  wrap64 (counter (AddRows rws t)) = wrap64 (counter t + Z.of_nat (length rws)) ∧
  rows (AddRows rws t) = rows t ++ (printRow <$> rws).
Proof.
  intros Ht Hrws. revert t Ht. induction Hrws as [|row rws Hrow _ IH]; intros t Ht.
  - simpl. by rewrite Z.add_0_r, app_nil_r.
  - cbn [AddRows]. rewrite AddRow_words by done. cbn [fst].
    destruct (IH (appendRow (Sprint <$> row) (int64_add (counter t) 1) t))
      as (Hs & Hc & Hr); [done|].
    split; [done|]. split.
    + rewrite Hc. cbn [counter appendRow]. unfold int64_add.
      rewrite wrap64_add_l. f_equal. cbn [length]. lia.
    + rewrite Hr. cbn [rows appendRow fmap list_fmap]. by rewrite <- app_assoc.
Qed.

End WordStore.

(** C7.  In the Word store two inserts of the same (text, dictionary id,
    language id), one after the other or with any inserts in between,
    return two distinct identities, and each of the two adds a row holding
    these values: the store gains two rows for them. *)
Theorem words_not_deduplicated (t : Table) (word : string) (dic lang : Z)
    (between : list (list value)) :
  wordsSchema t →
  Forall (fun row => length row = 3) between →
  (Z.of_nat (length between) + 1 < 2 ^ 64)%Z →
  let row := [VString word; VInt64 dic; VInt64 lang] in
  ∃ t1 t3 id1 id2,
    AddRow row t = (t1, Done id1) ∧
    AddRow row (AddRows between t1) = (t3, Done id2) ∧
    id1 ≠ id2 ∧
    rows t3 = rows t ++ [printRow row] ++ (printRow <$> between) ++ [printRow row] ∧
    length (rows t3) = length (rows t) + length between + 2.
Proof.
  intros Ht Hb Hlen row.
  set (t1 := appendRow (Sprint <$> row) (int64_add (counter t) 1) t).
  destruct (AddRows_counter t1 between) as (Hs & Hc & Hr); [done | done |].
  exists t1, (appendRow (Sprint <$> row)
                (int64_add (counter (AddRows between t1)) 1) (AddRows between t1)),
    (int64_add (counter t) 1), (int64_add (counter (AddRows between t1)) 1).
  assert (Hrows : rows (appendRow (Sprint <$> row)
                    (int64_add (counter (AddRows between t1)) 1) (AddRows between t1))
                  = rows t ++ [printRow row] ++ (printRow <$> between) ++ [printRow row]).
  { cbn [rows appendRow]. rewrite Hr. subst t1. cbn [rows appendRow].
    by rewrite <- !app_assoc. }
  split_and!.
  - by apply AddRow_words.
  - by apply AddRow_words.
  - unfold int64_add at 2. rewrite <- wrap64_add_l, Hc, wrap64_add_l.
    subst t1. cbn [counter appendRow]. unfold int64_add.
    rewrite <- Z.add_assoc, wrap64_add_l.
    intros Heq. symmetry in Heq. revert Heq. apply wrap64_eq_inv. lia.
  - exact Hrows.
  - rewrite Hrows. rewrite !length_app, length_fmap. simpl. lia.
Qed.

Lemma words_not_deduplicated_witness :
  ∃ t1 t3 id1 id2,
    AddRow [VString "cat"; VInt64 1; VInt64 1] (tables startEnv wordsTable)
      = (t1, Done id1) ∧
    AddRow [VString "cat"; VInt64 1; VInt64 1]
      (AddRows [[VString "chat"; VInt64 1; VInt64 2]] t1) = (t3, Done id2) ∧
    id1 ≠ id2 ∧
    rows t3 = rows (tables startEnv wordsTable)
              ++ [["cat"; "1"; "1"]] ++ [["chat"; "1"; "2"]] ++ [["cat"; "1"; "1"]] ∧
    length (rows t3) = length (rows (tables startEnv wordsTable)) + 1 + 2.
Proof.
  apply (words_not_deduplicated (tables startEnv wordsTable) "cat" 1 1
           [[VString "chat"; VInt64 1; VInt64 2]]).
  - split; reflexivity.
  - repeat constructor.
  - reflexivity.
Defined.

(** Two inserts in a row. *)
Example words_twice_evaluated :
  let row := [VString "cat"; VInt64 1; VInt64 1] in
  let r1 := AddRow row (tables startEnv wordsTable) in
  let r2 := AddRow row (fst r1) in
  snd r1 = Done 1%Z ∧ snd r2 = Done 2%Z ∧
  rows (fst r2) = [["cat"; "1"; "1"]; ["cat"; "1"; "1"]].
Proof. split_and!; reflexivity. Qed.

(** C8.  An insert whose number of values differs from the declared column
    count panics with the configuration error and leaves the store exactly
    as it was: no row is added, none truncated or padded. *)
Theorem AddRow_schema_mismatch (t : Table) (row : list value) :
  length row ≠ length (columns t) →
  AddRow row t =
    (t, Panicked (columnsMismatch (length row) (length (columns t)))).
Proof. apply AddRow_mismatch. Qed.

Lemma AddRow_schema_mismatch_witness :
  AddRow [VString "cat"] (tables startEnv wordsTable) =
    (tables startEnv wordsTable,
     Panicked "Columns count 1 in a row does not correspond to the table columns count 3").
Proof.
  apply (AddRow_schema_mismatch (tables startEnv wordsTable) [VString "cat"]).
  vm_compute. lia.
Defined.

(** C10.  In the Translation store the dedup key of (a, b) is the decimal
    text of [a] followed at once by that of [b]; whenever two pairs give the
    same concatenation, inserting the second after the first returns the
    first pair's identity and adds no row.  (1, 23) and (12, 3) are such
    pairs: see the witness. *)
Theorem translations_key_has_no_separator (t : Table) (a b c d : Z) :
  translationsSchema t →
  pretty a +:+ pretty b = pretty c +:+ pretty d →
  uniqueKey t [VInt64 a; VInt64 b] = Done (pretty a +:+ pretty b) ∧
  uniqueKey t [VInt64 c; VInt64 d] = Done (pretty a +:+ pretty b) ∧
  ∃ id t1 t2,
    AddRow [VInt64 a; VInt64 b] t = (t1, Done id) ∧
    AddRow [VInt64 c; VInt64 d] t1 = (t2, Done id) ∧
    t2 = t1.
Proof.
  intros [Hc Hu] Hkey.
  assert (Hk1 : uniqueKey t [VInt64 a; VInt64 b] = Done (pretty a +:+ pretty b)).
  { unfold uniqueKey. rewrite Hu. reflexivity. }
  assert (Hk2 : uniqueKey t [VInt64 c; VInt64 d] = Done (pretty a +:+ pretty b)).
  { unfold uniqueKey. rewrite Hu. simpl. by rewrite Hkey. }
  split_and!; [done|done|].
  destruct (AddRow_same_key_again t [VInt64 a; VInt64 b] [VInt64 c; VInt64 d]
              (pretty a +:+ pretty b)) as (id & t1 & H1 & H2 & _);
    try done; try (by rewrite Hc).
  - unfold uniqueKeyed. by rewrite Hu.
  - exists id, t1, t1. done.
Qed.

Lemma translations_key_has_no_separator_witness :
  (1%Z, 23%Z) ≠ (12%Z, 3%Z) ∧
  uniqueKey (tables startEnv translationsTable) [VInt64 1; VInt64 23] = Done "123" ∧
  uniqueKey (tables startEnv translationsTable) [VInt64 12; VInt64 3] = Done "123" ∧
  ∃ id t1 t2,
    AddRow [VInt64 1; VInt64 23] (tables startEnv translationsTable) = (t1, Done id) ∧
    AddRow [VInt64 12; VInt64 3] t1 = (t2, Done id) ∧
    t2 = t1.
Proof.
  split; [discriminate|].
  apply (translations_key_has_no_separator
           (tables startEnv translationsTable) 1 23 12 3).
  - split; reflexivity.
  - reflexivity.
Defined.

(** The same collision evaluated: the second pair gets identity 1 and the
    store keeps its single row. *)
Example translations_collision_evaluated :
  let t1 := fst (AddRow [VInt64 1; VInt64 23] (tables startEnv translationsTable)) in
  AddRow [VInt64 12; VInt64 3] t1 = (t1, Done 1%Z) ∧
  rows t1 = [["1"; "23"]].
Proof. split; reflexivity. Qed.

(** * The tag extractors *)

Section Occurrences.

Implicit Types (w s b r : text).

Lemma startsWith_app w r : startsWith w (w ++ r) = true.
Proof.
  induction w as [|a w IH]; simpl; [done|].
  by rewrite Ascii.eqb_refl, IH.
Qed.







End Occurrences.

Section Matching.

Implicit Types (w s : text) (k : cont) (c : cursor).

(** A literal word matches where the text starts with it. *)
Lemma rmatch_word w k c :
  rmatch (cat (chr <$> w)) k c =
    if startsWith w (rest c)
    then k (mkCursor (pos c + length w) (drop (length w) (rest c)) (caps c))
    else None.
Proof.
  revert c. induction w as [|a w IH]; intros [n s cs]; simpl.
  - by rewrite Nat.add_0_r.
  - destruct s as [|x s]; [done|]. simpl.
    destruct (Ascii.eqb a x); [|done]. simpl.
    rewrite IH. simpl. by rewrite Nat.add_succ_r.
Qed.

Lemma rmatch_lit (word : string) k c :
  rmatch (lit word) k c =
    if startsWith (toText word) (rest c)
    then k (mkCursor (pos c + length (toText word))
              (drop (length (toText word)) (rest c)) (caps c))
    else None.
Proof. apply rmatch_word. Qed.

(** A greedy [.*] in a text without newline hands over at the last place
    where what follows it matches. *)
Lemma star_greedy_last w (F : cursor → cursor) k n cs s :
  (∀ c, k c = if startsWith w (rest c) then Some (F c) else None) →
  Forall (fun a => dot a = true) s →
  star_greedy dot k n cs s =
    match splitLast w s with
    | Some (mid, _) =>
        Some (F (mkCursor (n + length mid) (drop (length mid) s) cs))
    | None => None
    end.
Proof.
  intros Hk Hs. revert n. induction Hs as [|a s Ha _ IH]; intros n.
  - simpl. rewrite Hk. simpl. destruct (startsWith w []); [|done].
    by rewrite Nat.add_0_r.
  - cbn [star_greedy splitLast]. rewrite Ha, IH.
    destruct (splitLast w s) as [[b r]|].
    + simpl. by rewrite Nat.add_succ_r.
    + simpl. rewrite Hk. simpl. destruct (startsWith w (a :: s)); [|done].
      by rewrite Nat.add_0_r.
Qed.



End Matching.

(** ** Matching does not depend on the offset *)

Section Shift.
Implicit Types (r : regex) (k : cont) (c : cursor) (s : text).

Lemma star_greedy_ext p k k' n cs s :
  (∀ c, k c = k' c) → star_greedy p k n cs s = star_greedy p k' n cs s.
Proof.
  intros Hk. revert n. induction s as [|a s IH]; intros n; simpl.
  - apply Hk.
  - destruct (p a); [|apply Hk]. by rewrite IH, Hk.
Qed.

Lemma star_lazy_ext p k k' n cs s :
  (∀ c, k c = k' c) → star_lazy p k n cs s = star_lazy p k' n cs s.
Proof.
  intros Hk. revert n. induction s as [|a s IH]; intros n; simpl.
  - by rewrite Hk.
  - rewrite Hk. destruct (k' _); [done|]. destruct (p a); [|done]. apply IH.
Qed.

Lemma rmatch_ext r k k' c :
  (∀ c, k c = k' c) → rmatch r k c = rmatch r k' c.
Proof.
  revert k k' c. induction r as [|p|r1 IH1 r2 IH2|g p|r1 IH1|i r1 IH1|];
    intros k k' c Hk; simpl.
  - apply Hk.
  - destruct (rest c) as [|a s]; [done|]. destruct (p a); [|done]. apply Hk.
  - apply IH1. intros c'. by apply IH2.
  - destruct g; [by apply star_greedy_ext | by apply star_lazy_ext].
  - by rewrite (IH1 k k'), Hk.
  - apply IH1. intros c'. apply Hk.
  - destruct (_ =? _); [apply Hk | done].
Qed.

Lemma star_greedy_shift p k d n cs s :
  star_greedy p k (n + d) cs s = star_greedy p (fun c => k (shift d c)) n cs s.
Proof.
  revert n. induction s as [|a s IH]; intros n; simpl; [done|].
  destruct (p a); [|done]. by rewrite <- IH.
Qed.

Lemma star_lazy_shift p k d n cs s :
  star_lazy p k (n + d) cs s = star_lazy p (fun c => k (shift d c)) n cs s.
Proof.
  revert n. induction s as [|a s IH]; intros n; simpl; [done|].
  unfold shift at 1. simpl. destruct (k _); [done|].
  destruct (p a); [|done]. by rewrite <- IH.
Qed.

Lemma rmatch_shift r d k c :
  noBegin r = true →
  rmatch r k (shift d c) = rmatch r (fun c' => k (shift d c')) c.
Proof.
  revert k c. induction r as [|p|r1 IH1 r2 IH2|g p|r1 IH1|i r1 IH1|];
    intros k c Hr; simpl in *.
  - done.
  - destruct (rest c) as [|a s]; [done|]. by destruct (p a).
  - apply andb_true_iff in Hr as [H1 H2]. rewrite IH1 by done.
    apply rmatch_ext. intros c'. by apply IH2.
  - destruct g; [apply star_greedy_shift | apply star_lazy_shift].
  - by rewrite IH1.
  - rewrite IH1 by done. apply rmatch_ext. intros c'. unfold shift. simpl.
    do 5 f_equal. lia.
  - done.
Qed.

Lemma star_greedy_fmap (g : cursor → cursor) p k n cs s :
  star_greedy p (fun c => g <$> k c) n cs s = g <$> star_greedy p k n cs s.
Proof.
  revert n. induction s as [|a s IH]; intros n; simpl; [done|].
  destruct (p a); [|done]. rewrite IH. by destruct (star_greedy p k (S n) cs s).
Qed.

Lemma star_lazy_fmap (g : cursor → cursor) p k n cs s :
  star_lazy p (fun c => g <$> k c) n cs s = g <$> star_lazy p k n cs s.
Proof.
  revert n. induction s as [|a s IH]; intros n; simpl.
  - by destruct (k _).
  - destruct (k _); [done|]. simpl. destruct (p a); [|done]. apply IH.
Qed.

Lemma rmatch_fmap (g : cursor → cursor) r k c :
  rmatch r (fun c' => g <$> k c') c = g <$> rmatch r k c.
Proof.
  revert k c. induction r as [|p|r1 IH1 r2 IH2|gr p|r1 IH1|i r1 IH1|];
    intros k c; simpl.
  - done.
  - destruct (rest c) as [|a s]; [done|]. by destruct (p a).
  - rewrite <- IH1. apply rmatch_ext. intros c'. apply IH2.
  - destruct gr; [apply star_greedy_fmap | apply star_lazy_fmap].
  - rewrite IH1. by destruct (rmatch r1 k c).
  - apply (IH1 (fun c' => k (mkCursor (pos c') (rest c')
                    ((i, take (pos c' - pos c) (rest c)) :: caps c')))).
  - by destruct (_ =? _).
Qed.

Lemma search_shift r d n s :
  noBegin r = true →
  search r (n + d) s =
    (fun f => mkFound (skipped f) (matched f) (shift d (stop f))) <$> search r n s.
Proof.
  intros Hr. revert n. induction s as [|a s IH]; intros n.
  - cbn [search].
    change (mkCursor (n + d) [] []) with (shift d (mkCursor n [] [])).
    rewrite rmatch_shift by done.
    rewrite (rmatch_fmap (shift d) r Some).
    destruct (rmatch r Some _) as [c|]; simpl; [|done].
    do 3 f_equal. lia.
  - cbn [search].
    change (mkCursor (n + d) (a :: s) []) with (shift d (mkCursor n (a :: s) [])).
    rewrite rmatch_shift by done.
    rewrite (rmatch_fmap (shift d) r Some).
    destruct (rmatch r Some _) as [c|]; simpl.
    + do 3 f_equal. lia.
    + change (S (n + d)) with (S n + d). rewrite (IH (S n)).
      by destruct (search r (S n) s).
Qed.

Lemma rmatch_lead r p k c :
  leadClass r = Some p →
  match rest c with a :: _ => p a = false | [] => True end →
  rmatch r k c = None.
Proof.
  revert k c. induction r as [|q|r1 IH1 r2 IH2|g q|r1 IH1|i r1 IH1|];
    intros k c Hl Hc; simpl in *; try done.
  - injection Hl as ->. destruct (rest c) as [|a s]; [done|]. by rewrite Hc.
  - by apply IH1.
  - by apply IH1.
Qed.

Lemma search_skip r p ws s n :
  leadClass r = Some p → noBegin r = true →
  Forall (fun a => p a = false) ws →
  search r n (ws ++ s) =
    (fun f => mkFound (ws ++ skipped f) (matched f) (shift (n + length ws) (stop f)))
      <$> search r 0 s.
Proof.
  intros Hl Hb Hws. revert n. induction Hws as [|a ws Ha _ IH]; intros n.
  - simpl. rewrite Nat.add_0_r. apply (search_shift r n 0 s Hb).
  - cbn [app search]. rewrite (rmatch_lead r p) by done.
    rewrite IH. destruct (search r 0 s) as [f|]; simpl; [|done].
    do 2 f_equal. unfold shift. f_equal. lia.
Qed.

End Shift.

Section ExtractTranslation.

Implicit Types (line : string).



End ExtractTranslation.

(** ** Indentation does not matter to the extractors *)

Section Indentation.
Implicit Types (ws body line : string) (s : text).

Lemma toText_app ws body : toText (ws +:+ body) = toText ws ++ toText body.
Proof. induction ws as [|a ws IH]; simpl; [done|]. by rewrite <- IH. Qed.

Lemma space_cases a :
  space a = true →
  a = "009"%char ∨ a = "010"%char ∨ a = "012"%char ∨ a = "013"%char ∨ a = " "%char.
Proof.
  unfold space. rewrite !orb_true_iff, !Ascii.eqb_eq.
  intros [[[[<-|<-]|<-]|<-]|<-]; auto.
Qed.

Lemma space_not_class (p : ascii → bool) s :
  p "009"%char = false → p "010"%char = false → p "012"%char = false →
  p "013"%char = false → p " "%char = false →
  Forall (fun a => space a = true) s → Forall (fun a => p a = false) s.
Proof.
  intros H1 H2 H3 H4 H5 Hs. eapply Forall_impl; [exact Hs|]. intros a Ha.
  destruct (space_cases a Ha) as [->|[->|[->|[->| ->]]]]; done.
Qed.

Lemma FindStringSubmatch_indent re p ws body :
  leadClass re = Some p → noBegin re = true →
  Forall (fun a => p a = false) (toText ws) →
  FindStringSubmatch re (ws +:+ body) = FindStringSubmatch re body.
Proof.
  intros Hl Hb Hws. unfold FindStringSubmatch.
  rewrite toText_app, (search_skip re p) by done.
  by destruct (search re 0 (toText body)).
Qed.

Lemma extractNote_indent ws body :
  indentation ws → extractNote (ws +:+ body) = extractNote body.
Proof.
  intros [_ Hws]. unfold extractNote.
  erewrite FindStringSubmatch_indent; [done | reflexivity | reflexivity |].
  by apply space_not_class.
Qed.

Lemma extractTranslation_indent ws body :
  indentation ws → extractTranslation (ws +:+ body) = extractTranslation body.
Proof.
  intros [_ Hws]. unfold extractTranslation.
  erewrite FindStringSubmatch_indent; [done | reflexivity | reflexivity |].
  by apply space_not_class.
Qed.

Lemma scanTitle_indent prefix p ws body :
  leadClass (lit prefix) = Some p →
  Forall (fun a => p a = false) (toText ws) →
  scanTitle prefix (ws +:+ body) = scanTitle prefix body.
Proof.
  intros Hl Hws. unfold scanTitle.
  erewrite FindStringSubmatch_indent; [done | | | done].
  - simpl. exact Hl.
  - simpl. rewrite andb_true_r.
    unfold lit. induction (toText prefix) as [|a w IH]; [done|]. exact IH.
Qed.

Lemma search_begin_later r n s : search (Cat BeginText r) (S n) s = None.
Proof.
  revert n. induction s as [|a s IH]; intros n; [done|].
  cbn [search rmatch pos]. simpl. apply (f_equal (fun o => match o with Some f => _ | None => None end)) with (x := search (Cat BeginText r) (S (S n)) s) (y := None).
  apply IH.
Qed.

Lemma scanWordArticleTitle_indent ws body :
  indentation ws → scanWordArticleTitle (ws +:+ body) = "".
Proof.
  intros [Hne Hws]. unfold scanWordArticleTitle, FindString.
  rewrite toText_app. destruct ws as [|a ws]; [done|].
  simpl in Hws. inversion Hws as [|? ? Ha _]; subst.
  cbn [toText list_ascii_of_string app search cat foldr rmatch pos rest].
  simpl Nat.eqb. cbn iota. rewrite Ha. cbn [orb negb].
  by rewrite search_begin_later.
Qed.

Lemma star_greedy_total p k n cs s :
  (∀ c, is_Some (k c)) → is_Some (star_greedy p k n cs s).
Proof.
  intros Hk. revert n. induction s as [|a s IH]; intros n; simpl; [apply Hk|].
  destruct (p a); [|apply Hk].
  destruct (IH (S n)) as [c ->]. simpl. eauto.
Qed.

Lemma containsText_app w s1 s2 :
  containsText w s2 = true → containsText w (s1 ++ s2) = true.
Proof.
  intros H. induction s1 as [|a s1 IH]; [done|].
  simpl. rewrite IH. apply orb_true_r.
Qed.

Lemma validateBodyLine_indent ws body :
  indentation ws →
  existsb (Contains body) ["[p]"; "[trn]"; "[*]"] = true →
  validateBodyLine (ws +:+ body) = None.
Proof.
  intros [Hne Hws] Htags. unfold validateBodyLine.
  assert (Hm : MatchString (cat [BeginText; Class space; Star true space])
                 (ws +:+ body) = true).
  { unfold MatchString. rewrite toText_app. destruct ws as [|a ws]; [done|].
    simpl in Hws. inversion Hws as [|? ? Ha _]; subst.
    cbn [toText list_ascii_of_string app search cat foldr rmatch pos rest caps].
    simpl Nat.eqb. cbn iota. rewrite Ha.
    match goal with
    | |- context [star_greedy ?p ?k ?n ?cs ?s] =>
        destruct (star_greedy_total p k n cs s) as [c ->];
          [intros c; simpl; eauto | done]
    end. }
  rewrite Hm. cbn [negb].
  assert (Ht : existsb (Contains (ws +:+ body)) ["[p]"; "[trn]"; "[*]"] = true).
  { apply existsb_exists in Htags as (tag & Hin & Htag).
    apply existsb_exists. exists tag. split; [done|].
    unfold Contains in *. rewrite toText_app. by apply containsText_app. }
  by rewrite Ht.
Qed.

Lemma space_space1 a : space a = true → space1 a = true.
Proof. intros Ha. destruct (space_cases a Ha) as [->|[->|[->|[->| ->]]]]; done. Qed.

Lemma trimFront_indent s1 s2 :
  Forall (fun a => space a = true) s1 →
  trimFront false (s1 ++ s2) = trimFront false s2.
Proof.
  induction 1 as [|a s1 Ha _ IH]; [done|].
  cbn [app trimFront]. by rewrite (space_space1 a Ha).
Qed.

Lemma TrimSpace_indent ws body :
  indentation ws → TrimSpace (ws +:+ body) = TrimSpace body.
Proof.
  intros [_ Hws]. unfold TrimSpace. by rewrite toText_app, trimFront_indent.
Qed.

End Indentation.




(** [cleanupLine] strips the tags, replaces runs of two or more white-space
    characters by one space and trims the ends; a single tab stays. *)
Example cleanupLine_evaluated :
  cleanupLine "  a [i]b[/i]   c " = "a b c" ∧
  cleanupLine (String "a" (String "009" "b")) = String "a" (String "009" "b").
Proof. split; reflexivity. Qed.

(** * Properties of the parse loop *)

Section LoopRules.

Implicit Types (e : Env) (x : TableVar) (line : string).

Lemma assign_eq {K V} `{EqDecision K} (k : K) (v : V) f : assign k v f k = v.
Proof. unfold assign. by rewrite decide_True. Qed.

Lemma assign_ne {K V} `{EqDecision K} (k k' : K) (v : V) f :
  k ≠ k' → assign k v f k' = f k'.
Proof. intros. unfold assign. by rewrite decide_False. Qed.

Lemma declared_start : declared startEnv.
Proof. by intros x. Qed.

Lemma declared_indices e x : declared e → indicesInRange (tables e x).
Proof.
  intros H. destruct (H x) as [Hc Hu]. unfold indicesInRange.
  rewrite Hc, Hu. destruct x; vm_compute; repeat constructor.
Qed.

Lemma declared_setTable e x t' :
  declared e →
  columns t' = columns (tables e x) →
  uniqueColIndices t' = uniqueColIndices (tables e x) →
  declared (setTable x t' e).
Proof.
  intros H Hc Hu y. simpl. unfold assign. case_decide; subst; [|apply H].
  rewrite Hc, Hu. apply H.
Qed.

Lemma post_bind {A B} (m : M Env A) (f : A → M Env B) e Q E :
  post (fun a e' => post Q E (f a e')) E (m e) → post Q E (bind m f e).
Proof. unfold bind. destruct (m e) as [e' [a|msg]]; simpl; auto. Qed.

Lemma post_weaken {A} (Q Q' : A → Env → Prop) (E E' : string → Prop) r :
  (∀ a e', Q a e' → Q' a e') → (∀ msg, E msg → E' msg) →
  post Q E r → post Q' E' r.
Proof. destruct r as [e' [a|msg]]; simpl; auto. Qed.

(** In a declared state an insert with the declared number of values
    returns, and what follows runs in the state with the updated table. *)
Lemma post_addRow {B} x row (f : Z → M Env B) e Q E :
  declared e →
  length row = length (columns (tables startEnv x)) →
  (∀ t' id, AddRow row (tables e x) = (t', Done id) →
            declared (setTable x t' e) →
            post Q E (f id (setTable x t' e))) →
  post Q E (bind (addRow x row) f e).
Proof.
  intros Hd Hlen Hk.
  destruct (AddRow_returns (tables e x) row) as (t' & id & Hadd).
  - by apply declared_indices.
  - destruct (Hd x) as [-> _]. done.
  - unfold bind, addRow, onTable. rewrite Hadd.
    apply Hk; [done|].
    destruct (AddRow_schema _ _ _ _ Hadd). by apply declared_setTable.
Qed.

Lemma unsetAndScanTitle_skipped v prefix line e :
  headerSkipped v prefix line e →
  unsetAndScanTitle v prefix line e = (e, Done false).
Proof.
  unfold unsetAndScanTitle. intros [Hn | Hs].
  - destruct (String.eqb_spec (names e v) ""); done.
  - rewrite Hs. by destruct (String.eqb _ _).
Qed.

Lemma reachesTitleTest_step line e :
  reachesTitleTest line e →
  processLine line e =
    (if negb (String.eqb (scanWordArticleTitle line) "")
     then storeHeadword (scanWordArticleTitle line) e
     else processBody line e).
Proof.
  intros (Hb & H1 & H2 & H3). unfold processLine.
  destruct (String.eqb_spec (TrimSpace line) ""); [done|].
  unfold bind at 1. rewrite (unsetAndScanTitle_skipped _ _ _ _ H1).
  unfold bind at 1. rewrite (unsetAndScanTitle_skipped _ _ _ _ H2).
  unfold bind at 1. rewrite (unsetAndScanTitle_skipped _ _ _ _ H3).
  by destruct (negb _).
Qed.

Lemma processLine_headword line e :
  isHeadwordLine line e →
  processLine line e = storeHeadword (scanWordArticleTitle line) e.
Proof.
  intros [Hr Hw]. rewrite reachesTitleTest_step by done.
  destruct (String.eqb_spec (scanWordArticleTitle line) ""); done.
Qed.

Lemma processLine_body line e :
  isBodyLine line e → processLine line e = processBody line e.
Proof.
  intros [Hr Hw]. rewrite reachesTitleTest_step by done. by rewrite Hw.
Qed.

Lemma run_finish lines : run lines = finish (scanLoop lines startEnv).
Proof.
  unfold run, main. unfold bind at 1.
  change (declareTables zeroEnv) with (startEnv, Done tt).
  unfold bind, finish. destruct (scanLoop lines startEnv) as [e [[]|msg]]; done.
Qed.

Lemma scanLoop_app lines lines' e :
  scanLoop (lines ++ lines') e =
    bind (scanLoop lines) (fun _ => scanLoop lines') e.
Proof.
  revert e. induction lines as [|line lines IH]; intros e; simpl.
  - done.
  - unfold bind. destruct (processLine line e) as [e1 [[]|msg]]; [|done].
    rewrite IH. done.
Qed.

Lemma scanLoop_headword line lines e :
  isHeadwordLine line e →
  scanLoop (line :: lines) e =
    bind (storeHeadword (scanWordArticleTitle line)) (fun _ => scanLoop lines) e.
Proof.
  intros Hw. cbn [scanLoop]. unfold bind. by rewrite processLine_headword.
Qed.

Lemma post_readId {B} v (f : Z → M Env B) e Q E :
  post Q E (f (ids e v) e) → post Q E (bind (readId v) f e).
Proof. done. Qed.

Lemma post_readName {B} v (f : string → M Env B) e Q E :
  post Q E (f (names e v) e) → post Q E (bind (readName v) f e).
Proof. done. Qed.

Lemma post_modify {B} g (f : unit → M Env B) e Q E :
  post Q E (f tt (g e)) → post Q E (bind (modify g) f e).
Proof. done. Qed.

End LoopRules.

(** One step of a branch of the loop body. *)
Ltac loop_step :=
  lazymatch goal with
  | |- post _ _ (bind (readId _) _ _) => apply post_readId
  | |- post _ _ (bind (readName _) _ _) => apply post_readName
  | |- post _ _ (bind (modify _) _ _) => apply post_modify
  | |- post _ _ (bind (addRow _ _) _ _) =>
      apply post_addRow; [assumption | reflexivity | intros ? ? ? ?]
  end.

Section LoopInvariant.

Implicit Types (e : Env) (x : TableVar) (line : string).

Lemma storeHeader_sound v x idVar e E :
  declared e → length (columns (tables startEnv x)) = 1 →
  post (fun _ e' => declared e') E (storeHeader v x idVar e).
Proof.
  intros Hd Hx. unfold storeHeader. loop_step.
  apply post_addRow; [done | by rewrite Hx | intros t' id _ Hd'].
  exact Hd'.
Qed.

Lemma storeHeadword_sound title e E :
  declared e → post (fun _ e' => declared e') E (storeHeadword title e).
Proof.
  intros Hd. unfold storeHeadword. repeat loop_step. assumption.
Qed.

Lemma linkGrammarType_sound (gramType trId : Z) e E :
  declared e →
  post (fun _ e' => declared e') E
    ((if (0 <? gramType)%Z
      then bind (addRow gramTypeTranslationTable [VInt64 gramType; VInt64 trId])
             (fun _ => ret tt)
      else ret tt) e).
Proof.
  intros Hd. destruct (_ <? _)%Z.
  - loop_step. assumption.
  - assumption.
Qed.

Lemma storeTranslation_sound note translation e E :
  declared e →
  post (fun _ e' => declared e') E (storeTranslation note translation e).
Proof.
  intros Hd. unfold storeTranslation. repeat loop_step.
  apply post_bind. destruct (negb _).
  - repeat loop_step. simpl. loop_step. by apply linkGrammarType_sound.
  - simpl. loop_step. by apply linkGrammarType_sound.
Qed.

Lemma processBody_sound line e :
  declared e →
  post (fun _ e' => declared e') (fun msg => validateBodyLine line = Some msg)
    (processBody line e).
Proof.
  intros Hd. unfold processBody.
  destruct (validateBodyLine line) as [msg|] eqn:Hv; [done|].
  apply post_bind. simpl.
  destruct (negb _ && _).
  - loop_step. assumption.
  - destruct (negb _).
    + by apply storeTranslation_sound.
    + assumption.
Qed.

Lemma post_unsetAndScanTitle {B} v prefix line (f : bool → M Env B) e Q E :
  declared e →
  (∀ title, declared (setName v title e) →
            post Q E (f true (setName v title e))) →
  post Q E (f false e) →
  post Q E (bind (unsetAndScanTitle v prefix line) f e).
Proof.
  intros Hd Ht Hf. unfold bind, unsetAndScanTitle.
  destruct (String.eqb _ _); [|done].
  destruct (scanTitle prefix line); [|done].
  by apply Ht.
Qed.

(** The loop body keeps the declared schemas, and when it panics it is with
    the error [validateBodyLine] returned for the line. *)
Lemma processLine_sound line e :
  declared e →
  post (fun _ e' => declared e') (fun msg => validateBodyLine line = Some msg)
    (processLine line e).
Proof.
  intros Hd. unfold processLine.
  destruct (String.eqb _ _); [assumption|].
  apply post_unsetAndScanTitle; [done | intros; by apply storeHeader_sound |].
  apply post_unsetAndScanTitle; [done | intros; by apply storeHeader_sound |].
  apply post_unsetAndScanTitle; [done | intros; by apply storeHeader_sound |].
  destruct (negb _).
  - by apply storeHeadword_sound.
  - by apply processBody_sound.
Qed.

Lemma scanLoop_sound lines e :
  declared e →
  post (fun _ e' => declared e')
    (fun msg => ∃ line, line ∈ lines ∧ validateBodyLine line = Some msg)
    (scanLoop lines e).
Proof.
  revert e. induction lines as [|line lines IH]; intros e Hd; simpl.
  - assumption.
  - apply post_bind.
    generalize (processLine_sound line e Hd).
    apply post_weaken.
    + intros [] e' Hd'. generalize (IH e' Hd'). apply post_weaken; [done|].
      intros msg (l & Hl & Hmsg). exists l. split; [by right | done].
    + intros msg Hmsg. exists line. split; [by left | done].
Qed.

End LoopInvariant.

(** * The end-to-end example *)

(** C1 as it is written fails: the note [n] shares its line with the
    translation, so the loop stores it as a translation attribute and the
    two grammar-type stores stay empty. *)
Lemma endToEnd_not_as_specified : ¬ endToEndAsSpecified (run endToEndInput).
Proof.
  intros (_ & _ & _ & _ & Hgram & _). vm_compute in Hgram. discriminate.
Qed.

(** C1 (as amended).  On the five-line input the run completes and hands
    the seven printed tables over; the stores hold Dictionary 1:TestDict,
    Language 1:English 2:French, Word 1:(cat,1,1) 2:(chat,1,2),
    Translation 1:(1,2), TranslationAttribute 1:n and AttributeTranslation
    1:(1,1); GrammarType and GrammarTypeTranslation are empty. *)
Theorem endToEnd_run :
  let e := fst (run endToEndInput) in
  snd (run endToEndInput) = Done (tables e <$> printed) ∧
  idRows (tables e dictionariesTable) = [["1"; "TestDict"]] ∧
  idRows (tables e languagesTable) = [["1"; "English"]; ["2"; "French"]] ∧
  idRows (tables e wordsTable) = [["1"; "cat"; "1"; "1"]; ["2"; "chat"; "1"; "2"]] ∧
  idRows (tables e translationsTable) = [["1"; "1"; "2"]] ∧
  idRows (tables e translationAttributesTable) = [["1"; "n"]] ∧
  idRows (tables e translationAttributesToTranslationsTable) = [["1"; "1"; "1"]] ∧
  idRows (tables e gramTypeTable) = [] ∧
  idRows (tables e gramTypeTranslationTable) = [].
Proof. vm_compute. repeat split. Qed.

(** * Grammar persistence *)

(** C2 as it is written fails for the headword [cat] and one space of
    indentation: no Translation row is linked to a grammar type, both
    grammar-type stores are empty. *)
Lemma grammar_on_translation_line_not_linked :
  let e := fst (run (grammarOnTranslationLine "cat" " " " ")) in
  idRows (tables e translationsTable) = [["1"; "1"; "2"]; ["2"; "1"; "3"]] ∧
  idRows (tables e gramTypeTable) = [] ∧
  idRows (tables e gramTypeTranslationTable) = [] ∧
  ¬ allLinkedToGrammarType e "noun".
Proof.
  split_and!; [reflexivity | reflexivity | reflexivity |].
  intros (g & Hg & _). vm_compute in Hg. by apply elem_of_nil in Hg.
Qed.

Lemma allLinked_example (e : Env) :
  idRows (tables e translationsTable) = [["1"; "1"; "2"]; ["2"; "1"; "3"]] →
  idRows (tables e gramTypeTable) = [["1"; "noun"]] →
  idRows (tables e gramTypeTranslationTable) = [["1"; "1"; "1"]; ["2"; "1"; "2"]] →
  allLinkedToGrammarType e "noun".
Proof.
  intros Ht Hg Hl. exists "1". rewrite Ht, Hg, Hl. split; [set_solver|].
  intros tr cells Hin.
  apply elem_of_cons in Hin as [Hin|Hin]; [inversion Hin; subst; exists "1"; set_solver|].
  apply elem_of_cons in Hin as [Hin|Hin]; [inversion Hin; subst; exists "2"; set_solver|].
  by apply elem_of_nil in Hin.
Qed.

(** The loop reads an indented line that holds one of the expected tags the
    same way whatever its indentation is. *)
Lemma processLine_indentation (ws ws' body : string) (e : Env) :
  indentation ws → indentation ws' →
  existsb (Contains body) ["[p]"; "[trn]"; "[*]"] = true →
  processLine (ws +:+ body) e = processLine (ws' +:+ body) e.
Proof.
  intros Hws Hws' Htags. unfold processLine, unsetAndScanTitle, processBody.
  rewrite !TrimSpace_indent by done.
  rewrite !(scanTitle_indent _ (Ascii.eqb "#"))
    by (try reflexivity; apply space_not_class; (reflexivity || apply Hws || apply Hws')).
  rewrite !scanWordArticleTitle_indent by done.
  rewrite !validateBodyLine_indent by done.
  rewrite !extractNote_indent, !extractTranslation_indent by done.
  reflexivity.
Qed.

Lemma scanLoop_pointwise (lines lines' : list string) :
  Forall2 (fun l l' => ∀ e, processLine l e = processLine l' e) lines lines' →
  ∀ e, scanLoop lines e = scanLoop lines' e.
Proof.
  induction 1 as [|l l' lines lines' Hl _ IH]; intros e; [done|].
  cbn [scanLoop]. unfold bind. rewrite Hl.
  destruct (processLine l' e) as [e1 [[]|msg]]; [apply IH | done].
Qed.

(** C2 (as amended).  For every headword line and every indentation of the
    body lines: when the note [[p]noun[/p]] stands on a body line of its own
    before the lines of [foo] and [bar], both Translation rows are linked in
    GrammarTypeTranslation to the same GrammarType row, whose value is
    [noun]; when it stands on the line of [foo], [noun] becomes a
    TranslationAttribute linked to the first translation only and no
    grammar-type row or link is created. *)
Theorem grammar_persistence (headword ws1 ws2 ws3 : string) :
  isHeadwordLine headword startEnv →
  indentation ws1 → indentation ws2 → indentation ws3 →
  (let r := run (grammarOnOwnLine headword ws1 ws2 ws3) in
   let e := fst r in
   is_done (snd r) = true ∧
   idRows (tables e translationsTable) = [["1"; "1"; "2"]; ["2"; "1"; "3"]] ∧
   idRows (tables e gramTypeTable) = [["1"; "noun"]] ∧
   idRows (tables e gramTypeTranslationTable) = [["1"; "1"; "1"]; ["2"; "1"; "2"]] ∧
   allLinkedToGrammarType e "noun") ∧
  (let r := run (grammarOnTranslationLine headword ws1 ws2) in
   let e := fst r in
   is_done (snd r) = true ∧
   idRows (tables e translationsTable) = [["1"; "1"; "2"]; ["2"; "1"; "3"]] ∧
   idRows (tables e gramTypeTable) = [] ∧
   idRows (tables e gramTypeTranslationTable) = [] ∧
   idRows (tables e translationAttributesTable) = [["1"; "noun"]] ∧
   idRows (tables e translationAttributesToTranslationsTable) = [["1"; "1"; "1"]]).
Proof.
  intros Hw H1 H2 H3.
  assert (Hone : indentation " ") by (split; [done | repeat constructor]).
  split.
  - intros r e.
    assert (H : is_done (snd r) = true ∧
      idRows (tables e translationsTable) = [["1"; "1"; "2"]; ["2"; "1"; "3"]] ∧
      idRows (tables e gramTypeTable) = [["1"; "noun"]] ∧
      idRows (tables e gramTypeTranslationTable)
        = [["1"; "1"; "1"]; ["2"; "1"; "2"]]).
    { subst e r. rewrite run_finish. unfold grammarOnOwnLine.
      rewrite (scanLoop_headword _ _ _ Hw). unfold bind.
      destruct (storeHeadword _ startEnv) as [e1 o] eqn:Hhead.
      rewrite (scanLoop_pointwise _
                 [" [p]noun[/p]"; " [trn]foo[/trn]"; " [trn]bar[/trn]"])
        by (repeat constructor; intros e0;
            apply (processLine_indentation _ " "); done).
      revert Hhead. generalize (scanWordArticleTitle headword). intros title Hhead.
      apply (f_equal (fun p => finish
               (match p.2 with
                | Done _ => scanLoop [" [p]noun[/p]"; " [trn]foo[/trn]";
                                      " [trn]bar[/trn]"] p.1
                | Panicked msg => (p.1, Panicked msg)
                end))) in Hhead.
      cbn [fst snd] in Hhead. rewrite <- Hhead. clear Hhead.
      vm_compute. repeat split. }
    destruct H as (Hd & Ht & Hg & Hl). split_and!; try done.
    by apply allLinked_example.
  - intros r e. subst e r. rewrite run_finish. unfold grammarOnTranslationLine.
    rewrite (scanLoop_headword _ _ _ Hw). unfold bind.
    destruct (storeHeadword _ startEnv) as [e1 o] eqn:Hhead.
    rewrite (scanLoop_pointwise _
               [" [p]noun[/p][trn]foo[/trn]"; " [trn]bar[/trn]"])
      by (repeat constructor; intros e0;
          apply (processLine_indentation _ " "); done).
    revert Hhead. generalize (scanWordArticleTitle headword). intros title Hhead.
    apply (f_equal (fun p => finish
             (match p.2 with
              | Done _ => scanLoop [" [p]noun[/p][trn]foo[/trn]";
                                    " [trn]bar[/trn]"] p.1
              | Panicked msg => (p.1, Panicked msg)
              end))) in Hhead.
    cbn [fst snd] in Hhead. rewrite <- Hhead. clear Hhead.
    vm_compute. repeat split.
Qed.

Lemma grammar_persistence_witness :
  allLinkedToGrammarType
    (fst (run (grammarOnOwnLine "cat" " " "  " (String "009" "")))) "noun" ∧
  idRows (tables (fst (run (grammarOnTranslationLine "cat" " " "  ")))
            gramTypeTranslationTable) = [].
Proof.
  destruct (grammar_persistence "cat" " " "  " (String "009" "")) as [H1 H2].
  - split; [split_and! |]; try (right; reflexivity); vm_compute; discriminate.
  - split; [discriminate | repeat constructor].
  - split; [discriminate | repeat constructor].
  - split; [discriminate | repeat constructor].
  - split; [apply H1 | apply H2].
Defined.

(** * Headers and headwords *)

Section Classification.

Implicit Types (e : Env) (line : string).

Lemma addRow_exact x row e :
  declared e → length row = length (columns (tables startEnv x)) →
  ∃ t' id, AddRow row (tables e x) = (t', Done id) ∧
           addRow x row e = (setTable x t' e, Done id) ∧
           declared (setTable x t' e).
Proof.
  intros Hd Hlen.
  destruct (AddRow_returns (tables e x) row) as (t' & id & Hadd).
  - by apply declared_indices.
  - destruct (Hd x) as [-> _]. done.
  - exists t', id. split; [done|]. split.
    + unfold addRow, onTable. by rewrite Hadd.
    + destruct (AddRow_schema _ _ _ _ Hadd). by apply declared_setTable.
Qed.

Lemma storeHeader_exact v x idVar e :
  declared e → length (columns (tables startEnv x)) = 1 →
  ∃ t' id, AddRow [VString (names e v)] (tables e x) = (t', Done id) ∧
           storeHeader v x idVar e = (setId idVar id (setTable x t' e), Done tt).
Proof.
  intros Hd Hx.
  destruct (addRow_exact x [VString (names e v)] e) as (t' & id & H1 & H2 & _);
    [done | by rewrite Hx |].
  exists t', id. split; [done|].
  unfold storeHeader, bind, readName. rewrite H2. done.
Qed.

Lemma storeHeadword_exact title e :
  declared e →
  ∃ t' id,
    AddRow [VString title; VInt64 (ids e dicId); VInt64 (ids e langFromId)]
      (tables e wordsTable) = (t', Done id) ∧
    storeHeadword title e =
      (setId attributeId 0 (setId gramTypeId 0
         (setId wordFromId id (setTable wordsTable t' e))), Done tt).
Proof.
  intros Hd.
  destruct (addRow_exact wordsTable
              [VString title; VInt64 (ids e dicId); VInt64 (ids e langFromId)] e)
    as (t' & id & H1 & H2 & _); [done | done |].
  exists t', id. split; [done|].
  unfold storeHeadword, bind, readId. rewrite H2. done.
Qed.

Lemma nameA_not_blank : TrimSpace nameA ≠ "".
Proof. vm_compute. discriminate. Qed.

Lemma nameA_title : scanTitle "#NAME" nameA = Some "A".
Proof. reflexivity. Qed.

Lemma nameB_reaches_title_test e :
  names e dicName ≠ "" → reachesTitleTest nameB e.
Proof.
  intros Hn. split_and!.
  - vm_compute. discriminate.
  - by left.
  - right. reflexivity.
  - right. reflexivity.
Qed.

Lemma nameB_title : scanWordArticleTitle nameB = nameB.
Proof. reflexivity. Qed.

Lemma notIndented_is_headword e : isHeadwordLine notIndented e.
Proof.
  split; [split_and! |]; try (right; reflexivity); vm_compute; discriminate.
Qed.

Lemma notIndented_title : scanWordArticleTitle notIndented = notIndented.
Proof. reflexivity. Qed.

Lemma bracketLed_is_body e : isBodyLine bracketLed e.
Proof.
  split; [split_and! |]; try (right; reflexivity); try reflexivity.
  vm_compute. discriminate.
Qed.

Lemma bracketLed_panics e :
  processLine bracketLed e = (e, Panicked "Line is not beginning with spaces").
Proof. rewrite processLine_body by apply bracketLed_is_body. reflexivity. Qed.

End Classification.

(** C4 as it is written fails: the second [#NAME] line is not ignored, it
    changes the Word store. *)
Lemma later_NAME_line_changes_words :
  let e1 := fst (run [nameA]) in
  let e2 := fst (run [nameA; nameB]) in
  idRows (tables e2 dictionariesTable) = [["1"; "A"]] ∧
  idRows (tables e1 wordsTable) = [] ∧
  idRows (tables e2 wordsTable) = [["1"; nameB; "1"; "0"]] ∧
  tables e2 wordsTable ≠ tables e1 wordsTable.
Proof.
  split_and!; [reflexivity | reflexivity | reflexivity |].
  intros H. apply (f_equal rows) in H. vm_compute in H. discriminate.
Qed.

(** C4 (as amended).  In a state where no dictionary name is set yet, the
    line [#NAME "A"] creates the Dictionary row for [A]; the line
    [#NAME "B"] after it creates no Dictionary row and leaves the dictionary
    name and identity alone, but it is not skipped: the loop takes it for a
    headword and inserts it into the Word store; no other store changes. *)
Theorem later_NAME_line_is_headword (e : Env) :
  declared e → names e dicName = "" →
  ∃ e1 e2 dic word,
    processLine nameA e = (e1, Done tt) ∧
    processLine nameB e1 = (e2, Done tt) ∧
    AddRow [VString "A"] (tables e dictionariesTable)
      = (tables e1 dictionariesTable, Done dic) ∧
    names e1 dicName = "A" ∧ ids e1 dicId = dic ∧
    tables e2 dictionariesTable = tables e1 dictionariesTable ∧
    names e2 dicName = "A" ∧ ids e2 dicId = dic ∧
    AddRow [VString nameB; VInt64 dic; VInt64 (ids e1 langFromId)]
      (tables e1 wordsTable) = (tables e2 wordsTable, Done word) ∧
    ids e2 wordFromId = word ∧
    ∀ x, x ≠ wordsTable → tables e2 x = tables e1 x.
Proof.
  intros Hd Hn.
  assert (H1 : processLine nameA e =
               storeHeader dicName dictionariesTable dicId (setName dicName "A" e)).
  { unfold processLine.
    destruct (String.eqb_spec (TrimSpace nameA) "") as [Hb|_];
      [by apply nameA_not_blank in Hb|].
    unfold bind at 1, unsetAndScanTitle. rewrite Hn, nameA_title. reflexivity. }
  destruct (storeHeader_exact dicName dictionariesTable dicId (setName dicName "A" e))
    as (t1 & dic & Hadd1 & Hs1); [exact Hd | reflexivity |].
  rewrite Hs1 in H1. clear Hs1.
  set (e1 := setId dicId dic (setTable dictionariesTable t1 (setName dicName "A" e))) in *.
  assert (Hd1 : declared e1).
  { destruct (AddRow_schema _ _ _ _ Hadd1). by apply (declared_setTable (setName dicName "A" e)). }
  assert (H2 : processLine nameB e1 = storeHeadword nameB e1).
  { rewrite processLine_headword; [by rewrite nameB_title|].
    split; [apply nameB_reaches_title_test | by rewrite nameB_title].
    discriminate. }
  destruct (storeHeadword_exact nameB e1 Hd1) as (t2 & word & Hadd2 & Hs2).
  rewrite Hs2 in H2. clear Hs2.
  eexists e1, _, dic, word. split; [exact H1|]. split; [exact H2|].
  split_and!; try reflexivity.
  - exact Hadd1.
  - exact Hadd2.
  - intros x Hx. simpl. by rewrite assign_ne.
Qed.

Lemma later_NAME_line_is_headword_witness :
  ∃ e1 e2 dic word,
    processLine nameA startEnv = (e1, Done tt) ∧
    processLine nameB e1 = (e2, Done tt) ∧
    AddRow [VString "A"] (tables startEnv dictionariesTable)
      = (tables e1 dictionariesTable, Done dic) ∧
    names e1 dicName = "A" ∧ ids e1 dicId = dic ∧
    tables e2 dictionariesTable = tables e1 dictionariesTable ∧
    names e2 dicName = "A" ∧ ids e2 dicId = dic ∧
    AddRow [VString nameB; VInt64 dic; VInt64 (ids e1 langFromId)]
      (tables e1 wordsTable) = (tables e2 wordsTable, Done word) ∧
    ids e2 wordFromId = word ∧
    ∀ x, x ≠ wordsTable → tables e2 x = tables e1 x.
Proof.
  apply (later_NAME_line_is_headword startEnv).
  - intros x. split; reflexivity.
  - reflexivity.
Defined.

(** * Validation *)

(** C5 as it is written fails: a run on the line alone completes, with the
    line stored as a headword. *)
Lemma notIndented_run_completes :
  let r := run [notIndented] in
  snd r = Done (tables (fst r) <$> printed) ∧
  idRows (tables (fst r) wordsTable) = [["1"; notIndented; "0"; "0"]].
Proof. vm_compute. split; reflexivity. Qed.

(** C5 (as amended).  The line [notindented[trn]x[/trn]] never reaches the
    validation: it starts with neither white space nor a bracket, so in every
    state the loop takes it for a headword, inserts it into the Word store
    and goes on.  The validation error for missing leading white space is
    raised for a line that starts with a bracket: [[trn]x[/trn]] panics in
    every state, and every run whose input contains it ends in a panic
    carrying the validation error of one of its lines, and prints nothing. *)
Theorem validation_abort :
  (∀ e, declared e →
     ∃ e' id,
       processLine notIndented e = (e', Done tt) ∧
       AddRow [VString notIndented; VInt64 (ids e dicId); VInt64 (ids e langFromId)]
         (tables e wordsTable) = (tables e' wordsTable, Done id)) ∧
  (∀ e, processLine bracketLed e =
          (e, Panicked "Line is not beginning with spaces")) ∧
  (∀ before after,
     ∃ e msg line,
       run (before ++ bracketLed :: after) = (e, Panicked msg) ∧
       line ∈ before ++ [bracketLed] ∧
       validateBodyLine line = Some msg).
Proof.
  split_and!.
  - intros e Hd.
    destruct (storeHeadword_exact notIndented e Hd) as (t' & id & Hadd & Hs).
    eexists _, id. rewrite processLine_headword by apply notIndented_is_headword.
    rewrite notIndented_title. split; [exact Hs|]. simpl. by rewrite assign_eq.
  - apply bracketLed_panics.
  - intros before after. rewrite run_finish.
    change (before ++ bracketLed :: after)
      with (before ++ [bracketLed] ++ after).
    rewrite scanLoop_app. unfold bind at 1.
    pose proof (scanLoop_sound before startEnv declared_start) as Hpre.
    destruct (scanLoop before startEnv) as [e1 [[]|msg]]; simpl in Hpre.
    + cbn [app scanLoop]. unfold bind at 1. rewrite bracketLed_panics.
      eexists e1, _, bracketLed. split; [reflexivity|].
      split; [set_solver | reflexivity].
    + destruct Hpre as (line & Hin & Hmsg).
      exists e1, msg, line. split; [reflexivity|]. split; [set_solver | done].
Qed.

Lemma validation_abort_witness :
  (∃ e' id,
     processLine notIndented startEnv = (e', Done tt) ∧
     AddRow [VString notIndented; VInt64 0; VInt64 0] (tables startEnv wordsTable)
       = (tables e' wordsTable, Done id)) ∧
  (∃ e msg line,
     run ([" [trn]x[/trn]"] ++ bracketLed :: ["cat"]) = (e, Panicked msg) ∧
     line ∈ [" [trn]x[/trn]"] ++ [bracketLed] ∧
     validateBodyLine line = Some msg).
Proof.
  destruct validation_abort as (H1 & _ & H3). split.
  - apply (H1 startEnv). intros x. split; reflexivity.
  - apply (H3 [" [trn]x[/trn]"] ["cat"]).
Defined.

(** * The translation branch *)

Section TranslationBranch.

Implicit Types (e : Env) (line note translation : string).

Ltac tidy :=
  cbn [tables ids names setId setTable setName] in *;
  rewrite ?assign_eq in *;
  repeat (rewrite assign_ne in * by discriminate).

(** In a declared state a unique-keyed insert of the declared width goes
    one of the two ways of [insertedUnder]. *)
Lemma declared_insertedUnder e x (newRow : list value) key t' id :
  declared e →
  length newRow = length (columns (tables startEnv x)) →
  uniqueColIndices (tables startEnv x) ≠ [] →
  concatUnique newRow (uniqueColIndices (tables startEnv x)) "" = Done key →
  AddRow newRow (tables e x) = (t', Done id) →
  insertedUnder key newRow (tables e x) t' id.
Proof.
  intros Hd Hlen Hu Hk Hadd. destruct (Hd x) as [Hc Hi].
  apply AddRow_insertedUnder; [by rewrite Hc | | | done].
  - unfold uniqueKeyed. by rewrite Hi.
  - unfold uniqueKey. by rewrite Hi.
Qed.

(** The link to the grammar type in force, the last step of the branch. *)
Lemma linkGrammarType_exact (trId : Z) e0 e :
  declared e → ids e gramTypeId = ids e0 gramTypeId →
  tables e gramTypeTranslationTable = tables e0 gramTypeTranslationTable →
  post
    (fun _ e' =>
       grammarTypeLinked trId e0 e' ∧
       ids e' = ids e ∧ names e' = names e ∧
       ∀ x, x ≠ gramTypeTranslationTable → tables e' x = tables e x)
    (fun _ => False)
    ((if (0 <? ids e gramTypeId)%Z
      then bind (addRow gramTypeTranslationTable
                   [VInt64 (ids e gramTypeId); VInt64 trId])
             (fun _ => ret tt)
      else ret tt) e).
Proof.
  intros Hd Hg Ht. unfold grammarTypeLinked. rewrite <- Hg.
  destruct (0 <? ids e gramTypeId)%Z.
  - apply post_addRow; [done | reflexivity | intros t' link Hadd _].
    apply (declared_insertedUnder e gramTypeTranslationTable _
             (pairKey (ids e gramTypeId) trId)) in Hadd;
      [ | done | reflexivity | discriminate | reflexivity].
    rewrite Ht in Hadd. simpl. tidy. split_and!; [by exists link | done | done |].
    intros x Hx. by rewrite assign_ne.
  - simpl. split_and!; done.
Qed.

Lemma storeTranslation_exact note translation e :
  declared e →
  post
    (fun _ e' =>
       ∃ trId,
         AddRow [VString translation; VInt64 (ids e dicId); VInt64 (ids e langToId)]
           (tables e wordsTable) = (tables e' wordsTable, Done (ids e' wordToId)) ∧
         insertedUnder (pairKey (ids e wordFromId) (ids e' wordToId))
           [VInt64 (ids e wordFromId); VInt64 (ids e' wordToId)]
           (tables e translationsTable) (tables e' translationsTable) trId ∧
         ids e' translationId = trId ∧
         attributeStored note trId e e' ∧
         grammarTypeLinked trId e e')
    (fun _ => False)
    (storeTranslation note translation e).
Proof.
  intros Hd. unfold storeTranslation. do 2 loop_step.
  apply post_addRow; [done | reflexivity | intros tw wordTo Hword Hd1].
  do 2 loop_step.
  apply post_addRow; [assumption | reflexivity | intros ttr trId Htr Hd2].
  apply (declared_insertedUnder _ translationsTable _
           (pairKey (ids e wordFromId) wordTo)) in Htr;
    [ | exact Hd1 | reflexivity | discriminate | reflexivity].
  tidy. loop_step.
  apply post_bind. unfold attributeStored.
  destruct (decide (note = "")) as [Hnote|Hnote].
  - subst note. cbn [String.eqb negb]. simpl. loop_step.
    generalize (linkGrammarType_exact trId e
      (setId translationId trId
         (setTable translationsTable ttr
            (setId wordToId wordTo (setTable wordsTable tw e))))).
    tidy. intros Hlink. specialize (Hlink Hd2 eq_refl eq_refl).
    revert Hlink. apply post_weaken; [|done].
    intros [] e' (Hg & Hids & Hnames & Htabs). exists trId.
    rewrite Hids. tidy. rewrite !Htabs by discriminate. tidy.
    split_and!; done.
  - apply String.eqb_neq in Hnote. rewrite Hnote. cbn [negb].
    apply post_addRow; [assumption | reflexivity | intros ta attr Hattr Hd3].
    apply (declared_insertedUnder _ translationAttributesTable _ note) in Hattr;
      [ | exact Hd2 | reflexivity | discriminate | reflexivity].
    tidy. loop_step.
    apply post_addRow; [assumption | reflexivity | intros tj link Hjoin Hd4].
    apply (declared_insertedUnder _ translationAttributesToTranslationsTable _
             (pairKey attr trId)) in Hjoin;
      [ | exact Hd3 | reflexivity | discriminate | reflexivity].
    tidy. simpl. loop_step.
    generalize (linkGrammarType_exact trId e
      (setId attributeId 0%Z
         (setTable translationAttributesToTranslationsTable tj
            (setId attributeId attr
               (setTable translationAttributesTable ta
                  (setId translationId trId
                     (setTable translationsTable ttr
                        (setId wordToId wordTo (setTable wordsTable tw e))))))))).
    tidy. intros Hlink. specialize (Hlink Hd4 eq_refl eq_refl).
    revert Hlink. apply post_weaken; [|done].
    intros [] e' (Hg & Hids & Hnames & Htabs). exists trId.
    rewrite Hids. tidy. rewrite !Htabs by discriminate. tidy.
    split_and!; try done. exists attr, link. done.
Qed.

End TranslationBranch.

(** C3 as it is written fails twice.  On a line whose note carries the
    qualifier [red] and the text [adj], next to a translation, it is [adj]
    that is stored as translation attribute; [red] is stored nowhere.  And
    the join row is not always inserted: after [elevenAttributes] the line
    [notedLine "a"], with the qualifier [red] and the text [a], is
    translation 111 with attribute 1; the key of the pair (1, 111) is
    [1111], which the index holds for the pair (11, 11), so the
    AttributeTranslation store stays as it is: it holds no row (1, 111),
    and no row for translation 111 at all. *)
Lemma qualifier_is_not_the_attribute :
  (extractNote qualifiedLine = ("red", "adj") ∧
   extractTranslation qualifiedLine = "x" ∧
   let e := fst (run ["cat"; qualifiedLine]) in
   idRows (tables e translationAttributesTable) = [["1"; "adj"]] ∧
   idRows (tables e translationAttributesTable) ≠ [["1"; "red"]] ∧
   idRows (tables e translationAttributesToTranslationsTable) = [["1"; "1"; "1"]]) ∧
  (let e1 := fst (run elevenAttributes) in
   let e2 := fst (run (elevenAttributes ++ [notedLine "a"])) in
   let join := translationAttributesToTranslationsTable in
   is_done (snd (run (elevenAttributes ++ [notedLine "a"]))) = true ∧
   extractNote (notedLine "a") = ("red", "a") ∧
   extractTranslation (notedLine "a") = "w" ∧
   AddRow [VString "a"] (tables e1 translationAttributesTable)
     = (tables e2 translationAttributesTable, Done 1%Z) ∧
   ids e2 translationId = 111%Z ∧
   pairKey 1 111 = "1111" ∧ pairKey 11 11 = "1111" ∧
   uniqueValues (tables e1 join) !! "1111" = Some 11%Z ∧
   rows (tables e1 join) !! 10%nat = Some ["11"; "11"] ∧
   tables e2 join = tables e1 join ∧
   bool_decide (["1"; "111"] ∈ rows (tables e2 join)) = false ∧
   existsb (fun cells => bool_decide (cells !! 1%nat = Some "111"))
     (rows (tables e2 join)) = false).
Proof.
  split.
  - vm_compute. split_and!; try reflexivity. discriminate.
  - vm_compute. split_and!; reflexivity.
Qed.

(** C3 (as amended).  For every body line on which a translation is
    extracted, in every state with the declared schemas: the line is
    processed without a panic, and when the cleaned free text of the note
    (the second result of [extractNote]) is not empty, it is this text,
    whatever the [[c value]] qualifier is, which the loop discards, that is
    inserted into the TranslationAttribute store: appended as a new row
    when the text is not yet a key of the store's index, and else the store
    is left as it is and the identity on record is the attribute.  The pair
    of the attribute and this line's translation is then inserted into the
    AttributeTranslation store under the key made of the two identities
    printed one after the other: the row is appended when that key is not
    yet in the index; when it is, for this pair or for another pair with
    the same digits, the store is left as it is and gets no row.
    [attributeId] is 0 afterwards.  When the cleaned text is empty neither
    store changes. *)
Theorem attribute_is_note_text (line : string) (e : Env) :
  declared e → isBodyLine line e → validateBodyLine line = None →
  extractTranslation line ≠ "" →
  ∃ e' trId,
    processLine line e = (e', Done tt) ∧
    insertedUnder (pairKey (ids e wordFromId) (ids e' wordToId))
      [VInt64 (ids e wordFromId); VInt64 (ids e' wordToId)]
      (tables e translationsTable) (tables e' translationsTable) trId ∧
    ids e' translationId = trId ∧
    attributeStored (snd (extractNote line)) trId e e'.
Proof.
  intros Hd Hb Hv Ht. rewrite processLine_body by done.
  unfold processBody. rewrite Hv. unfold bind at 1. cbn [FailOnError ret].
  destruct (String.eqb_spec (extractTranslation line) "") as [|_]; [done|].
  rewrite andb_false_r. cbn [negb].
  pose proof (storeTranslation_exact (snd (extractNote line))
                (extractTranslation line) e Hd) as Hpost.
  destruct (storeTranslation _ _ e) as [e' [[]|msg]]; simpl in Hpost; [|done].
  destruct Hpost as (trId & _ & Htr & Hid & Hattr & _).
  exists e', trId. done.
Qed.

Lemma attribute_is_note_text_witness :
  ∃ e' trId,
    processLine qualifiedLine startEnv = (e', Done tt) ∧
    insertedUnder (pairKey (ids startEnv wordFromId) (ids e' wordToId))
      [VInt64 (ids startEnv wordFromId); VInt64 (ids e' wordToId)]
      (tables startEnv translationsTable) (tables e' translationsTable) trId ∧
    ids e' translationId = trId ∧
    attributeStored "adj" trId startEnv e'.
Proof.
  apply (attribute_is_note_text qualifiedLine startEnv).
  - intros x. split; reflexivity.
  - split; [split_and! |]; try (right; reflexivity); try reflexivity.
    vm_compute. discriminate.
  - reflexivity.
  - vm_compute. discriminate.
Defined.

(** * Further properties of the entity store *)

Section SetUniqueColsProperties.
Implicit Types (t : Table) (cols unique : list string) (u : string).

Lemma findCol_Some u k cols i :
  findCol u k cols = Some i →
  k ≤ i ∧ firstColumn cols u (i - k).
Proof.
  revert k. induction cols as [|c cols IH]; intros k; simpl; [done|].
  destruct (String.eqb_spec c u) as [->|Hne].
  - intros [= <-]. rewrite Nat.sub_diag. split; [lia|]. split; [done | lia].
  - intros H. destruct (IH _ H) as (Hle & Hi & Hmin).
    split; [lia|]. replace (i - k) with (S (i - S k)) by lia. split; [done|].
    intros [|j] Hj; simpl; [congruence|]. apply Hmin. lia.
Qed.

Lemma findCol_None u k cols : findCol u k cols = None ↔ u ∉ cols.
Proof.
  revert k. induction cols as [|c cols IH]; intros k; simpl.
  - split; [intros _; apply not_elem_of_nil | done].
  - rewrite not_elem_of_cons. destruct (String.eqb_spec c u) as [->|Hne].
    + split; [done | intros [? _]; done].
    + rewrite IH. split; [done | by intros [_ ?]].
Qed.

Lemma addIndices_nil t : addIndices [] t = t.
Proof. destruct t. unfold addIndices. simpl. by rewrite app_nil_r. Qed.

Lemma addIndices_cons i idx t :
  addIndices idx (appendUniqueIndex i t) = addIndices (i :: idx) t.
Proof. unfold addIndices, appendUniqueIndex. simpl. by rewrite <- app_assoc. Qed.

(** Whatever the names, the indices recorded lie within the columns and
    nothing but the list of indices changes. *)
Lemma SetUniqueCols_indices unique t :
  indicesInRange t →
  ∃ idx, fst (SetUniqueCols unique t) = addIndices idx t ∧
         Forall (fun i => i < length (columns t)) idx.
Proof.
  revert t. induction unique as [|u unique IH]; intros t Ht.
  - exists []. by rewrite addIndices_nil.
  - cbn [SetUniqueCols]. unfold bind, get.
    destruct (findCol u 0 (columns t)) as [i|] eqn:Hf.
    + destruct (findCol_Some _ _ _ _ Hf) as [_ [Hi _]]. rewrite Nat.sub_0_r in Hi.
      apply lookup_lt_Some in Hi.
      unfold modify. destruct (IH (appendUniqueIndex i t)) as (idx & Hs & Hidx).
      { unfold indicesInRange. simpl. apply Forall_app. split; [done|]. by constructor. }
      exists (i :: idx). rewrite Hs, addIndices_cons. split; [done|]. by constructor.
    + exists []. by rewrite addIndices_nil.
Qed.

End SetUniqueColsProperties.

(** X1.  When every name passed to [SetUniqueCols] is a column of the
    table, the call returns and appends, in the order of the names, the
    position of the first column carrying each name; nothing else of the
    table changes. *)
Theorem SetUniqueCols_records_first_positions (unique : list string) (t : Table) :
  Forall (fun u => u ∈ columns t) unique →
  ∃ idx, SetUniqueCols unique t = (addIndices idx t, Done tt) ∧
         Forall2 (firstColumn (columns t)) unique idx.
Proof.
  intros Hu. revert t Hu. induction unique as [|u unique IH]; intros t Hu.
  - exists []. rewrite addIndices_nil. split; [done | constructor].
  - inversion Hu as [|? ? Hin Hrest]; subst.
    cbn [SetUniqueCols]. unfold bind, get.
    destruct (findCol u 0 (columns t)) as [i|] eqn:Hf.
    + destruct (findCol_Some _ _ _ _ Hf) as [_ Hi]. rewrite Nat.sub_0_r in Hi.
      unfold modify. destruct (IH (appendUniqueIndex i t)) as (idx & Hs & Hidx); [done|].
      exists (i :: idx). rewrite Hs, addIndices_cons. split; [done|].
      by constructor.
    + by apply findCol_None in Hf.
Qed.

Lemma SetUniqueCols_records_first_positions_witness :
  ∃ idx,
    SetUniqueCols ["word_to_id"; "word_from_id"]
      (NewTable "translations" ["word_from_id"; "word_to_id"])
    = (addIndices idx (NewTable "translations" ["word_from_id"; "word_to_id"]),
       Done tt) ∧
    Forall2 (firstColumn ["word_from_id"; "word_to_id"])
      ["word_to_id"; "word_from_id"] idx.
Proof.
  apply (SetUniqueCols_records_first_positions ["word_to_id"; "word_from_id"]
           (NewTable "translations" ["word_from_id"; "word_to_id"])).
  repeat constructor.
Defined.

(** X2.  At the first name that is no column of the table [SetUniqueCols]
    panics with [Unknown unique column <name>]; the positions of the names
    before it are recorded by then and stay, the names after it are not
    looked at. *)
Theorem SetUniqueCols_unknown_column_panics (before : list string) (u : string) (after : list string) (t : Table) :
  Forall (fun u => u ∈ columns t) before → u ∉ columns t →
  ∃ idx, SetUniqueCols (before ++ u :: after) t =
           (addIndices idx t, Panicked ("Unknown unique column " +:+ u)) ∧
         Forall2 (firstColumn (columns t)) before idx.
Proof.
  intros Hb Hu. revert t Hb Hu. induction before as [|b before IH]; intros t Hb Hu.
  - exists []. rewrite addIndices_nil. split; [|constructor].
    cbn [app SetUniqueCols]. unfold bind, get.
    apply findCol_None with (k := 0) in Hu. by rewrite Hu.
  - inversion Hb as [|? ? Hin Hrest]; subst.
    cbn [app SetUniqueCols]. unfold bind, get.
    destruct (findCol b 0 (columns t)) as [i|] eqn:Hf.
    + destruct (findCol_Some _ _ _ _ Hf) as [_ Hi]. rewrite Nat.sub_0_r in Hi.
      unfold modify. destruct (IH (appendUniqueIndex i t)) as (idx & Hs & Hidx); [done|done|].
      exists (i :: idx). rewrite Hs, addIndices_cons. split; [done|].
      by constructor.
    + by apply findCol_None in Hf.
Qed.

Lemma SetUniqueCols_unknown_column_panics_witness :
  ∃ idx,
    SetUniqueCols (["word_from_id"] ++ "word" :: ["word_to_id"])
      (NewTable "translations" ["word_from_id"; "word_to_id"])
    = (addIndices idx (NewTable "translations" ["word_from_id"; "word_to_id"]),
       Panicked "Unknown unique column word") ∧
    Forall2 (firstColumn ["word_from_id"; "word_to_id"]) ["word_from_id"] idx.
Proof.
  apply (SetUniqueCols_unknown_column_panics ["word_from_id"] "word" ["word_to_id"]
           (NewTable "translations" ["word_from_id"; "word_to_id"])).
  - repeat constructor.
  - vm_compute. intros H. by repeat (apply elem_of_cons in H as [H|H]; [discriminate|]);
      apply elem_of_nil in H.
Defined.

Section BuiltTables.
Implicit Types (t : Table) (row : list value) (cells : Row).

(** What [AddRow] can do to a table: nothing, or append the printed row
    under the next identity (recording its key when the table has one). *)
Lemma AddRow_cases row t :
  (fst (AddRow row t) = t) ∨
  (length row = length (columns t) ∧
   snd (AddRow row t) = Done (int64_add (counter t) 1) ∧
   ((uniqueColIndices t = [] ∧
     fst (AddRow row t) = appendRow (printRow row) (int64_add (counter t) 1) t) ∨
    (∃ key, uniqueKeyed t ∧ uniqueKey t row = Done key ∧
            uniqueValues t !! key = None ∧
            fst (AddRow row t) =
              appendRow (printRow row) (int64_add (counter t) 1)
                (recordUnique key (int64_add (counter t) 1) t)))).
Proof.
  destruct (decide (length row = length (columns t))) as [Hlen|Hlen];
    [|left; by rewrite AddRow_mismatch].
  destruct (decide (uniqueColIndices t = [])) as [Hu|Hu].
  - right. rewrite AddRow_plain by done. split_and!; try done. by left.
  - unfold AddRow. rewrite Hlen, Nat.eqb_refl, (uniqueKeyed_length _ Hu). simpl.
    unfold uniqueKey.
    destruct (concatUnique row (uniqueColIndices t) "") as [key|msg] eqn:Hk; [|by left].
    destruct (uniqueValues t !! key) as [id|] eqn:Hid; [by left|].
    right. split_and!; try done. right. exists key. done.
Qed.

Lemma concatUnique_printed row indices acc :
  concatUnique (VString <$> printRow row) indices acc = concatUnique row indices acc.
Proof.
  revert acc. induction indices as [|i indices IH]; intros acc; simpl; [done|].
  unfold printRow. rewrite !list_lookup_fmap.
  destruct (row !! i) as [v|]; simpl; [apply IH | done].
Qed.

Lemma storedKey_printed t row : storedKey t (printRow row) = uniqueKey t row.
Proof. apply concatUnique_printed. Qed.

Lemma built_schema t :
  built t →
  indicesInRange t ∧
  Forall (fun cells => length cells = length (columns t)) (rows t) ∧
  (¬ uniqueKeyed t → uniqueValues t = ∅).
Proof.
  induction 1 as [nm cols unique | t row _ (Hin & Hw & He)].
  - destruct (SetUniqueCols_indices unique (NewTable nm cols)) as (idx & -> & Hidx);
      [constructor|].
    split_and!; [done | constructor | done].
  - destruct (AddRow_cases row t) as [-> | (Hlen & _ & [[Hu ->] | (key & Hk & _ & _ & ->)])];
      [done | |].
    + split_and!; [done | | ].
      * cbn [rows columns appendRow]. apply Forall_app. split; [done|].
        constructor; [|done]. unfold printRow. by rewrite length_fmap.
      * intros _. apply He. unfold uniqueKeyed. rewrite Hu. intros Hn. by apply Hn.
    + split_and!; [done | | ].
      * cbn [rows columns appendRow recordUnique]. apply Forall_app. split; [done|].
        constructor; [|done]. unfold printRow. by rewrite length_fmap.
      * intros Hn. by destruct Hn.
Qed.

Lemma wrap64_small z : (- 2 ^ 63 <= z < 2 ^ 63)%Z → wrap64 z = z.
Proof. intros Hz. unfold wrap64. rewrite Z.mod_small by lia. lia. Qed.

Lemma built_identities t :
  built t → withinInt64 t →
  counter t = Z.of_nat (length (rows t)) ∧ (uniqueKeyed t → indexed t).
Proof.
  unfold withinInt64.
  induction 1 as [nm cols unique | t row Hb IH]; intros Hlen.
  - destruct (SetUniqueCols_indices unique (NewTable nm cols)) as (idx & -> & Hidx);
      [constructor|].
    split; [done|]. intros _ key id. cbn [uniqueValues addIndices NewTable rows].
    rewrite lookup_empty. split; [done|]. intros (k & cells & _ & Hk & _). done.
  - destruct (AddRow_cases row t)
      as [Heq | (Hrow & _ & [[Hu Heq] | (key & Hk & Hkey & Hfresh & Heq)])];
      rewrite Heq in Hlen |- *; [by apply IH | |].
    + cbn [rows appendRow] in Hlen. rewrite length_app in Hlen. simpl in Hlen.
      destruct IH as [Hc _]; [lia|]. split.
      * cbn [counter rows appendRow]. rewrite length_app. simpl.
        unfold int64_add. rewrite wrap64_small; lia.
      * intros Hn. destruct Hn. by cbn.
    + cbn [rows appendRow recordUnique] in Hlen. rewrite length_app in Hlen.
      simpl in Hlen. destruct IH as [Hc Hidx]; [lia|]. specialize (Hidx Hk).
      unfold indexed in Hidx.
      assert (Hnew : int64_add (counter t) 1 = Z.of_nat (length (rows t) + 1)).
      { unfold int64_add. rewrite wrap64_small; lia. }
      split.
      * cbn [counter rows appendRow]. rewrite length_app. simpl. by rewrite Hnew.
      * intros _ key0 id. rewrite Hnew.
        cbn [uniqueValues rows appendRow recordUnique].
        change (storedKey (appendRow _ _ (recordUnique _ _ t))) with (storedKey t).
        destruct (decide (key = key0)) as [<-|Hne].
        -- rewrite lookup_insert_eq. split.
           ++ intros [= <-]. exists (length (rows t)), (printRow row).
              split; [done|]. split; [|by rewrite storedKey_printed].
              by rewrite lookup_app_r, Nat.sub_diag.
           ++ intros (k & cells & -> & Hlook & Hsk).
              destruct (decide (k < length (rows t))) as [Hlt|Hge].
              ** rewrite lookup_app_l in Hlook by done.
                 assert (uniqueValues t !! key = Some (Z.of_nat (k + 1))) as Hold
                   by (apply Hidx; eauto).
                 congruence.
              ** apply lookup_lt_Some in Hlook as Hlt'. rewrite length_app in Hlt'.
                 simpl in Hlt'. do 2 f_equal. lia.
        -- rewrite lookup_insert_ne by done. rewrite Hidx. split.
           ++ intros (k & cells & -> & Hlook & Hsk). exists k, cells.
              split; [done|]. split; [|done]. apply lookup_app_l_Some. done.
           ++ intros (k & cells & -> & Hlook & Hsk).
              destruct (decide (k < length (rows t))) as [Hlt|Hge].
              ** rewrite lookup_app_l in Hlook by done. eauto.
              ** apply lookup_lt_Some in Hlook as Hlt'. rewrite length_app in Hlt'.
                 simpl in Hlt'. assert (k = length (rows t)) as -> by lia.
                 rewrite lookup_app_r, Nat.sub_diag in Hlook by done.
                 injection Hlook as <-. rewrite storedKey_printed in Hsk. congruence.
Qed.



Lemma storedKey_defined (t : Table) (cells : Row) :
  indicesInRange t → length cells = length (columns t) →
  ∃ key, storedKey t cells = Done key.
Proof.
  intros Hi Hlen. apply uniqueKey_defined; [done|]. by rewrite length_fmap.
Qed.

End BuiltTables.

Lemma built_languagesWithEnglish : built languagesWithEnglish.
Proof. apply built_add. apply (built_new "languages" ["name"] ["name"]). Defined.

(** X3.  [AddRow] only ever appends: it keeps the name, the columns and the
    unique columns, never drops an entry of the dedup index, and either
    leaves the table as it is or adds the printed row at the end under the
    identity it returns, the old counter plus one; when it panics the table
    is unchanged. *)
Theorem AddRow_append_only (row : list value) (t : Table) :
  let t' := fst (AddRow row t) in
  let o := snd (AddRow row t) in
  name t' = name t ∧ columns t' = columns t ∧
  uniqueColIndices t' = uniqueColIndices t ∧
  uniqueValues t ⊆ uniqueValues t' ∧
  (t' = t ∨
   rows t' = rows t ++ [printRow row] ∧ o = Done (counter t') ∧
   counter t' = int64_add (counter t) 1) ∧
  (is_done o = false → t' = t).
Proof.
  intros t' o. subst t' o.
  destruct (AddRow_cases row t)
    as [Heq | (Hrow & Ho & [[Hu Heq] | (key & Hk & Hkey & Hfresh & Heq)])].
  - rewrite Heq. split_and!; try done. by left.
  - rewrite Heq, Ho. split_and!; try done. right. done.
  - rewrite Heq, Ho. split_and!; try done.
    + cbn. by apply insert_subseteq.
    + right. done.
Qed.

(** X4.  In every table the program can build each stored row has as many
    cells as the table has columns, and every recorded unique-column index
    lies within the columns. *)
Theorem built_rows_fit_columns (t : Table) :
  built t →
  Forall (fun cells => length cells = length (columns t)) (rows t) ∧
  Forall (fun i => i < length (columns t)) (uniqueColIndices t).
Proof. intros Hb. destruct (built_schema t Hb) as (Hi & Hw & _). done. Qed.

Lemma built_rows_fit_columns_witness :
  Forall (fun cells => length cells = length (columns languagesWithEnglish))
    (rows languagesWithEnglish) ∧
  Forall (fun i => i < length (columns languagesWithEnglish))
    (uniqueColIndices languagesWithEnglish).
Proof. apply (built_rows_fit_columns languagesWithEnglish built_languagesWithEnglish). Defined.

(** X5.  The identity [AddRow] returns is the 1-based position of a stored
    row, and it is the Id that [String] prints in front of that row: in a
    table without unique columns the row is the one just appended; in a
    unique-keyed table it is the row stored under the same composite key
    (the new one, or the one found by the dedup).  This holds as long as the
    number of rows stays below 2^63. *)
Theorem AddRow_identity_is_position (t t' : Table) (row : list value) (id : Z) :
  built t → withinInt64 t' →
  AddRow row t = (t', Done id) →
  ∃ k cells,
    id = Z.of_nat (k + 1) ∧ rows t' !! k = Some cells ∧
    body (String_input t') !! k = Some (Sprint (VInt64 id) :: cells) ∧
    if decide (uniqueColIndices t = [])
    then cells = printRow row ∧ k = length (rows t)
    else storedKey t cells = uniqueKey t row.
Proof.
  intros Hb Hfit Hadd.
  assert (Hshow : ∀ k cells, rows t' !! k = Some cells →
            body (String_input t') !! k
              = Some (Sprint (VInt64 (Z.of_nat (k + 1))) :: cells)).
  { intros k cells Hk. cbn [body String_input]. unfold idRows.
    rewrite list_lookup_imap. unfold Row in *. rewrite Hk. simpl. do 2 f_equal.
    rewrite Nat.add_1_r. reflexivity. }
  pose proof (f_equal fst Hadd) as Ht'. pose proof (f_equal snd Hadd) as Ho.
  cbn [fst snd] in Ht', Ho.
  destruct (AddRow_cases row t)
    as [Heq | (Hrow & Ho' & [[Hu Heq] | (key & Hk & Hkey & Hfresh & Heq)])].
  - (* nothing was added: the key was known *)
    rewrite Heq in Ht'. subst t'.
    destruct (built_identities t Hb Hfit) as [Hc Hidx].
    destruct (decide (length row = length (columns t))) as [Hlen|Hlen];
      [|rewrite AddRow_mismatch in Ho by done; done].
    destruct (decide (uniqueColIndices t = [])) as [Hu|Hu].
    { rewrite AddRow_plain in Heq by done. cbn [fst] in Heq.
      apply (f_equal (fun t => length (rows t))) in Heq.
      cbn [rows appendRow] in Heq. rewrite length_app in Heq. simpl in Heq. lia. }
    destruct (built_schema t Hb) as (Hi & _ & _).
    destruct (uniqueKey_defined t row Hi Hlen) as [key Hkey].
    destruct (uniqueValues t !! key) as [id'|] eqn:Hid.
    + rewrite (AddRow_known t row key id') in Ho by done.
      injection Ho as ->. apply (Hidx Hu) in Hid as (k & cells & -> & Hlook & Hsk).
      exists k, cells. split_and!; [done | done | by apply Hshow | congruence].
    + rewrite (AddRow_fresh t row key) in Heq by done. cbn [fst] in Heq.
      apply (f_equal (fun t => length (rows t))) in Heq.
      cbn [rows appendRow recordUnique] in Heq. rewrite length_app in Heq.
      simpl in Heq. lia.
  - rewrite Heq in Ht'. subst t'. rewrite Ho' in Ho. injection Ho as <-.
    unfold withinInt64 in Hfit. cbn [rows appendRow] in Hfit.
    rewrite length_app in Hfit. simpl in Hfit.
    destruct (built_identities t Hb) as [Hc _]; [unfold withinInt64; lia|].
    assert (Hnew : int64_add (counter t) 1 = Z.of_nat (length (rows t) + 1)).
    { unfold int64_add. rewrite wrap64_small; lia. }
    assert (Hlast : rows (appendRow (printRow row) (int64_add (counter t) 1) t)
                      !! length (rows t) = Some (printRow row)).
    { cbn [rows appendRow]. by rewrite lookup_app_r, Nat.sub_diag. }
    exists (length (rows t)), (printRow row).
    rewrite decide_True by done. rewrite Hnew.
    split_and!; [done | done | by apply Hshow | done | done].
  - rewrite Heq in Ht'. subst t'. rewrite Ho' in Ho. injection Ho as <-.
    unfold withinInt64 in Hfit. cbn [rows appendRow recordUnique] in Hfit.
    rewrite length_app in Hfit. simpl in Hfit.
    destruct (built_identities t Hb) as [Hc _]; [unfold withinInt64; lia|].
    assert (Hnew : int64_add (counter t) 1 = Z.of_nat (length (rows t) + 1)).
    { unfold int64_add. rewrite wrap64_small; lia. }
    assert (Hlast : rows (appendRow (printRow row) (int64_add (counter t) 1)
                            (recordUnique key (int64_add (counter t) 1) t))
                      !! length (rows t) = Some (printRow row)).
    { cbn [rows appendRow recordUnique]. by rewrite lookup_app_r, Nat.sub_diag. }
    exists (length (rows t)), (printRow row).
    rewrite decide_False by done. rewrite Hnew.
    split_and!; [done | done | by apply Hshow | by rewrite storedKey_printed].
Qed.

Lemma AddRow_identity_is_position_witness :
  ∃ k cells,
    1%Z = Z.of_nat (k + 1) ∧ rows languagesWithEnglish !! k = Some cells ∧
    body (String_input languagesWithEnglish) !! k
      = Some (Sprint (VInt64 1) :: cells) ∧
    if decide (uniqueColIndices (tables startEnv languagesTable) = [])
    then cells = printRow [VString "English"] ∧
         k = length (rows (tables startEnv languagesTable))
    else storedKey (tables startEnv languagesTable) cells
         = uniqueKey (tables startEnv languagesTable) [VString "English"].
Proof.
  apply (AddRow_identity_is_position (tables startEnv languagesTable)
           languagesWithEnglish [VString "English"] 1).
  - apply (built_new "languages" ["name"] ["name"]).
  - unfold withinInt64. vm_compute. reflexivity.
  - reflexivity.
Defined.

(** X6.  In every table the program can build, with fewer than 2^63 rows,
    the counter is the number of rows, and the dedup index is exact: in a
    unique-keyed table it maps a key to an identity if and only if the row
    at that 1-based position has this composite key; in a table without
    unique columns it is empty. *)
Theorem built_index_is_exact (t : Table) :
  built t → withinInt64 t →
  counter t = Z.of_nat (length (rows t)) ∧
  (uniqueKeyed t → indexed t) ∧
  (¬ uniqueKeyed t → uniqueValues t = ∅).
Proof.
  intros Hb Hfit. destruct (built_identities t Hb Hfit) as [Hc Hidx].
  destruct (built_schema t Hb) as (_ & _ & He). done.
Qed.

Lemma built_index_is_exact_witness :
  counter languagesWithEnglish = Z.of_nat (length (rows languagesWithEnglish)) ∧
  (uniqueKeyed languagesWithEnglish → indexed languagesWithEnglish) ∧
  (¬ uniqueKeyed languagesWithEnglish → uniqueValues languagesWithEnglish = ∅).
Proof.
  apply (built_index_is_exact languagesWithEnglish built_languagesWithEnglish).
  unfold withinInt64. vm_compute. reflexivity.
Defined.

(** X7.  A unique-keyed table the program can build never holds two rows
    with the same composite key: rows whose key cells concatenate to the
    same text are one and the same row. *)
Theorem built_keys_distinct (t : Table) (k1 k2 : nat) (cells1 cells2 : Row) :
  built t → withinInt64 t → uniqueKeyed t →
  rows t !! k1 = Some cells1 → rows t !! k2 = Some cells2 →
  storedKey t cells1 = storedKey t cells2 →
  k1 = k2.
Proof.
  intros Hb Hfit Hu H1 H2 Hkey.
  destruct (built_identities t Hb Hfit) as [_ Hidx]. specialize (Hidx Hu).
  destruct (built_schema t Hb) as (Hi & Hw & _).
  assert (Hlen : length cells1 = length (columns t)).
  { eapply Forall_lookup_1 in Hw; [exact Hw | exact H1]. }
  destruct (storedKey_defined t cells1 Hi Hlen) as [key Hk].
  assert (Ha : uniqueValues t !! key = Some (Z.of_nat (k1 + 1))) by (apply Hidx; eauto).
  assert (Hb' : uniqueValues t !! key = Some (Z.of_nat (k2 + 1))).
  { apply Hidx. exists k2, cells2. split_and!; [done | done | congruence]. }
  rewrite Ha in Hb'. injection Hb' as Heq. lia.
Qed.

Lemma built_keys_distinct_witness : 0 = 0.
Proof.
  apply (built_keys_distinct languagesWithEnglish 0 0 ["English"] ["English"]
           built_languagesWithEnglish).
  - unfold withinInt64. vm_compute. reflexivity.
  - unfold uniqueKeyed. vm_compute. discriminate.
  - reflexivity.
  - reflexivity.
  - reflexivity.
Defined.

Section ChangeProperties.
Implicit Types (t : Table) (val : string) (col row : Z).

Lemma Change_fields val col row t :
  let t' := fst (Change val col row t) in
  name t' = name t ∧ counter t' = counter t ∧ columns t' = columns t ∧
  uniqueColIndices t' = uniqueColIndices t ∧ uniqueValues t' = uniqueValues t ∧
  length (rows t') = length (rows t).
Proof.
  unfold Change.
  destruct (_ <? row)%Z; [done|]. destruct (_ <? col)%Z; [done|].
  destruct (row <? 0)%Z; [done|].
  destruct (rows t !! Z.to_nat row) as [cells|]; [|done].
  destruct (_ || _); [done|]. cbn. by rewrite length_insert.
Qed.

Lemma AddRow_outcome_fields (newRow : list value) t1 t2 :
  counter t1 = counter t2 → columns t1 = columns t2 →
  uniqueColIndices t1 = uniqueColIndices t2 → uniqueValues t1 = uniqueValues t2 →
  snd (AddRow newRow t1) = snd (AddRow newRow t2).
Proof.
  intros Hc Hcol Hu Hv. unfold AddRow. rewrite Hc, Hcol, Hu, Hv.
  destruct (negb _); [done|]. destruct (_ <? _); [|done].
  destruct (concatUnique _ _ _); [|done]. by destruct (_ !! _).
Qed.

End ChangeProperties.

(** X8.  With a row index from 0 to the number of rows minus one and a
    column index within the columns, [Change] returns and overwrites exactly
    the addressed cell of a built table: every other cell, the number of
    rows, the counter and the dedup index stay as they were.  The row index
    counts from 0, so the row with identity [id] is addressed by [id - 1]. *)
Theorem Change_sets_one_cell (t : Table) (val : string) (col row : Z) :
  built t → inRange t col row →
  let t' := fst (Change val col row t) in
  snd (Change val col row t) = Done tt ∧
  cell t' (Z.to_nat row) (Z.to_nat col) = Some val ∧
  (∀ r c, (r, c) ≠ (Z.to_nat row, Z.to_nat col) → cell t' r c = cell t r c) ∧
  length (rows t') = length (rows t) ∧
  counter t' = counter t ∧ uniqueValues t' = uniqueValues t.
Proof.
  intros Hb [Hrow Hcol] t'.
  destruct (Change_fields val col row t) as (_ & Hc & _ & _ & Hv & Hl).
  split_and!; [ | | | done | done | done]; subst t'; unfold Change.
  all: rewrite (proj2 (Z.ltb_ge _ _)) by lia.
  all: rewrite (proj2 (Z.ltb_ge _ _)) by lia.
  all: rewrite (proj2 (Z.ltb_ge row 0)) by lia.
  all: destruct (lookup_lt_is_Some_2 (rows t) (Z.to_nat row)) as [cells Hcells]; [lia|].
  all: destruct (built_schema t Hb) as (_ & Hw & _).
  all: assert (Hlen : length cells = length (columns t))
         by (eapply Forall_lookup_1 in Hw; [exact Hw | exact Hcells]).
  all: unfold Row in *; rewrite Hcells.
  all: rewrite (proj2 (Z.ltb_ge col 0)) by lia.
  all: rewrite (proj2 (Z.leb_gt _ _)) by lia.
  all: cbn [orb fst snd].
  - done.
  - unfold cell. cbn [rows withRows].
    rewrite list_lookup_insert_eq by (apply lookup_lt_Some in Hcells; done).
    simpl. apply list_lookup_insert_eq. lia.
  - intros r c Hne. unfold cell. cbn [rows withRows].
    destruct (decide (r = Z.to_nat row)) as [->|Hr].
    + rewrite list_lookup_insert_eq by (apply lookup_lt_Some in Hcells; done).
      unfold Row in *. rewrite Hcells. simpl.
      apply list_lookup_insert_ne. congruence.
    + by rewrite list_lookup_insert_ne.
Qed.

Lemma Change_sets_one_cell_witness :
  let t' := fst (Change "French" 0 0 languagesWithEnglish) in
  snd (Change "French" 0 0 languagesWithEnglish) = Done tt ∧
  cell t' (Z.to_nat 0) (Z.to_nat 0) = Some "French" ∧
  (∀ r c, (r, c) ≠ (Z.to_nat 0, Z.to_nat 0) →
          cell t' r c = cell languagesWithEnglish r c) ∧
  length (rows t') = length (rows languagesWithEnglish) ∧
  counter t' = counter languagesWithEnglish ∧
  uniqueValues t' = uniqueValues languagesWithEnglish.
Proof.
  apply (Change_sets_one_cell languagesWithEnglish "French" 0 0
           built_languagesWithEnglish).
  split; vm_compute; split; congruence.
Defined.

(** X9.  With an index out of range [Change] panics and leaves the table
    unchanged: with the message [Row <row> is out of range] when the row
    index is the number of rows or more; else with [Column <col> is out of
    range] when the column index is the number of columns or more; else, an
    index being negative, with the run-time error [index out of range
    [<index>]] of the first negative index, the row before the column, for
    the two checks of [Change] let negative indices pass. *)
Theorem Change_out_of_range (t : Table) (val : string) (col row : Z) :
  ¬ inRange t col row →
  ∃ msg,
    Change val col row t = (t, Panicked msg) ∧
    ((Z.of_nat (length (rows t)) <= row)%Z →
       msg = "Row " +:+ pretty row +:+ " is out of range") ∧
    ((row < Z.of_nat (length (rows t)))%Z →
     (Z.of_nat (length (columns t)) <= col)%Z →
       msg = "Column " +:+ pretty col +:+ " is out of range") ∧
    ((row < Z.of_nat (length (rows t)))%Z →
     (col < Z.of_nat (length (columns t)))%Z →
       msg = "runtime error: index out of range [" +:+
             pretty (if (row <? 0)%Z then row else col) +:+ "]").
Proof.
  intros Hout. unfold Change, indexOutOfRange.
  destruct (Z.ltb_spec (Z.of_nat (length (rows t)) - 1) row) as [Hr|Hr].
  { eexists. split; [reflexivity|]. split_and!; intros; [done | lia | lia]. }
  destruct (Z.ltb_spec (Z.of_nat (length (columns t)) - 1) col) as [Hc|Hc].
  { eexists. split; [reflexivity|]. split_and!; intros; [lia | done | lia]. }
  destruct (Z.ltb_spec row 0) as [Hn|Hn].
  { eexists. split; [reflexivity|]. split_and!; intros; [lia | lia | done]. }
  destruct (lookup_lt_is_Some_2 (rows t) (Z.to_nat row)) as [cells Hcells];
    [unfold Row in *; lia|].
  unfold Row in *. rewrite Hcells.
  assert (col < 0)%Z as Hneg by (unfold inRange, Row in *; lia).
  rewrite (proj2 (Z.ltb_lt col 0)) by done. cbn [orb].
  eexists. split; [reflexivity|]. split_and!; intros; [lia | lia | done].
Qed.

Lemma Change_out_of_range_witness :
  ∃ msg,
    Change "French" 0 1 languagesWithEnglish = (languagesWithEnglish, Panicked msg) ∧
    ((Z.of_nat (length (rows languagesWithEnglish)) <= 1)%Z →
       msg = "Row " +:+ pretty 1%Z +:+ " is out of range") ∧
    ((1 < Z.of_nat (length (rows languagesWithEnglish)))%Z →
     (Z.of_nat (length (columns languagesWithEnglish)) <= 0)%Z →
       msg = "Column " +:+ pretty 0%Z +:+ " is out of range") ∧
    ((1 < Z.of_nat (length (rows languagesWithEnglish)))%Z →
     (0 < Z.of_nat (length (columns languagesWithEnglish)))%Z →
       msg = "runtime error: index out of range [" +:+
             pretty (if (1 <? 0)%Z then 1%Z else 0%Z) +:+ "]").
Proof.
  apply (Change_out_of_range languagesWithEnglish "French" 0 1).
  intros [H _]. vm_compute in H. destruct H as [_ H]. discriminate.
Defined.

(** X10.  [Change] never updates the dedup index: after it the index is the
    same map and [AddRow] returns for every row what it returned before,
    also when the cell overwritten was a key cell. *)
Theorem Change_leaves_dedup_index (t : Table) (val : string) (col row : Z)
    (newRow : list value) :
  uniqueValues (fst (Change val col row t)) = uniqueValues t ∧
  snd (AddRow newRow (fst (Change val col row t))) = snd (AddRow newRow t).
Proof.
  destruct (Change_fields val col row t) as (_ & Hc & Hcol & Hu & Hv & _).
  split; [done|]. by apply AddRow_outcome_fields.
Qed.

(** After [English] was overwritten by [French], inserting [English] again
    still returns identity 1, and inserting [French] appends a second row. *)
Example Change_then_AddRow_evaluated :
  let t' := fst (Change "French" 0 0 languagesWithEnglish) in
  rows t' = [["French"]] ∧
  AddRow [VString "English"] t' = (t', Done 1%Z) ∧
  snd (AddRow [VString "French"] t') = Done 2%Z ∧
  rows (fst (AddRow [VString "French"] t')) = [["French"]; ["French"]].
Proof. split_and!; reflexivity. Qed.

(** * Further properties of the extractors *)

Section ExtractorCases.
Implicit Types (line : string) (s : text) (k : cont).

Lemma ofText_toText line : ofText (toText line) = line.
Proof. apply string_of_list_ascii_of_string. Qed.

Lemma star_greedy_all p n cs s :
  Forall (fun a => p a = true) s →
  star_greedy p (rmatch Empty Some) n cs s = Some (mkCursor (n + length s) [] cs).
Proof.
  intros Hs. revert n. induction Hs as [|a s Ha _ IH]; intros n; simpl.
  - by rewrite Nat.add_0_r.
  - rewrite Ha, IH. simpl. do 2 f_equal. lia.
Qed.

Lemma MatchString_leading_space line :
  MatchString (cat [BeginText; Class space; Star true space]) line
  = startsWithSpace line.
Proof.
  unfold MatchString, startsWithSpace. destruct (toText line) as [|a s]; [done|].
  cbn [search cat foldr rmatch pos rest caps]. simpl Nat.eqb. cbn iota.
  destruct (space a).
  - match goal with
    | |- context [star_greedy ?p ?k ?n ?cs ?s] =>
        destruct (star_greedy_total p k n cs s) as [c ->];
          [intros c; simpl; eauto | done]
    end.
  - by rewrite search_begin_later.
Qed.

End ExtractorCases.

(** X11.  [validateBodyLine] looks at the first character and at three
    tags only: a line that does not start with a character of [\s] gives
    the error [Line is not beginning with spaces]; a line that does and
    holds one of [[p]], [[trn]], [[*]] is accepted; any other line gives the
    error that quotes the line and lists the three tags. *)
Theorem validateBodyLine_cases (line : string) :
  validateBodyLine line =
    if startsWithSpace line then
      if Contains line "[p]" || Contains line "[trn]" || Contains line "[*]"
      then None
      else Some ("Line '" +:+ line +:+
                 "' is not containing one of expected tags: [p],[trn],[*]")
    else Some "Line is not beginning with spaces".
Proof.
  unfold validateBodyLine. rewrite MatchString_leading_space.
  destruct (startsWithSpace line); [|done]. cbn [negb existsb].
  rewrite orb_false_r, orb_assoc. reflexivity.
Qed.

(** X12.  [scanWordArticleTitle] returns the whole line when the line
    starts with a character that is neither of the class [\s] nor [[], and
    the empty text otherwise (also for the empty line).  The line is one
    the scanner delivers: it holds no newline. *)
Theorem scanWordArticleTitle_cases (line : string) :
  noNewline line →
  scanWordArticleTitle line =
    match toText line with
    | a :: _ => if space a || Ascii.eqb a "[" then "" else line
    | [] => ""
    end.
Proof.
  intros Hline. unfold scanWordArticleTitle, FindString.
  unfold noNewline in Hline.
  pose proof (ofText_toText line) as Hback.
  destruct (toText line) as [|a s]; [done|].
  inversion Hline as [|? ? Ha Hs]; subst.
  cbn [search cat foldr rmatch pos rest caps]. simpl Nat.eqb. cbn iota.
  destruct (space a || Ascii.eqb a "["); cbn [negb].
  - by rewrite search_begin_later.
  - rewrite star_greedy_all by done. cbn [matched pos].
    rewrite Nat.sub_0_r. rewrite firstn_all2 by (simpl; lia). done.
Qed.

Lemma scanWordArticleTitle_cases_witness :
  noNewline "cat" ∧ scanWordArticleTitle "cat" = "cat".
Proof.
  assert (H : noNewline "cat") by (unfold noNewline; simpl; repeat constructor).
  split; [exact H | exact (scanWordArticleTitle_cases "cat" H)].
Defined.

Section TitleRoundTrip.
Implicit Types (s w : text) (k : cont).

Lemma splitLast_absent q s :
  Forall (fun a => a ≠ q) s → splitLast [q] s = None.
Proof.
  induction 1 as [|a s Ha _ IH]; [done|].
  cbn [splitLast]. rewrite IH. cbn [startsWith].
  destruct (Ascii.eqb_spec q a); [by subst | done].
Qed.

Lemma splitLast_char q s after :
  Forall (fun a => a ≠ q) after →
  splitLast [q] (s ++ q :: after) = Some (s, after).
Proof.
  intros Hafter. induction s as [|a s IH].
  - cbn [app splitLast]. rewrite splitLast_absent by done.
    cbn [startsWith]. by rewrite Ascii.eqb_refl.
  - cbn [app splitLast]. by rewrite IH.
Qed.

Lemma star_greedy_run p k n cs ws r c :
  Forall (fun a => p a = true) ws →
  star_greedy p k (n + length ws) cs r = Some c →
  star_greedy p k n cs (ws ++ r) = Some c.
Proof.
  intros Hws. revert n. induction Hws as [|a ws Ha _ IH]; intros n Hr.
  - by rewrite Nat.add_0_r in Hr.
  - cbn [app star_greedy]. rewrite Ha, (IH (S n)); [done|].
    simpl in Hr. by rewrite Nat.add_succ_r in Hr.
Qed.

Lemma scanTitle_text prefix ws title after :
  Forall (fun a => space a = true) ws →
  Forall (fun a => dot a = true) (title ++ after) →
  Forall (fun a => a ≠ "034"%char) after →
  search (cat [lit prefix; Star true space; chr "034";
               Group 1 (Star true dot); chr "034"]) 0
    (toText prefix ++ ws ++ "034"%char :: title ++ "034"%char :: after)
  = Some (mkFound []
            (toText prefix ++ ws ++ "034"%char :: title ++ ["034"%char])
            (mkCursor (length (toText prefix) + length ws + 1 + length title + 1)
               after [(1, title)])).
Proof.
  intros Hws Hdot Hafter.
  assert (Hm : rmatch (cat [lit prefix; Star true space; chr "034";
                  Group 1 (Star true dot); chr "034"]) Some
                 (mkCursor 0
                    (toText prefix ++ ws ++ "034"%char :: title ++ "034"%char :: after) [])
               = Some (mkCursor (length (toText prefix) + length ws + 1 + length title + 1)
                         after [(1, title)])).
  { cbn [cat foldr rmatch]. rewrite rmatch_lit. cbn [pos rest caps].
    rewrite startsWith_app, drop_app_length.
    cbn [rmatch pos rest caps].
    apply star_greedy_run; [done|].
    cbn [star_greedy]. change (space "034") with false. cbn iota.
    cbn [rmatch chr pos rest caps]. rewrite Ascii.eqb_refl.
    cbn [pos rest caps].
    rewrite (star_greedy_last ["034"%char]
      (fun c' => mkCursor (pos c' + 1) (drop 1 (rest c'))
                   ((1, take (pos c' - S (0 + length (toText prefix) + length ws))
                          (title ++ "034"%char :: after)) :: caps c'))).
    - rewrite splitLast_char by done. cbn [pos rest caps].
      rewrite drop_app_length. cbn [drop].
      f_equal. f_equal; [lia|]. do 2 f_equal.
      replace (S (0 + length (toText prefix) + length ws) + length title
               - S (0 + length (toText prefix) + length ws)) with (length title) by lia.
      by rewrite take_app_length.
    - intros c'. destruct (rest c') as [|a s']; [done|]. cbn [startsWith drop].
      destruct (Ascii.eqb "034" a); [|done]. cbn [andb]. by rewrite Nat.add_1_r.
    - apply Forall_app in Hdot as [Ht Ha]. apply Forall_app. split; [done|].
      by constructor. }
  destruct (toText prefix ++ ws ++ "034"%char :: title ++ "034"%char :: after)
    as [|x l] eqn:Hl.
  - destruct (toText prefix), ws; done.
  - cbn [search]. rewrite Hm. cbn [pos]. f_equal. f_equal.
    rewrite Nat.sub_0_r. rewrite <- Hl.
    replace (toText prefix ++ ws ++ "034"%char :: title ++ "034"%char :: after)
      with ((toText prefix ++ ws ++ "034"%char :: title ++ ["034"%char]) ++ after)
      by (rewrite <- !app_assoc; cbn [app]; by rewrite <- !app_assoc).
    replace (length (toText prefix) + length ws + 1 + length title + 1)
      with (length (toText prefix ++ ws ++ "034"%char :: title ++ ["034"%char]))
      by (rewrite !length_app; cbn [length]; rewrite length_app; cbn [length]; lia).
    by rewrite take_app_length.
Qed.

End TitleRoundTrip.

Lemma ngroups_lit (word : string) : ngroups (lit word) = 0.
Proof.
  unfold lit. induction (toText word) as [|a w IH]; [done|]. exact IH.
Qed.

(** X13.  Round trip of a header: for each of the three prefixes of
    [main], the line made of the prefix, any run of [\s], the title in
    double quotes and a rest without a double quote gives the title back.
    The title itself may hold double quotes: the capture is greedy and
    runs to the last quote of the line. *)
Theorem scanTitle_round_trip (prefix ws title after : string) :
  prefix ∈ titlePrefixes →
  Forall (fun a => space a = true) (toText ws) →
  noNewline title → noNewline after →
  Forall (fun a => a ≠ "034"%char) (toText after) →
  scanTitle prefix (prefix +:+ ws +:+ quoted title +:+ after) = Some title.
Proof.
  intros _ Hws Ht Ha Hq. unfold scanTitle, FindStringSubmatch, quoted, dquote.
  rewrite !toText_app. cbn [toText list_ascii_of_string app].
  rewrite <- !app_assoc. cbn [app].
  rewrite scanTitle_text; [| done | by apply Forall_app | done].
  cbn [cat foldr ngroups]. rewrite ngroups_lit.
  cbn. f_equal. apply ofText_toText.
Qed.

Lemma scanTitle_round_trip_witness :
  scanTitle "#NAME" ("#NAME" +:+ " " +:+ quoted "Le Robert" +:+ " (2001)")
  = Some "Le Robert".
Proof.
  apply (scanTitle_round_trip "#NAME" " " "Le Robert" " (2001)").
  - unfold titlePrefixes. constructor.
  - simpl. repeat constructor.
  - unfold noNewline. simpl. repeat constructor.
  - unfold noNewline. simpl. repeat constructor.
  - simpl. repeat constructor; discriminate.
Defined.

(** X14.  Indentation is invisible to the body extractors: with one or
    more characters of [\s] put in front, a line trims to the same text, is
    never a headword, yields the same note and the same translation, and
    passes the validation as soon as it holds one of the three tags. *)
Theorem extractors_ignore_indentation (ws body : string) :
  indentation ws →
  TrimSpace (ws +:+ body) = TrimSpace body ∧
  scanWordArticleTitle (ws +:+ body) = "" ∧
  extractNote (ws +:+ body) = extractNote body ∧
  extractTranslation (ws +:+ body) = extractTranslation body ∧
  (existsb (Contains body) ["[p]"; "[trn]"; "[*]"] = true →
   validateBodyLine (ws +:+ body) = None).
Proof.
  intros Hws. split_and!.
  - by apply TrimSpace_indent.
  - by apply scanWordArticleTitle_indent.
  - by apply extractNote_indent.
  - by apply extractTranslation_indent.
  - by apply validateBodyLine_indent.
Qed.

Lemma extractors_ignore_indentation_witness :
  TrimSpace ("  " +:+ "[trn]chat[/trn]") = TrimSpace "[trn]chat[/trn]" ∧
  scanWordArticleTitle ("  " +:+ "[trn]chat[/trn]") = "" ∧
  extractNote ("  " +:+ "[trn]chat[/trn]") = extractNote "[trn]chat[/trn]" ∧
  extractTranslation ("  " +:+ "[trn]chat[/trn]")
    = extractTranslation "[trn]chat[/trn]" ∧
  (existsb (Contains "[trn]chat[/trn]") ["[p]"; "[trn]"; "[*]"] = true →
   validateBodyLine ("  " +:+ "[trn]chat[/trn]") = None).
Proof.
  apply (extractors_ignore_indentation "  " "[trn]chat[/trn]").
  split; [discriminate | simpl; repeat constructor].
Defined.

Section Progress.
Implicit Types (r : regex) (k : cont) (c : cursor) (s : text).

Lemma star_greedy_progress p k n cs s c' :
  star_greedy p k n cs s = Some c' → ∃ c1, k c1 = Some c' ∧ n ≤ pos c1.
Proof.
  revert n. induction s as [|a s IH]; intros n; simpl.
  - intros H. eexists. split; [exact H | simpl; lia].
  - destruct (p a).
    + destruct (star_greedy p k (S n) cs s) as [c2|] eqn:Hs; simpl.
      * intros [= <-]. destruct (IH _ Hs) as (c1 & Hk & Hle).
        exists c1. split; [done | lia].
      * intros H. eexists. split; [exact H | simpl; lia].
    + intros H. eexists. split; [exact H | simpl; lia].
Qed.

Lemma star_lazy_progress p k n cs s c' :
  star_lazy p k n cs s = Some c' → ∃ c1, k c1 = Some c' ∧ n ≤ pos c1.
Proof.
  revert n. induction s as [|a s IH]; intros n; simpl.
  - destruct (k _) eqn:Hk; [|done]. intros [= <-]. eexists. split; [exact Hk | simpl; lia].
  - destruct (k _) eqn:Hk.
    + intros [= <-]. eexists. split; [exact Hk | simpl; lia].
    + destruct (p a); [|done]. intros Hs.
      destruct (IH _ Hs) as (c1 & Hk1 & Hle). exists c1. split; [done | lia].
Qed.

(** A match moves the cursor on by at least the mandatory characters of
    the pattern. *)
Lemma rmatch_progress r k c c' :
  rmatch r k c = Some c' → ∃ c1, k c1 = Some c' ∧ pos c + minLen r ≤ pos c1.
Proof.
  revert k c. induction r as [|p|r1 IH1 r2 IH2|g p|r1 IH1|i r1 IH1|];
    intros k c; simpl.
  - intros H. exists c. split; [done | lia].
  - destruct (rest c) as [|a s]; [done|]. destruct (p a); [|done].
    intros H. eexists. split; [exact H | simpl; lia].
  - intros H. destruct (IH1 _ _ H) as (c1 & H1 & Hle1).
    destruct (IH2 _ _ H1) as (c2 & H2 & Hle2). exists c2. split; [done | lia].
  - destruct g; intros H.
    + destruct (star_greedy_progress _ _ _ _ _ _ H) as (c1 & Hk & Hle).
      exists c1. split; [done | lia].
    + destruct (star_lazy_progress _ _ _ _ _ _ H) as (c1 & Hk & Hle).
      exists c1. split; [done | lia].
  - destruct (rmatch r1 k c) as [c2|] eqn:Hr; simpl.
    + intros [= <-]. destruct (IH1 _ _ Hr) as (c1 & Hk & Hle).
      exists c1. split; [done | lia].
    + intros H. exists c. split; [done | lia].
  - intros H. destruct (IH1 _ _ H) as (c1 & Hk & Hle).
    eexists. split; [exact Hk | simpl; lia].
  - destruct (_ =? _); [|done]. intros H. exists c. split; [done | lia].
Qed.

Lemma leadClass_minLen r p : leadClass r = Some p → 1 ≤ minLen r.
Proof.
  revert p. induction r as [|q|r1 IH1 r2 IH2|g q|r1 IH1|i r1 IH1|];
    intros p; simpl; try done.
  - intros H. specialize (IH1 _ H). lia.
  - apply IH1.
Qed.

(** A pattern that starts with a mandatory character never matches the
    empty text; so [replaceAll] never meets an empty match for it. *)
Lemma search_matched_nonempty r p n s f :
  leadClass r = Some p → search r n s = Some f → matched f ≠ [].
Proof.
  intros Hl. revert n f. induction s as [|a s IH]; intros n f.
  - cbn [search]. by rewrite (rmatch_lead r p).
  - cbn [search]. destruct (rmatch r Some _) as [c|] eqn:Hm.
    + intros [= <-]. cbn [matched].
      destruct (rmatch_progress _ _ _ _ Hm) as (c1 & [= ->] & Hle).
      pose proof (leadClass_minLen _ _ Hl). cbn [pos] in Hle.
      destruct (pos c - n) as [|m] eqn:Hd; [lia | done].
    + destruct (search r (S n) s) as [f'|] eqn:Hs; [|done].
      intros [= <-]. cbn [matched]. by eapply IH.
Qed.

Lemma cleanupLine_matches_nonempty n s f :
  (search (cat [chr "["; Star false dot; chr "]"]) n s = Some f ∨
   search (cat [Class space; Class space; Star true space]) n s = Some f) →
  matched f ≠ [].
Proof.
  intros [H|H]; eapply search_matched_nonempty; try exact H; reflexivity.
Qed.

End Progress.

Section IndexCapture.
Implicit Types (s : text) (k : cont) (c : cursor).

Lemma star_greedy_sound p k n cs s c' :
  star_greedy p k n cs s = Some c' →
  ∃ m, m ≤ length s ∧ Forall (fun a => p a = true) (take m s) ∧
       k (mkCursor (n + m) (drop m s) cs) = Some c'.
Proof.
  revert n. induction s as [|a s IH]; intros n; simpl.
  - intros H. exists 0. rewrite Nat.add_0_r. split_and!; [lia | constructor | done].
  - destruct (p a) eqn:Ha.
    + destruct (star_greedy p k (S n) cs s) as [c2|] eqn:Hs; simpl.
      * intros [= <-]. destruct (IH _ Hs) as (m & Hm & Hp & Hk).
        exists (S m). rewrite Nat.add_succ_r. split_and!; [lia | by constructor | done].
      * intros H. exists 0. rewrite Nat.add_0_r.
        split_and!; [lia | constructor | done].
    + intros H. exists 0. rewrite Nat.add_0_r.
      split_and!; [lia | constructor | done].
Qed.

Lemma digit_not_sign a : digit a = true → Ascii.eqb a "-" = false ∧ Ascii.eqb a "+" = false.
Proof.
  intros Ha. split; destruct (Ascii.eqb_spec a "-"), (Ascii.eqb_spec a "+");
    subst; done.
Qed.

Lemma index_capture_digits n s f :
  search (cat [BeginText; Star true space; chr "["; Star false dot; chr "]";
               Group 1 (Star true digit);
               Class (fun a => Ascii.eqb a ")" || Ascii.eqb a "|" || Ascii.eqb a ".")])
    n s = Some f →
  Forall (fun a => digit a = true) (capture 1 (caps (stop f))).
Proof.
  assert (Hm : ∀ c c',
    rmatch (cat [BeginText; Star true space; chr "["; Star false dot; chr "]";
                 Group 1 (Star true digit);
                 Class (fun a => Ascii.eqb a ")" || Ascii.eqb a "|" || Ascii.eqb a ".")])
      Some c = Some c' →
    Forall (fun a => digit a = true) (capture 1 (caps c'))).
  { intros c c' H. cbn [cat foldr] in H.
    do 5 (apply (rmatch_progress (Cat _ _)) in H as H'; clear H';
          change (rmatch (Cat ?r1 ?r2) Some ?c0)
            with (rmatch r1 (rmatch r2 Some) c0) in H;
          apply rmatch_progress in H as (? & H & _)).
    cbn [rmatch] in H.
    apply star_greedy_sound in H as (m & Hle & Hd & H).
    cbn [pos rest caps] in H.
    match type of H with
    | context [drop m (rest ?c1)] =>
        destruct (drop m (rest c1)) as [|a s']; [done|];
        destruct (_ || _); [|done]; injection H as <-;
        cbn [caps capture Nat.eqb];
        replace (pos c1 + m - pos c1) with m by lia
    end.
    done. }
  revert n f. induction s as [|a s IH]; intros n f.
  - cbn [search]. destruct (rmatch _ Some _) as [c|] eqn:Hc; [|done].
    intros [= <-]. cbn [stop]. by eapply Hm.
  - cbn [search]. destruct (rmatch _ Some _) as [c|] eqn:Hc.
    + intros [= <-]. cbn [stop]. by eapply Hm.
    + destruct (search _ (S n) s) as [f'|] eqn:Hs; [|done].
      intros [= <-]. cbn [stop]. by eapply IH.
Qed.

Lemma parseDigits_decimal acc s :
  Forall (fun a => digit a = true) s →
  parseDigits acc s
  = Some (foldl (fun acc a => (10 * acc + Z.of_nat (nat_of_ascii a - 48))%Z) acc s).
Proof.
  intros Hs. revert acc. induction Hs as [|a s Ha _ IH]; intros acc; [done|].
  cbn [parseDigits foldl]. by rewrite Ha, IH.
Qed.

Lemma decimal_nonneg (s : text) : (0 <= decimal s)%Z.
Proof.
  unfold decimal.
  assert (H : ∀ acc, (0 <= acc)%Z →
    (0 <= foldl (fun acc a => (10 * acc + Z.of_nat (nat_of_ascii a - 48))%Z) acc s)%Z).
  { induction s as [|a s IH]; intros acc Hacc; [done|]. cbn [foldl]. apply IH. lia. }
  by apply H.
Qed.

(** [ParseInt] on a text of digits: an error on the empty text and on a
    number from 2^63 on, else the number. *)
Lemma ParseInt10_decimal (cap : text) :
  Forall (fun a => digit a = true) cap →
  ParseInt10 (ofText cap) =
    if decide (cap = []) then None
    else if (decimal cap <? 2 ^ 63)%Z then Some (decimal cap) else None.
Proof.
  intros Hcap. unfold ParseInt10, toText, ofText.
  rewrite list_ascii_of_string_of_list_ascii.
  destruct Hcap as [|a cap Ha Hcap]; [done|].
  destruct (digit_not_sign a Ha) as [-> ->].
  rewrite parseDigits_decimal by by constructor.
  change (foldl _ 0%Z (a :: cap)) with (decimal (a :: cap)).
  rewrite decide_False by done. unfold inInt64.
  pose proof (decimal_nonneg (a :: cap)).
  rewrite (proj2 (Z.leb_le _ _)) by lia. cbn [andb].
  by destruct (_ <? _)%Z.
Qed.

End IndexCapture.

(** X15.  [extractIndex] never returns a negative number, and its result
    is fixed by the digits captured: it is 0 when the line does not match
    the pattern; when it matches, the captured text holds decimal digits
    only, and the result is 0 when no digit was captured and when the number
    is 2^63 or more, and the number the digits stand for otherwise. *)
Theorem extractIndex_bounds (line : string) :
  (0 <= extractIndex line < 2 ^ 63)%Z ∧
  match FindStringSubmatch indexPattern line with
  | None => extractIndex line = 0%Z
  | Some res =>
      let digits := toText (res !!! 1%nat) in
      Forall (fun a => digit a = true) digits ∧
      extractIndex line =
        if decide (digits = []) then 0%Z
        else if (decimal digits <? 2 ^ 63)%Z then decimal digits else 0%Z
  end.
Proof.
  unfold extractIndex. fold indexPattern. unfold FindStringSubmatch.
  destruct (search indexPattern 0 (toText line)) as [f|] eqn:Hs; [|split; [lia | done]].
  apply index_capture_digits in Hs.
  cbn [fmap list_fmap seq ngroups indexPattern cat foldr chr Nat.max lookup_total
       list_lookup_total].
  assert (Hback : toText (ofText (capture 1 (caps (stop f))))
                  = capture 1 (caps (stop f)))
    by apply list_ascii_of_string_of_list_ascii.
  rewrite !Hback, (ParseInt10_decimal _ Hs).
  pose proof (decimal_nonneg (capture 1 (caps (stop f)))) as Hnn.
  destruct (decide (capture 1 (caps (stop f)) = [])) as [Hnil|Hnil].
  - split_and!; [lia | lia | done | done].
  - destruct (Z.ltb_spec (decimal (capture 1 (caps (stop f)))) (2 ^ 63)).
    + split_and!; [lia | lia | done | done].
    + split_and!; [lia | lia | done | done].
Qed.

(** Evaluated: no match, no digit, a number, and a number out of range. *)
Example extractIndex_evaluated :
  extractIndex "cat" = 0%Z ∧ extractIndex " [m1])" = 0%Z ∧
  extractIndex " [m1]12) x" = 12%Z ∧
  extractIndex "[m]9223372036854775807." = 9223372036854775807%Z ∧
  extractIndex "[m]9223372036854775808." = 0%Z.
Proof. vm_compute. split_and!; reflexivity. Qed.

Section Suffixes.
Implicit Types (s w : text) (k : cont) (c : cursor) (r : regex).

Lemma star_greedy_suffix p k n cs s c' :
  star_greedy p k n cs s = Some c' →
  ∃ c1, k c1 = Some c' ∧ rest c1 `suffix_of` s.
Proof.
  intros H. apply star_greedy_sound in H as (m & _ & _ & H).
  eexists. split; [exact H|]. cbn [rest]. apply suffix_drop.
Qed.

Lemma star_lazy_suffix p k n cs s c' :
  star_lazy p k n cs s = Some c' →
  ∃ c1, k c1 = Some c' ∧ rest c1 `suffix_of` s.
Proof.
  revert n. induction s as [|a s IH]; intros n; simpl.
  - destruct (k _) eqn:Hk; [|done]. intros [= <-]. eexists. split; [exact Hk | done].
  - destruct (k _) eqn:Hk.
    + intros [= <-]. eexists. split; [exact Hk | done].
    + destruct (p a); [|done]. intros Hs.
      destruct (IH _ Hs) as (c1 & Hk1 & Hsuf). exists c1. split; [done|].
      by apply suffix_cons_r.
Qed.

(** What follows a pattern is matched on a suffix of the text the pattern
    started on. *)
Lemma rmatch_suffix r k c c' :
  rmatch r k c = Some c' → ∃ c1, k c1 = Some c' ∧ rest c1 `suffix_of` rest c.
Proof.
  revert k c. induction r as [|p|r1 IH1 r2 IH2|g p|r1 IH1|i r1 IH1|];
    intros k c; simpl.
  - intros H. by exists c.
  - destruct (rest c) as [|a s]; [done|]. destruct (p a); [|done].
    intros H. eexists. split; [exact H|]. cbn [rest]. by apply suffix_cons_r.
  - intros H. destruct (IH1 _ _ H) as (c1 & H1 & Hs1).
    destruct (IH2 _ _ H1) as (c2 & H2 & Hs2). exists c2. split; [done|].
    by etrans.
  - destruct g; intros H.
    + by apply star_greedy_suffix in H.
    + by apply star_lazy_suffix in H.
  - destruct (rmatch r1 k c) as [c2|] eqn:Hr; simpl.
    + intros [= <-]. by apply IH1.
    + intros H. by exists c.
  - intros H. destruct (IH1 _ _ H) as (c1 & Hk & Hs).
    eexists. split; [exact Hk | done].
  - destruct (_ =? _); [|done]. intros H. by exists c.
Qed.

Lemma containsText_suffix w t s :
  t `suffix_of` s → startsWith w t = true → containsText w s = true.
Proof.
  intros [pre ->] Hw. induction pre as [|a pre IH]; simpl.
  - destruct t; simpl; by rewrite Hw.
  - rewrite IH. apply orb_true_r.
Qed.

Lemma containsText_mono w t s :
  t `suffix_of` s → containsText w t = true → containsText w s = true.
Proof.
  intros [pre ->] Hw. induction pre as [|a pre IH]; [done|].
  cbn [app containsText]. rewrite IH. apply orb_true_r.
Qed.

Lemma startsWith_contains w s : startsWith w s = true → containsText w s = true.
Proof. intros H. destruct s; simpl; by rewrite H. Qed.

(** A pattern with a literal word in it only matches where the text holds
    the word. *)
Lemma rmatch_needs_literal (rs rs' : list regex) (word : string) k c c' :
  rmatch (cat (rs ++ lit word :: rs')) k c = Some c' →
  containsText (toText word) (rest c) = true.
Proof.
  revert k c. induction rs as [|r rs IH]; intros k c H.
  - cbn [app cat foldr rmatch] in H. rewrite rmatch_lit in H.
    destruct (startsWith (toText word) (rest c)) eqn:Hw; [|done].
    by apply startsWith_contains.
  - cbn [app cat foldr rmatch] in H.
    apply rmatch_suffix in H as (c1 & H & Hsuf).
    apply IH in H. by eapply containsText_mono.
Qed.

Lemma search_needs_literal (rs rs' : list regex) (word : string) n s :
  containsText (toText word) s = false →
  search (cat (rs ++ lit word :: rs')) n s = None.
Proof.
  revert n. induction s as [|a s IH]; intros n Hc.
  - cbn [search]. destruct (rmatch _ Some _) as [c|] eqn:Hm; [|done].
    apply rmatch_needs_literal in Hm. cbn [rest] in Hm. congruence.
  - cbn [search]. destruct (rmatch _ Some _) as [c|] eqn:Hm.
    + apply rmatch_needs_literal in Hm. cbn [rest] in Hm. congruence.
    + cbn [containsText] in Hc. apply orb_false_iff in Hc as [_ Hc].
      by rewrite IH.
Qed.

End Suffixes.

Ltac no_match rs word :=
  match goal with
  | H : containsText _ _ = false |- context [search ?re ?n ?s] =>
      let Hs := fresh in
      assert (Hs : search re n s = None)
        by (apply (search_needs_literal rs _ word); exact H);
      rewrite Hs
  end.

(** X16.  No extractor finds anything in a line that lacks one of the
    literal tags of its pattern: [extractNote] needs [[p] and [[/],
    [extractTranslation] needs [[trn]] and [[/trn]], [extractRelation] needs
    [[*]] and [[/*]], [extractTranslationAttributes] needs [[/] and [[trn]],
    and [scanTitle] with a prefix of [main] needs the prefix. *)
Theorem extractors_need_their_tags (line : string) :
  (Contains line "[p" = false ∨ Contains line "[/" = false →
   extractNote line = ("", "")) ∧
  (Contains line "[trn]" = false ∨ Contains line "[/trn]" = false →
   extractTranslation line = "") ∧
  (Contains line "[*]" = false ∨ Contains line "[/*]" = false →
   extractRelation line = ("", "")) ∧
  (Contains line "[/" = false ∨ Contains line "[trn]" = false →
   extractTranslationAttributes line = ("", false)) ∧
  (∀ prefix, prefix ∈ titlePrefixes → Contains line prefix = false →
             scanTitle prefix line = None).
Proof.
  unfold Contains. split_and!.
  - intros [H|H]; unfold extractNote, FindStringSubmatch.
    + by no_match (@nil regex) "[p".
    + by no_match [lit "[p"; Star false dot; chr "]";
         Opt (Group 1 (cat [lit "[c"; Star true space;
                            Group 2 (Star false dot); chr "]"]));
         Group 3 (Star false dot)] "[/".
  - intros [H|H]; unfold extractTranslation, FindStringSubmatch.
    + by no_match (@nil regex) "[trn]".
    + by no_match [lit "[trn]"; Group 1 (Star true dot)] "[/trn]".
  - intros [H|H]; unfold extractRelation, FindStringSubmatch.
    + by no_match (@nil regex) "[*]".
    + by no_match [lit "[*]"; Opt (Group 1 (Star true dot))] "[/*]".
  - intros [H|H]; unfold extractTranslationAttributes, FindStringSubmatch.
    + by no_match [Star true dot] "[/".
    + by no_match [Star true dot; lit "[/"; Star false dot; chr "]";
                   Group 1 (Star true dot)] "[trn]".
  - intros prefix _ H; unfold scanTitle, FindStringSubmatch.
    by no_match (@nil regex) prefix.
Qed.

Lemma extractors_need_their_tags_witness :
  extractNote "cat" = ("", "") ∧ extractTranslation "cat" = "" ∧
  extractRelation "cat" = ("", "") ∧
  extractTranslationAttributes "cat" = ("", false) ∧
  scanTitle "#NAME" "cat" = None.
Proof.
  destruct (extractors_need_their_tags "cat") as (H1 & H2 & H3 & H4 & H5).
  split_and!.
  - apply H1. left. reflexivity.
  - apply H2. left. reflexivity.
  - apply H3. left. reflexivity.
  - apply H4. left. reflexivity.
  - apply H5; [constructor | reflexivity].
Defined.

(** * Further properties of the parse loop *)

Section LoopOutcome.
Implicit Types (e : Env) (line : string).

Lemma post_no_panic {A} (Q : A → Env → Prop) (r : Env * outcome A) e' msg :
  post Q (fun _ => False) r → r ≠ (e', Panicked msg).
Proof. intros H ->. exact H. Qed.

Lemma bind_unset_panicked {B} v prefix line (f : bool → M Env B) e e' msg :
  bind (unsetAndScanTitle v prefix line) f e = (e', Panicked msg) →
  (∃ title, f true (setName v title e) = (e', Panicked msg)) ∨
  f false e = (e', Panicked msg).
Proof.
  unfold bind, unsetAndScanTitle.
  destruct (String.eqb _ _); [|by right].
  destruct (scanTitle prefix line); [left; eauto | by right].
Qed.

(** When the loop body panics it is at the validation of a line that is
    neither blank, nor taken for a header, nor a headword; nothing has been
    stored for the line by then. *)
Lemma processLine_panicked line e e' msg :
  declared e → processLine line e = (e', Panicked msg) →
  e' = e ∧ validateBodyLine line = Some msg ∧ scanWordArticleTitle line = "".
Proof.
  intros Hd H. unfold processLine in H.
  destruct (String.eqb (TrimSpace line) ""); [done|].
  apply bind_unset_panicked in H as [[title H]|H].
  { exfalso. revert H. apply (post_no_panic (fun _ e' => declared e')).
    by apply storeHeader_sound. }
  apply bind_unset_panicked in H as [[title H]|H].
  { exfalso. revert H. apply (post_no_panic (fun _ e' => declared e')).
    by apply storeHeader_sound. }
  apply bind_unset_panicked in H as [[title H]|H].
  { exfalso. revert H. apply (post_no_panic (fun _ e' => declared e')).
    by apply storeHeader_sound. }
  destruct (String.eqb_spec (scanWordArticleTitle line) "") as [Hw|Hw]; cbn [negb] in H.
  - pose proof (processBody_sound line e Hd) as Hpost. rewrite H in Hpost.
    cbn [post] in Hpost. split_and!; [|done|done].
    unfold processBody in H. rewrite Hpost in H. cbn in H. congruence.
  - exfalso. revert H. apply (post_no_panic (fun _ e' => declared e')).
    by apply storeHeadword_sound.
Qed.

Lemma scanLoop_panicked lines e0 e msg :
  declared e0 → scanLoop lines e0 = (e, Panicked msg) →
  ∃ before line after,
    lines = before ++ line :: after ∧
    scanLoop before e0 = (e, Done tt) ∧
    validateBodyLine line = Some msg ∧ scanWordArticleTitle line = "".
Proof.
  revert e0. induction lines as [|line lines IH]; intros e0 Hd H; [done|].
  cbn [scanLoop] in H. unfold bind in H.
  pose proof (processLine_sound line e0 Hd) as Hpost.
  destruct (processLine line e0) as [e1 [[]|msg1]] eqn:Hline.
  - cbn [post] in Hpost. destruct (IH e1 Hpost H) as (before & l & after & -> & Hb & Hv & Hw).
    exists (line :: before), l, after. split; [done|]. split; [|done].
    cbn [scanLoop]. unfold bind. by rewrite Hline.
  - injection H as <- <-.
    destruct (processLine_panicked _ _ _ _ Hd Hline) as (-> & Hv & Hw).
    exists [], line, lines. done.
Qed.

End LoopOutcome.

(** X17.  A run ends in one of two ways only.  Either every line was
    processed and the seven printed tables are those of the final state,
    each with its declared columns; or the run panicked at the validation
    of one line: the lines before it were processed normally, the line is
    no headword, the message is the validation error of that line, and the
    state is the one the lines before it left.  No call of [AddRow] in the
    loop ever panics. *)
Theorem run_stops_only_at_validation (lines : list string) :
  match run lines with
  | (e, Done printedTables) =>
      scanLoop lines startEnv = (e, Done tt) ∧ declared e ∧
      printedTables = tables e <$> printed
  | (e, Panicked msg) =>
      ∃ before line after,
        lines = before ++ line :: after ∧
        scanLoop before startEnv = (e, Done tt) ∧
        validateBodyLine line = Some msg ∧ scanWordArticleTitle line = ""
  end.
Proof.
  rewrite run_finish.
  pose proof (scanLoop_sound lines startEnv declared_start) as Hpost.
  destruct (scanLoop lines startEnv) as [e [[]|msg]] eqn:Hrun; cbn [finish].
  - done.
  - by apply (scanLoop_panicked lines startEnv).
Qed.

Section Steps.
Implicit Types (e : Env) (line : string).

Lemma keepsTables_setTable x t e xs :
  x ∈ xs → keepsTables xs e (setTable x t e).
Proof.
  intros Hx y Hy. simpl. apply assign_ne. intros ->. done.
Qed.

Lemma header_step v prefix x idVar line e title (f : bool → M Env unit) :
  declared e → length (columns (tables startEnv x)) = 1 →
  names e v = "" → scanTitle prefix line = Some title →
  f true = storeHeader v x idVar →
  ∃ e' id,
    bind (unsetAndScanTitle v prefix line) f e = (e', Done tt) ∧
    AddRow [VString title] (tables e x) = (tables e' x, Done id) ∧
    names e' v = title ∧ ids e' idVar = id ∧
    keepsTables [x] e e' ∧ keepsIds [idVar] e e' ∧
    (∀ w, w ≠ v → names e' w = names e w).
Proof.
  intros Hd Hx Hn Hs Hf. unfold bind, unsetAndScanTitle. rewrite Hn, Hs.
  cbn [String.eqb]. rewrite Hf.
  destruct (storeHeader_exact v x idVar (setName v title e)) as (t' & id & Hadd & ->);
    [done | done |].
  cbn [names setName] in Hadd. rewrite assign_eq in Hadd.
  exists (setId idVar id (setTable x t' (setName v title e))), id.
  cbn [tables ids names setId setTable setName]. rewrite !assign_eq.
  split_and!; try done.
  - intros y Hy. apply assign_ne. intros ->. apply Hy. by left.
  - intros w Hw. apply assign_ne. intros ->. apply Hw. by left.
  - intros w Hw. by apply assign_ne.
Qed.

End Steps.

(** X18.  A header line that is the first of its kind stores one row:
    a [#NAME] line adds the title to [dictionaries] and sets [dicName] and
    [dicId]; an [#INDEX_LANGUAGE] line adds the title to [languages] and
    sets [langFromName] and [langFromId]; a [#CONTENTS_LANGUAGE] line adds
    it to [languages] and sets [langToName] and [langToId].  The identity
    is the one [AddRow] returned; every other table and identity stays. *)
Theorem header_lines (line title : string) (e : Env) :
  declared e → TrimSpace line ≠ "" →
  (names e dicName = "" → scanTitle "#NAME" line = Some title →
   ∃ e' id,
     processLine line e = (e', Done tt) ∧
     AddRow [VString title] (tables e dictionariesTable)
       = (tables e' dictionariesTable, Done id) ∧
     names e' dicName = title ∧ ids e' dicId = id ∧
     keepsTables [dictionariesTable] e e' ∧ keepsIds [dicId] e e') ∧
  (headerSkipped dicName "#NAME" line e →
   names e langFromName = "" → scanTitle "#INDEX_LANGUAGE" line = Some title →
   ∃ e' id,
     processLine line e = (e', Done tt) ∧
     AddRow [VString title] (tables e languagesTable)
       = (tables e' languagesTable, Done id) ∧
     names e' langFromName = title ∧ ids e' langFromId = id ∧
     keepsTables [languagesTable] e e' ∧ keepsIds [langFromId] e e') ∧
  (headerSkipped dicName "#NAME" line e →
   headerSkipped langFromName "#INDEX_LANGUAGE" line e →
   names e langToName = "" → scanTitle "#CONTENTS_LANGUAGE" line = Some title →
   ∃ e' id,
     processLine line e = (e', Done tt) ∧
     AddRow [VString title] (tables e languagesTable)
       = (tables e' languagesTable, Done id) ∧
     names e' langToName = title ∧ ids e' langToId = id ∧
     keepsTables [languagesTable] e e' ∧ keepsIds [langToId] e e').
Proof.
  intros Hd Hb.
  assert (Hnb : String.eqb (TrimSpace line) "" = false) by by apply String.eqb_neq.
  split_and!.
  - intros Hn Hs. unfold processLine. rewrite Hnb.
    edestruct (header_step dicName "#NAME" dictionariesTable dicId line e title)
      as (e' & id & Hrun & Hadd & Hname & Hid & Ht & Hi & _);
      [done | done | done | done | | ].
    2: { exists e', id. split; [exact Hrun | done]. }
    reflexivity.
  - intros H1 Hn Hs. unfold processLine. rewrite Hnb.
    unfold bind at 1. rewrite (unsetAndScanTitle_skipped _ _ _ _ H1).
    edestruct (header_step langFromName "#INDEX_LANGUAGE" languagesTable langFromId
                 line e title)
      as (e' & id & Hrun & Hadd & Hname & Hid & Ht & Hi & _);
      [done | done | done | done | | ].
    2: { exists e', id. split; [exact Hrun | done]. }
    reflexivity.
  - intros H1 H2 Hn Hs. unfold processLine. rewrite Hnb.
    unfold bind at 1. rewrite (unsetAndScanTitle_skipped _ _ _ _ H1).
    unfold bind at 1. rewrite (unsetAndScanTitle_skipped _ _ _ _ H2).
    edestruct (header_step langToName "#CONTENTS_LANGUAGE" languagesTable langToId
                 line e title)
      as (e' & id & Hrun & Hadd & Hname & Hid & Ht & Hi & _);
      [done | done | done | done | | ].
    2: { exists e', id. split; [exact Hrun | done]. }
    reflexivity.
Qed.

Lemma header_lines_witness :
  ∃ e' id,
    processLine nameA startEnv = (e', Done tt) ∧
    AddRow [VString "A"] (tables startEnv dictionariesTable)
      = (tables e' dictionariesTable, Done id) ∧
    names e' dicName = "A" ∧ ids e' dicId = id ∧
    keepsTables [dictionariesTable] startEnv e' ∧ keepsIds [dicId] startEnv e'.
Proof.
  destruct (header_lines nameA "A" startEnv declared_start) as (H & _ & _).
  - vm_compute. discriminate.
  - apply H; reflexivity.
Defined.

(** X19.  A headword line stores the whole line as a word of the source
    language, under the current dictionary, sets [wordFromId] to the
    identity [AddRow] returned and resets [gramTypeId] and [attributeId] to
    0; every other table, identity and name stays. *)
Theorem headword_line (line : string) (e : Env) :
  declared e → isHeadwordLine line e →
  ∃ e' id,
    processLine line e = (e', Done tt) ∧
    AddRow [VString (scanWordArticleTitle line); VInt64 (ids e dicId);
            VInt64 (ids e langFromId)] (tables e wordsTable)
      = (tables e' wordsTable, Done id) ∧
    ids e' wordFromId = id ∧ ids e' gramTypeId = 0%Z ∧ ids e' attributeId = 0%Z ∧
    keepsTables [wordsTable] e e' ∧
    keepsIds [wordFromId; gramTypeId; attributeId] e e' ∧
    names e' = names e.
Proof.
  intros Hd Hw. rewrite processLine_headword by done.
  destruct (storeHeadword_exact (scanWordArticleTitle line) e Hd)
    as (t' & id & Hadd & ->).
  eexists _, id. split; [reflexivity|].
  cbn [tables ids names setId setTable]. rewrite !assign_eq.
  split_and!; try done.
  - intros y Hy. apply assign_ne. intros Heq. apply Hy. rewrite <- Heq. by left.
  - intros v Hv. cbn [ids setId setTable]. rewrite !assign_ne; [done | | |]; intros Heq; apply Hv;
      rewrite <- Heq; repeat ((by left) || right).
Qed.

Lemma headword_line_witness :
  ∃ e' id,
    processLine "cat" startEnv = (e', Done tt) ∧
    AddRow [VString (scanWordArticleTitle "cat"); VInt64 (ids startEnv dicId);
            VInt64 (ids startEnv langFromId)] (tables startEnv wordsTable)
      = (tables e' wordsTable, Done id) ∧
    ids e' wordFromId = id ∧ ids e' gramTypeId = 0%Z ∧ ids e' attributeId = 0%Z ∧
    keepsTables [wordsTable] startEnv e' ∧
    keepsIds [wordFromId; gramTypeId; attributeId] startEnv e' ∧
    names e' = names startEnv.
Proof.
  apply (headword_line "cat" startEnv declared_start).
  split; [split_and! | ]; try (right; reflexivity); vm_compute; discriminate.
Defined.

(** X20.  A valid body line with a note and no translation stores the
    note in [gramTypes] and sets [gramTypeId] to the identity [AddRow]
    returned; every other table, identity and name stays. *)
Theorem grammar_note_line (line : string) (e : Env) :
  declared e → isBodyLine line e → validateBodyLine line = None →
  snd (extractNote line) ≠ "" → extractTranslation line = "" →
  ∃ e' id,
    processLine line e = (e', Done tt) ∧
    AddRow [VString (snd (extractNote line))] (tables e gramTypeTable)
      = (tables e' gramTypeTable, Done id) ∧
    ids e' gramTypeId = id ∧
    keepsTables [gramTypeTable] e e' ∧ keepsIds [gramTypeId] e e' ∧
    names e' = names e.
Proof.
  intros Hd Hb Hv Hnote Htr. rewrite processLine_body by done.
  unfold processBody. rewrite Hv, Htr. unfold bind at 1. cbn [FailOnError ret].
  apply String.eqb_neq in Hnote. rewrite Hnote. cbn [negb String.eqb andb].
  destruct (addRow_exact gramTypeTable [VString (snd (extractNote line))] e)
    as (t' & id & Hadd & Hrun & _); [done | done |].
  unfold bind. rewrite Hrun. eexists _, id. split; [reflexivity|].
  cbn [tables ids names setId setTable modify fst]. rewrite !assign_eq.
  split_and!; try done.
  - intros y Hy. apply assign_ne. intros Heq. apply Hy. rewrite <- Heq. by left.
  - intros v Hv'. apply assign_ne. intros Heq. apply Hv'. rewrite <- Heq. by left.
Qed.

Lemma grammar_note_line_witness :
  ∃ e' id,
    processLine grammarLine startEnv = (e', Done tt) ∧
    AddRow [VString (snd (extractNote grammarLine))] (tables startEnv gramTypeTable)
      = (tables e' gramTypeTable, Done id) ∧
    ids e' gramTypeId = id ∧
    keepsTables [gramTypeTable] startEnv e' ∧ keepsIds [gramTypeId] startEnv e' ∧
    names e' = names startEnv.
Proof.
  apply (grammar_note_line grammarLine startEnv declared_start).
  - split; [split_and! | ]; try (right; reflexivity); try reflexivity.
    vm_compute. discriminate.
  - reflexivity.
  - vm_compute. discriminate.
  - reflexivity.
Defined.

(** X21.  A line that is blank after trimming, and a valid body line
    with neither note nor translation (a relation line, say), change
    nothing: no row, no identity, no name. *)
Theorem inert_lines (line : string) (e : Env) :
  TrimSpace line = "" ∨
  (isBodyLine line e ∧ validateBodyLine line = None ∧
   snd (extractNote line) = "" ∧ extractTranslation line = "") →
  processLine line e = (e, Done tt).
Proof.
  intros [Hblank | (Hb & Hv & Hnote & Htr)].
  - unfold processLine. by rewrite Hblank.
  - rewrite processLine_body by done. unfold processBody.
    by rewrite Hv, Hnote, Htr.
Qed.

Lemma inert_lines_witness :
  processLine relationLine startEnv = (startEnv, Done tt).
Proof.
  apply (inert_lines relationLine startEnv). right. split_and!.
  - split; [split_and! | ]; try (right; reflexivity); try reflexivity.
    vm_compute. discriminate.
  - reflexivity.
  - reflexivity.
  - reflexivity.
Defined.

Ltac tidy_env :=
  cbn [tables ids names setId setTable setName] in *;
  rewrite ?assign_eq in *;
  repeat (rewrite assign_ne in * by discriminate).

Section TranslationFrame.
Implicit Types (e : Env) (note translation : string).

Lemma storeTranslation_frame note translation e :
  declared e →
  post
    (fun _ e' =>
       tables e' dictionariesTable = tables e dictionariesTable ∧
       tables e' languagesTable = tables e languagesTable ∧
       tables e' gramTypeTable = tables e gramTypeTable ∧
       names e' = names e ∧
       ids e' dicId = ids e dicId ∧ ids e' langFromId = ids e langFromId ∧
       ids e' langToId = ids e langToId ∧ ids e' wordFromId = ids e wordFromId ∧
       ids e' gramTypeId = ids e gramTypeId)
    (fun _ => False)
    (storeTranslation note translation e).
Proof.
  intros Hd. unfold storeTranslation. repeat loop_step.
  apply post_bind.
  destruct (negb (String.eqb note "")).
  - repeat loop_step. simpl. loop_step. tidy_env.
    destruct (0 <? ids e gramTypeId)%Z.
    + loop_step. tidy_env. simpl. tidy_env. done.
    + simpl. tidy_env. done.
  - simpl. loop_step. tidy_env.
    destruct (0 <? ids e gramTypeId)%Z.
    + loop_step. tidy_env. simpl. tidy_env. done.
    + simpl. tidy_env. done.
Qed.

End TranslationFrame.

(** X22.  A valid body line with a translation appends the translation
    to [words] as a word of the target language under the current
    dictionary and sets [wordToId]; it inserts the pair of the current
    headword and that word into [translations] and sets [translationId] to
    the identity returned; and, when [gramTypeId] is positive, it inserts
    the pair of the grammar type and the translation into
    [gramTypesToTranslations].  Each pair is inserted under the key made of
    its two identities printed one after the other: the row is appended
    when the key is not yet in the index of the store, and else the store
    is left as it is and the identity on record is returned, be the key on
    record for this pair or for another pair with the same digits.  The
    line never touches [dictionaries], [languages] or [gramTypes], nor the
    names, the headword or the grammar type in force. *)
Theorem translation_line (line : string) (e : Env) :
  declared e → isBodyLine line e → validateBodyLine line = None →
  extractTranslation line ≠ "" →
  ∃ e' trId,
    processLine line e = (e', Done tt) ∧
    AddRow [VString (extractTranslation line); VInt64 (ids e dicId);
            VInt64 (ids e langToId)] (tables e wordsTable)
      = (tables e' wordsTable, Done (ids e' wordToId)) ∧
    insertedUnder (pairKey (ids e wordFromId) (ids e' wordToId))
      [VInt64 (ids e wordFromId); VInt64 (ids e' wordToId)]
      (tables e translationsTable) (tables e' translationsTable) trId ∧
    ids e' translationId = trId ∧
    grammarTypeLinked trId e e' ∧
    tables e' dictionariesTable = tables e dictionariesTable ∧
    tables e' languagesTable = tables e languagesTable ∧
    tables e' gramTypeTable = tables e gramTypeTable ∧
    names e' = names e ∧
    ids e' wordFromId = ids e wordFromId ∧ ids e' gramTypeId = ids e gramTypeId.
Proof.
  intros Hd Hb Hv Ht. rewrite processLine_body by done.
  unfold processBody. rewrite Hv. unfold bind at 1. cbn [FailOnError ret].
  destruct (String.eqb_spec (extractTranslation line) "") as [|_]; [done|].
  rewrite andb_false_r. cbn [negb].
  pose proof (storeTranslation_exact (snd (extractNote line))
                (extractTranslation line) e Hd) as Hexact.
  pose proof (storeTranslation_frame (snd (extractNote line))
                (extractTranslation line) e Hd) as Hframe.
  destruct (storeTranslation _ _ e) as [e' [[]|msg]]; cbn [post] in *; [|done].
  destruct Hexact as (trId & Hword & Htr & Hid & _ & Hlink).
  destruct Hframe as (H1 & H2 & H3 & H4 & _ & _ & _ & H8 & H9).
  exists e', trId. done.
Qed.

Lemma translation_line_witness :
  ∃ e' trId,
    processLine translationLine afterGrammarNote = (e', Done tt) ∧
    AddRow [VString (extractTranslation translationLine);
            VInt64 (ids afterGrammarNote dicId); VInt64 (ids afterGrammarNote langToId)]
      (tables afterGrammarNote wordsTable)
      = (tables e' wordsTable, Done (ids e' wordToId)) ∧
    insertedUnder (pairKey (ids afterGrammarNote wordFromId) (ids e' wordToId))
      [VInt64 (ids afterGrammarNote wordFromId); VInt64 (ids e' wordToId)]
      (tables afterGrammarNote translationsTable) (tables e' translationsTable) trId ∧
    ids e' translationId = trId ∧
    grammarTypeLinked trId afterGrammarNote e' ∧
    tables e' dictionariesTable = tables afterGrammarNote dictionariesTable ∧
    tables e' languagesTable = tables afterGrammarNote languagesTable ∧
    tables e' gramTypeTable = tables afterGrammarNote gramTypeTable ∧
    names e' = names afterGrammarNote ∧
    ids e' wordFromId = ids afterGrammarNote wordFromId ∧
    ids e' gramTypeId = ids afterGrammarNote gramTypeId.
Proof.
  apply (translation_line translationLine afterGrammarNote).
  - intros x. destruct x; split; reflexivity.
  - split; [split_and! | ]; try (right; reflexivity); try reflexivity.
    vm_compute. discriminate.
  - reflexivity.
  - vm_compute. discriminate.
Defined.

(** Two pairs with the same digits in a run: after [elevenGrammarTypes]
    the next translation line is translation 11 under grammar type 1; the
    key of the pair (1, 11) is [111], which the index holds for the pair
    (11, 1), so the store of the links stays as it is and holds no row
    (1, 11). *)
Example grammar_link_key_collision :
  let e1 := fst (run elevenGrammarTypes) in
  let e2 := fst (run (elevenGrammarTypes ++ [translationLine])) in
  let links := gramTypeTranslationTable in
  is_done (snd (run (elevenGrammarTypes ++ [translationLine]))) = true ∧
  ids e1 gramTypeId = 1%Z ∧ ids e2 gramTypeId = 1%Z ∧
  ids e2 translationId = 11%Z ∧
  pairKey 1 11 = "111" ∧ pairKey 11 1 = "111" ∧
  uniqueValues (tables e1 links) !! "111" = Some 1%Z ∧
  rows (tables e1 links) !! 0%nat = Some ["11"; "1"] ∧
  tables e2 links = tables e1 links ∧
  bool_decide (["1"; "11"] ∈ rows (tables e2 links)) = false.
Proof. vm_compute. split_and!; reflexivity. Qed.

(** * The run only appends *)

Section AppendOnly.
Implicit Types (e : Env) (line : string) (t : Table).

Lemma extends_refl e : extends e e.
Proof. intros x. done. Qed.

Lemma AddRow_grows (newRow : list value) t :
  rows t `prefix_of` rows (fst (AddRow newRow t)) ∧
  uniqueValues t ⊆ uniqueValues (fst (AddRow newRow t)).
Proof.
  destruct (AddRow_cases newRow t)
    as [Heq | (_ & _ & [[_ Heq] | (key & _ & _ & Hfresh & Heq)])]; rewrite Heq.
  - done.
  - split; [by apply prefix_app_r | done].
  - split; [by apply prefix_app_r | by apply insert_subseteq].
Qed.

Lemma post_addRow_extends {B} x (newRow : list value) (f : Z → M Env B) e0 e Q E :
  declared e → extends e0 e →
  length newRow = length (columns (tables startEnv x)) →
  (∀ e1 id, declared e1 → extends e0 e1 → post Q E (f id e1)) →
  post Q E (bind (addRow x newRow) f e).
Proof.
  intros Hd He Hlen Hk. apply post_addRow; [done | done |].
  intros t' id Hadd Hd'. apply Hk; [done|].
  intros y. cbn [tables setTable].
  destruct (decide (x = y)) as [<-|Hy].
  - rewrite assign_eq. destruct (He x) as [Hr Hu].
    destruct (AddRow_grows newRow (tables e x)) as [Hr' Hu'].
    rewrite Hadd in Hr', Hu'. cbn [fst] in Hr', Hu'.
    split; etrans; eauto.
  - rewrite assign_ne by done. apply He.
Qed.

End AppendOnly.

Ltac grow_step :=
  lazymatch goal with
  | |- post _ _ (bind (readId _) _ _) => apply post_readId
  | |- post _ _ (bind (readName _) _ _) => apply post_readName
  | |- post _ _ (bind (modify _) _ _) => apply post_modify
  | |- post _ _ (bind (addRow _ _) _ _) =>
      eapply post_addRow_extends;
        [eassumption | eassumption | reflexivity | intros ? ? ? ?]
  end.

Section AppendOnlyLoop.
Implicit Types (e : Env) (line : string).

Lemma storeHeader_extends v x idVar e0 e E :
  declared e → extends e0 e → length (columns (tables startEnv x)) = 1 →
  post (fun _ e' => declared e' ∧ extends e0 e') E (storeHeader v x idVar e).
Proof.
  intros Hd He Hx. unfold storeHeader. grow_step.
  eapply post_addRow_extends; [done | done | by rewrite Hx |].
  intros e1 id Hd1 He1. by split.
Qed.

Lemma storeHeadword_extends title e0 e E :
  declared e → extends e0 e →
  post (fun _ e' => declared e' ∧ extends e0 e') E (storeHeadword title e).
Proof.
  intros Hd He. unfold storeHeadword. repeat grow_step. by split.
Qed.

Lemma storeTranslation_extends note translation e0 e E :
  declared e → extends e0 e →
  post (fun _ e' => declared e' ∧ extends e0 e') E
    (storeTranslation note translation e).
Proof.
  intros Hd He. unfold storeTranslation. repeat grow_step.
  apply post_bind. destruct (negb _).
  - repeat grow_step. simpl. grow_step. destruct (_ <? _)%Z.
    + grow_step. by split.
    + by split.
  - simpl. grow_step. destruct (_ <? _)%Z.
    + grow_step. by split.
    + by split.
Qed.

Lemma processLine_extends line e0 e :
  declared e → extends e0 e →
  post (fun _ e' => declared e' ∧ extends e0 e') (fun _ => True)
    (processLine line e).
Proof.
  intros Hd He. unfold processLine.
  destruct (String.eqb _ _); [by split|].
  apply post_unsetAndScanTitle; [done | intros; by apply storeHeader_extends |].
  apply post_unsetAndScanTitle; [done | intros; by apply storeHeader_extends |].
  apply post_unsetAndScanTitle; [done | intros; by apply storeHeader_extends |].
  destruct (negb _).
  - by apply storeHeadword_extends.
  - unfold processBody. destruct (validateBodyLine line); [done|].
    apply post_bind. simpl. destruct (negb _ && _).
    + grow_step. by split.
    + destruct (negb _); [by apply storeTranslation_extends | by split].
Qed.

Lemma scanLoop_extends lines e0 e :
  declared e → extends e0 e → extends e0 (fst (scanLoop lines e)).
Proof.
  revert e. induction lines as [|line lines IH]; intros e Hd He; [done|].
  cbn [scanLoop]. unfold bind.
  pose proof (processLine_extends line e0 e Hd He) as Hpost.
  destruct (processLine line e) as [e1 [[]|msg]] eqn:Hline.
  - destruct Hpost as [Hd1 He1]. by apply IH.
  - by destruct (processLine_panicked _ _ _ _ Hd Hline) as (-> & _ & _).
Qed.

End AppendOnlyLoop.

(** X23.  A run never removes or rewrites what it stored: the tables
    after any number of lines still hold, at the same positions, the rows
    they held after fewer lines, and the entries of their dedup indices;
    this holds for the state a panic leaves as well.  So an identity handed
    out by [AddRow] addresses the same row to the end of the run. *)
Theorem run_is_append_only (before after : list string) :
  extends (fst (scanLoop before startEnv))
          (fst (scanLoop (before ++ after) startEnv)).
Proof.
  rewrite scanLoop_app. unfold bind.
  pose proof (scanLoop_sound before startEnv declared_start) as Hd.
  destruct (scanLoop before startEnv) as [e1 [[]|msg]]; cbn [fst post] in *.
  - apply scanLoop_extends; [done | apply extends_refl].
  - apply extends_refl.
Qed.

(** * [cleanupLine] *)

Section CleanupPlain.
Implicit Types (s : text) (r : regex) (line : string).

Lemma search_no_lead r p n s :
  leadClass r = Some p → Forall (fun a => p a = false) s → search r n s = None.
Proof.
  intros Hl Hs. revert n. induction Hs as [|a s Ha _ IH]; intros n.
  - cbn [search]. by rewrite (rmatch_lead r p).
  - cbn [search]. rewrite (rmatch_lead r p) by done. by rewrite IH.
Qed.

Lemma replaceAll_no_match fuel r repl n s :
  search r n s = None → replaceAll fuel r repl n s = s.
Proof. intros H. destruct fuel; [done|]. cbn [replaceAll]. by rewrite H. Qed.

Lemma containsText_char a s :
  containsText [a] s = false → Forall (fun b => Ascii.eqb a b = false) s.
Proof.
  induction s as [|b s IH]; [done|]. cbn [containsText startsWith].
  rewrite andb_true_r. intros [Hb Hs]%orb_false_iff. constructor; auto.
Qed.

Lemma search_spaces_none n s :
  spaceRun s = false →
  search (cat [Class space; Class space; Star true space]) n s = None.
Proof.
  revert n. induction s as [|a s IH]; intros n Hs; [done|].
  assert (Hs' : spaceRun s = false).
  { destruct s; [done|]. cbn [spaceRun] in Hs. by apply orb_false_iff in Hs as [_ ?]. }
  assert (Hm : rmatch (cat [Class space; Class space; Star true space]) Some
                 (mkCursor n (a :: s) []) = None).
  { cbn [cat foldr rmatch pos rest caps]. destruct (space a) eqn:Ha; [|done].
    cbn [pos rest caps]. destruct s as [|b s']; [done|].
    cbn [spaceRun] in Hs. apply orb_false_iff in Hs as [Hab _].
    rewrite Ha in Hab. cbn [andb] in Hab. by rewrite Hab. }
  cbn [search]. by rewrite Hm, (IH _ Hs').
Qed.

End CleanupPlain.

(** X24.  On a text without [[] and without two characters of [\s] side
    by side [cleanupLine] finds nothing to remove or to collapse: it only
    trims the text. *)
Theorem cleanupLine_plain (line : string) :
  Contains line "[" = false → spaceRun (toText line) = false →
  cleanupLine line = TrimSpace line.
Proof.
  intros Hb Hs. unfold cleanupLine, ReplaceAllString.
  rewrite (replaceAll_no_match _ (cat [chr "["; Star false dot; chr "]"]) _ 0
             (toText line)).
  - rewrite ofText_toText. rewrite replaceAll_no_match; [by rewrite ofText_toText|].
    by apply search_spaces_none.
  - apply (search_no_lead _ (Ascii.eqb "[")); [done|].
    by apply containsText_char.
Qed.

Lemma cleanupLine_plain_witness :
  cleanupLine " chat noir " = TrimSpace " chat noir ".
Proof. apply (cleanupLine_plain " chat noir "); reflexivity. Defined.

Section Fuel.
Implicit Types (r : regex) (k : cont) (c : cursor) (s repl : text).

Lemma star_lazy_sound p k n cs s c' :
  star_lazy p k n cs s = Some c' →
  ∃ m, m ≤ length s ∧ k (mkCursor (n + m) (drop m s) cs) = Some c'.
Proof.
  revert n. induction s as [|a s IH]; intros n; simpl.
  - destruct (k _) eqn:Hk; [|done]. intros [= <-]. exists 0.
    rewrite Nat.add_0_r. split; [lia | done].
  - destruct (k _) eqn:Hk.
    + intros [= <-]. exists 0. rewrite Nat.add_0_r. split; [lia | done].
    + destruct (p a); [|done]. intros Hs.
      destruct (IH _ Hs) as (m & Hm & Hk1). exists (S m).
      rewrite Nat.add_succ_r. split; [lia | done].
Qed.

(** A match neither loses nor invents text: the offset reached and the
    text still to read add up to what they were, and the offset has moved
    on by the mandatory characters of the pattern at least. *)
Lemma rmatch_extent r k c c' :
  rmatch r k c = Some c' →
  ∃ c1, k c1 = Some c' ∧
        pos c1 + length (rest c1) = pos c + length (rest c) ∧
        pos c + minLen r ≤ pos c1.
Proof.
  revert k c. induction r as [|p|r1 IH1 r2 IH2|g p|r1 IH1|i r1 IH1|];
    intros k c; simpl.
  - intros H. exists c. split_and!; [done | done | lia].
  - destruct (rest c) as [|a s]; [done|]. destruct (p a); [|done].
    intros H. eexists. split; [exact H|]. simpl. lia.
  - intros H. destruct (IH1 _ _ H) as (c1 & H1 & He1 & Hp1).
    destruct (IH2 _ _ H1) as (c2 & H2 & He2 & Hp2). exists c2.
    split_and!; [done | lia | lia].
  - destruct g; intros H.
    + apply star_greedy_sound in H as (m & Hm & _ & H).
      eexists. split; [exact H|]. simpl. rewrite length_drop. lia.
    + apply star_lazy_sound in H as (m & Hm & H).
      eexists. split; [exact H|]. simpl. rewrite length_drop. lia.
  - destruct (rmatch r1 k c) as [c2|] eqn:Hr; simpl.
    + intros [= <-]. destruct (IH1 _ _ Hr) as (c1 & Hk & He & Hp).
      exists c1. split_and!; [done | done | lia].
    + intros H. exists c. split_and!; [done | done | lia].
  - intros H. destruct (IH1 _ _ H) as (c1 & Hk & He & Hp).
    eexists. split; [exact Hk|]. simpl. lia.
  - destruct (_ =? _); [|done]. intros H. exists c. split_and!; [done | done | lia].
Qed.

(** What is left to read after a match is shorter than the text searched,
    by the mandatory characters of the pattern at least. *)
Lemma search_rest r n s f :
  search r n s = Some f → length (rest (stop f)) + minLen r ≤ length s.
Proof.
  revert n f. induction s as [|a s IH]; intros n f; cbn [search].
  - destruct (rmatch r Some _) as [c|] eqn:Hm; [|done]. intros [= <-].
    destruct (rmatch_extent _ _ _ _ Hm) as (c1 & [= ->] & He & Hp).
    cbn [stop pos rest length] in *. lia.
  - destruct (rmatch r Some _) as [c|] eqn:Hm.
    + intros [= <-].
      destruct (rmatch_extent _ _ _ _ Hm) as (c1 & [= ->] & He & Hp).
      cbn [stop pos rest length] in *. lia.
    + destruct (search r (S n) s) as [f'|] eqn:Hs; [|done].
      intros [= <-]. cbn [stop]. specialize (IH _ _ Hs). cbn [length]. lia.
Qed.

(** The bound on the number of replacements is never reached: with a
    pattern that takes one character at least, any bound from the length of
    the text on gives the same result. *)
Lemma replaceAll_fuel r repl fuel fuel' n s :
  1 ≤ minLen r → length s ≤ fuel → length s ≤ fuel' →
  replaceAll fuel r repl n s = replaceAll fuel' r repl n s.
Proof.
  intros Hr. revert fuel' n s. induction fuel as [|fuel IH]; intros fuel' n s H1 H2.
  - destruct s; [|simpl in H1; lia]. destruct fuel'; [done|].
    cbn [replaceAll]. destruct (search r n []) as [f|] eqn:Hs; [|done].
    apply search_rest in Hs. simpl in Hs. lia.
  - destruct fuel' as [|fuel'].
    + destruct s; [|simpl in H2; lia].
      cbn [replaceAll]. destruct (search r n []) as [f|] eqn:Hs; [|done].
      apply search_rest in Hs. simpl in Hs. lia.
    + cbn [replaceAll]. destruct (search r n s) as [f|] eqn:Hs; [|done].
      destruct (matched f); [done|]. apply search_rest in Hs.
      do 2 f_equal. apply IH; lia.
Qed.

End Fuel.

(** [cleanupLine] replaces every match: for its two patterns a larger bound
    on the number of replacements changes nothing. *)
Lemma cleanupLine_replaces_all (src repl : string) (extra : nat) :
  let tag := cat [chr "["; Star false dot; chr "]"] in
  let spaces := cat [Class space; Class space; Star true space] in
  ofText (replaceAll (String.length src + extra) tag (toText repl) 0 (toText src))
    = ReplaceAllString tag src repl ∧
  ofText (replaceAll (String.length src + extra) spaces (toText repl) 0 (toText src))
    = ReplaceAllString spaces src repl.
Proof.
  assert (Hlen : length (toText src) = String.length src).
  { unfold toText. induction src as [|a src IH]; [done|]. simpl. by rewrite IH. }
  unfold ReplaceAllString.
  split; f_equal; apply replaceAll_fuel; simpl; lia.
Qed.
